(** * A shallow embedding of the Aerohack-2025 Rubik's cube core

    The development follows the layout of the Python sources:

    - [Py]        : the few Python primitives the code relies on (exceptions,
                    list indexing with negative indices, [str.split],
                    [str.join], [zip], [itertools.permutations]);
    - [Notation_] : [src/scramble/parser.py] and [src/cube/move.py];
    - [Cleaner]   : [src/scramble/cleaner.py];
    - [Engine]    : [src/cube/colour.py], [src/cube/pieces.py], [src/cube/cube.py];
    - [History]   : [src/cube/history_cube.py];
    - [Solver]    : [src/cube/solver.py].

    Mutable objects are modelled by explicit state passing in a small
    state-and-exception monad; an exception leaves the state as it was at the
    moment of the raise, exactly as a Python object mutated in place. *)

From Stdlib Require Import List ZArith Lia Bool Ascii String Permutation Btauto Arith.
From stdpp Require Import gmap.
Import ListNotations.
Local Open Scope string_scope.
Local Open Scope Z_scope.

(* ===================================================================== *)
(** * Python primitives *)
(* ===================================================================== *)

Module Py.

(** The built-in exceptions the code can raise. *)
Inductive exn := IndexError | KeyError | ValueError.

(** Outcome of a call: a value, a raised exception, or exhausted fuel (only
    for the [while] loops, which Python does not bound). *)
Inductive res (A : Type) : Type :=
| Ok (a : A)
| Raise (e : exn)
| OutOfFuel.
Arguments Ok {A} a.
Arguments Raise {A} e.
Arguments OutOfFuel {A}.

Definition rbind {A B} (r : res A) (k : A -> res B) : res B :=
  match r with
  | Ok a => k a
  | Raise e => Raise e
  | OutOfFuel => OutOfFuel
  end.

(** A method of an object whose mutable state is [S]. *)
Definition M (S A : Type) : Type := S -> res A * S.

Definition ret {S A} (a : A) : M S A := fun s => (Ok a, s).
Definition bind {S A B} (m : M S A) (k : A -> M S B) : M S B :=
  fun s => match m s with
           | (Ok a, s') => k a s'
           | (Raise e, s') => (Raise e, s')
           | (OutOfFuel, s') => (OutOfFuel, s')
           end.
Definition raise {S A} (e : exn) : M S A := fun s => (Raise e, s).
Definition out_of_fuel {S A} : M S A := fun s => (OutOfFuel, s).
Definition get {S} : M S S := fun s => (Ok s, s).
Definition put {S} (s : S) : M S unit := fun _ => (Ok tt, s).
Definition lift {S A} (r : res A) : M S A := fun s => (r, s).

(** [for x in xs: body(x)] *)
Fixpoint for_each {S A} (xs : list A) (body : A -> M S unit) : M S unit :=
  match xs with
  | [] => ret tt
  | x :: xs' => bind (body x) (fun _ => for_each xs' body)
  end.

(** [for _ in range(n): body] *)
Fixpoint repeat_n {S} (n : nat) (body : M S unit) : M S unit :=
  match n with
  | O => ret tt
  | S n' => bind body (fun _ => repeat_n n' body)
  end.

(** [l[i]] with Python's negative indices. *)
Definition norm_index {A} (l : list A) (i : Z) : option nat :=
  let n := Z.of_nat (List.length l) in
  if (0 <=? i) && (i <? n) then Some (Z.to_nat i)
  else if (i <? 0) && (0 <=? i + n) then Some (Z.to_nat (i + n))
  else None.

Definition getitem {A} (l : list A) (i : Z) : res A :=
  match norm_index l i with
  | Some k => match nth_error l k with Some x => Ok x | None => Raise IndexError end
  | None => Raise IndexError
  end.

Fixpoint set_nth {A} (l : list A) (k : nat) (x : A) : list A :=
  match l, k with
  | [], _ => []
  | _ :: t, O => x :: t
  | h :: t, S k' => h :: set_nth t k' x
  end.

(** [l[i] = x] *)
Definition setitem {A} (l : list A) (i : Z) (x : A) : res (list A) :=
  match norm_index l i with
  | Some k => Ok (set_nth l k x)
  | None => Raise IndexError
  end.

Fixpoint del_nth {A} (l : list A) (k : nat) : list A :=
  match l, k with
  | [], _ => []
  | _ :: t, O => t
  | h :: t, S k' => h :: del_nth t k'
  end.

(** [del l[i]] *)
Definition delitem {A} (l : list A) (i : Z) : res (list A) :=
  match norm_index l i with
  | Some k => Ok (del_nth l k)
  | None => Raise IndexError
  end.

(** Slices keep Python's clamping: [l[i:]] and [l[:i]]. *)
Definition clamp_index {A} (l : list A) (i : Z) : nat :=
  let n := Z.of_nat (List.length l) in
  Z.to_nat (Z.min n (if i <? 0 then Z.max 0 (i + n) else i)).

Definition slice_from {A} (l : list A) (i : Z) : list A := skipn (clamp_index l i) l.
Definition slice_to {A} (l : list A) (i : Z) : list A := firstn (clamp_index l i) l.

(** [zip] applied to the unpacked [rows]: the columns of [rows], truncated
    to the shortest row. *)
Fixpoint zip_cons {A} (r : list A) (cols : list (list A)) : list (list A) :=
  match r, cols with
  | x :: r', c :: cols' => (x :: c) :: zip_cons r' cols'
  | _, _ => []
  end.

Fixpoint zip_star {A} (rows : list (list A)) : list (list A) :=
  match rows with
  | [] => []
  | [r] => map (fun x => [x]) r
  | r :: rest => zip_cons r (zip_star rest)
  end.

(** [itertools.permutations(l)], in the order of the index tuples. *)
Fixpoint picks {A} (l : list A) : list (A * list A) :=
  match l with
  | [] => []
  | x :: t => (x, t) :: map (fun p => (fst p, x :: snd p)) (picks t)
  end.

Fixpoint permutations_fuel {A} (n : nat) (l : list A) : list (list A) :=
  match n with
  | O => [[]]
  | S n' =>
      match l with
      | [] => [[]]
      | _ => flat_map (fun p => map (cons (fst p)) (permutations_fuel n' (snd p))) (picks l)
      end
  end.

Definition permutations {A} (l : list A) : list (list A) :=
  permutations_fuel (List.length l) l.

(** Characters for which [str.isspace()] holds (code points below 256);
    [str.split()] without argument splits on runs of them. *)
Definition isspace (c : ascii) : bool :=
  let n := N_of_ascii c in
  ((9 <=? n) && (n <=? 13) || (28 <=? n) && (n <=? 32) || (n =? 133) || (n =? 160))%N.

(** [s.split()] *)
Fixpoint split (s : string) : list string :=
  match s with
  | EmptyString => []
  | String c s' =>
      if isspace c then split s'
      else
        match s' with
        | EmptyString => [String c EmptyString]
        | String c' _ =>
            if isspace c' then String c EmptyString :: split s'
            else match split s' with
                 | t :: ts => String c t :: ts
                 | [] => [String c EmptyString]
                 end
        end
  end.

(** [sep.join(l)] *)
Fixpoint join (sep : string) (l : list string) : string :=
  match l with
  | [] => ""
  | [x] => x
  | x :: xs => x ++ sep ++ join sep xs
  end.

(** [needle in hay] for strings. *)
Fixpoint str_in (needle hay : string) : bool :=
  String.prefix needle hay
  || match hay with
     | EmptyString => false
     | String _ hay' => str_in needle hay'
     end.

(** [s[i]] for a string: a one-character string. *)
Definition str_getitem (s : string) (i : Z) : res string :=
  match getitem (list_ascii_of_string s) i with
  | Ok c => Ok (String c EmptyString)
  | Raise e => Raise e
  | OutOfFuel => OutOfFuel
  end.

(** [list(s)]: the one-character strings of [s]. *)
Definition chars (s : string) : list string :=
  map (fun c => String c EmptyString) (list_ascii_of_string s).

End Py.

Export Py.

Declare Scope py_scope.
Delimit Scope py_scope with py.
Notation "x <- m ;; k" := (bind m (fun x => k))
  (at level 100, m at next level, right associativity) : py_scope.
Notation "m ;;; k" := (bind m (fun _ => k))
  (at level 100, right associativity) : py_scope.
Notation "x <~ r ;; k" := (rbind r (fun x => k))
  (at level 100, r at next level, right associativity) : py_scope.
Local Open Scope py_scope.

(* ===================================================================== *)
(** * Notation: moves and their text form  (move.py, parser.py) *)
(* ===================================================================== *)

Module Notation_.

(** [@dataclass class Move], equality is structural. *)
Record Move := mkMove { face : string; invert : bool; double : bool }.

Definition Move_eqb (a b : Move) : bool :=
  String.eqb (face a) (face b) && Bool.eqb (invert a) (invert b)
  && Bool.eqb (double a) (double b).

(** [scramble_to_moves]: one [Move] per whitespace-separated token. *)
Definition token_to_move (move : string) : res Move :=
  let is_prime := str_in "'" move in
  let is_double := str_in "2" move in
  face <~ str_getitem move 0 ;;
  Ok (mkMove face is_prime is_double).

Fixpoint tokens_to_moves (toks : list string) : res (list Move) :=
  match toks with
  | [] => Ok []
  | t :: ts =>
      m <~ token_to_move t ;;
      ms <~ tokens_to_moves ts ;;
      Ok (m :: ms)
  end.

Definition scramble_to_moves (scramble : string) : res (list Move) :=
  tokens_to_moves (split scramble).

(** [moves_to_scramble] *)
Definition move_to_token (move : Move) : string :=
  let cur_move := face move in
  if double move then cur_move ++ "2"
  else if invert move then cur_move ++ "'"
  else cur_move.

Definition moves_to_scramble (moves : list Move) : string :=
  join " " (map move_to_token moves).

(** [invert_moves]: a new list, the argument is not touched. *)
Definition invert_moves (moves : list Move) : list Move :=
  map (fun move => mkMove (face move) (negb (invert move)) (double move)) (rev moves).

End Notation_.

Export Notation_.

(* ===================================================================== *)
(** * The sequence optimizer  (cleaner.py) *)
(* ===================================================================== *)

Module Cleaner.

(** [is_double] and [is_prime] look at the second character only, and answer
    [False] when there is none. *)
Definition is_double (move : string) : bool :=
  match str_getitem move 1 with
  | Ok c => String.eqb c "2"
  | _ => false
  end.

Definition is_prime (move : string) : bool :=
  match str_getitem move 1 with
  | Ok c => String.eqb c "'"
  | _ => false
  end.

(** Accesses to the local list [split_scramble], the state of the loop. *)
Definition item (i : Z) : M (list string) string := fun l => (getitem l i, l).

Definition del (i : Z) : M (list string) unit :=
  fun l => match delitem l i with
           | Ok l' => (Ok tt, l')
           | Raise e => (Raise e, l)
           | OutOfFuel => (OutOfFuel, l)
           end.

Definition assign (i : Z) (x : string) : M (list string) unit :=
  fun l => match setitem l i x with
           | Ok l' => (Ok tt, l')
           | Raise e => (Raise e, l)
           | OutOfFuel => (OutOfFuel, l)
           end.

Definition first_letter (s : string) : M (list string) string := lift (str_getitem s 0).

(** The body of the [try] block for the current value of [seq]; it returns
    the value of [seq] at the end of the block. *)
Definition try_block (seq : Z) : M (list string) Z :=
  cur <- item seq ;;
  cur0 <- first_letter cur ;;
  nxt <- item (seq + 1) ;;
  nxt0 <- first_letter nxt ;;
  if String.eqb cur0 nxt0 then
    (if negb (is_prime cur) && negb (is_double cur) then
       if negb (is_prime nxt) && negb (is_double nxt) then
         del (seq + 1) ;;; assign seq (cur ++ "2")
       else if is_prime nxt then
         del seq ;;; del seq
       else if is_double nxt then
         del (seq + 1) ;;; assign seq (cur ++ "'")
       else ret tt
     else if is_prime cur then
       if negb (is_prime nxt) && negb (is_double nxt) then
         del seq ;;; del seq
       else if is_prime nxt then
         del (seq + 1) ;;; assign seq (cur0 ++ "2")
       else if is_double nxt then
         del (seq + 1) ;;; assign seq cur0
       else ret tt
     else if is_double cur then
       if negb (is_prime nxt) && negb (is_double nxt) then
         del seq ;;;
         (moved <- item seq ;; moved0 <- first_letter moved ;; assign seq (moved0 ++ "'"))
       else if is_prime nxt then
         del (seq + 1) ;;; assign seq cur0
       else if is_double nxt then
         del seq ;;; del seq
       else ret tt
     else ret tt) ;;;
    ret (seq - 1)
  else ret seq.

(** [while seq < len(split_scramble): try: ... except IndexError: break;
    seq += 1] *)
Fixpoint clean_loop (fuel : nat) (seq : Z) : M (list string) unit :=
  match fuel with
  | O => out_of_fuel
  | S fuel' =>
      fun l =>
        if seq <? Z.of_nat (List.length l) then
          match try_block seq l with
          | (Ok seq', l') => clean_loop fuel' (seq' + 1) l'
          | (Raise IndexError, l') => (Ok tt, l')
          | (Raise e, l') => (Raise e, l')
          | (OutOfFuel, l') => (OutOfFuel, l')
          end
        else (Ok tt, l)
  end.

(** Every iteration either removes a token or advances [seq], so twice the
    number of tokens (plus the final test) bounds the number of iterations. *)
Definition clean_fuel (l : list string) : nat := S (2 * List.length l).

Definition clean_tokens (split_scramble : list string) : res (list string) :=
  match clean_loop (clean_fuel split_scramble) 0 split_scramble with
  | (Ok _, l) => Ok l
  | (Raise e, _) => Raise e
  | (OutOfFuel, _) => OutOfFuel
  end.

Definition clean_moves (scramble : string) : res string :=
  l <~ clean_tokens (split scramble) ;;
  Ok (join " " l).

End Cleaner.

Export Cleaner.

(* ===================================================================== *)
(** * Cube state and move engine  (colour.py, pieces.py, cube.py) *)
(* ===================================================================== *)

Module Engine.

(** The six colours of [colour.py]; [rgb] gives the tuple each constant
    stands for. *)
Inductive Colour := WHITE | GREEN | ORANGE | YELLOW | BLUE | RED.

Definition rgb (c : Colour) : Z * Z * Z :=
  match c with
  | WHITE => (255, 255, 255)
  | GREEN => (0, 255, 0)
  | ORANGE => (255, 165, 0)
  | YELLOW => (255, 255, 0)
  | BLUE => (0, 0, 255)
  | RED => (255, 0, 0)
  end.

Definition Colour_eqb (a b : Colour) : bool :=
  match a, b with
  | WHITE, WHITE | GREEN, GREEN | ORANGE, ORANGE
  | YELLOW, YELLOW | BLUE, BLUE | RED, RED => true
  | _, _ => false
  end.

Definition all_colours : list Colour := [WHITE; GREEN; ORANGE; YELLOW; BLUE; RED].

Definition Row := list Colour.
Definition Grid := list Row.

(** [self.faces]: a dict with exactly the keys of
    [INITIAL_FACE_COLOUR_MAPPING], in that order. *)
Record Faces := mkFaces {
  face_U : Grid; face_F : Grid; face_L : Grid;
  face_B : Grid; face_R : Grid; face_D : Grid }.

Record Cube := mkCube { size : Z; faces : Faces }.

Definition INITIAL_FACE_COLOUR_MAPPING : list (string * Colour) :=
  [("U", WHITE); ("F", GREEN); ("L", ORANGE); ("B", BLUE); ("R", RED); ("D", YELLOW)].

(** [faces[key]]: [KeyError] for any other key. *)
Definition faces_get (key : string) (fs : Faces) : res Grid :=
  if String.eqb key "U" then Ok (face_U fs)
  else if String.eqb key "F" then Ok (face_F fs)
  else if String.eqb key "L" then Ok (face_L fs)
  else if String.eqb key "B" then Ok (face_B fs)
  else if String.eqb key "R" then Ok (face_R fs)
  else if String.eqb key "D" then Ok (face_D fs)
  else Raise KeyError.

(** [faces[key] = g], only ever reached for one of the six keys. *)
Definition faces_set (key : string) (g : Grid) (fs : Faces) : Faces :=
  let '(mkFaces u f l b r d) := fs in
  if String.eqb key "U" then mkFaces g f l b r d
  else if String.eqb key "F" then mkFaces u g l b r d
  else if String.eqb key "L" then mkFaces u f g b r d
  else if String.eqb key "B" then mkFaces u f l g r d
  else if String.eqb key "R" then mkFaces u f l b g d
  else if String.eqb key "D" then mkFaces u f l b r g
  else fs.

(** [faces.values()] *)
Definition faces_values (fs : Faces) : list Grid :=
  [face_U fs; face_F fs; face_L fs; face_B fs; face_R fs; face_D fs].

(** [_generate_face] *)
Definition _generate_face (colour : Colour) (size : Z) : Grid :=
  repeat (repeat colour (Z.to_nat size)) (Z.to_nat size).

(** [Cube.__init__] *)
Definition new_Cube (size : Z) : Cube :=
  mkCube size
    (mkFaces (_generate_face WHITE size) (_generate_face GREEN size)
             (_generate_face ORANGE size) (_generate_face BLUE size)
             (_generate_face RED size) (_generate_face YELLOW size)).

(** Reads and writes of [self.faces]. *)
Definition face_grid (key : string) : M Cube Grid :=
  fun c => (faces_get key (faces c), c).

Definition set_face (key : string) (g : Grid) : M Cube unit :=
  fun c => (Ok tt, mkCube (size c) (faces_set key g (faces c))).

(** [self.faces[key][i]] *)
Definition face_row (key : string) (i : Z) : M Cube Row :=
  g <- face_grid key ;; lift (getitem g i).

(** [self.faces[key][i] = row] *)
Definition set_face_row (key : string) (i : Z) (row : Row) : M Cube unit :=
  g <- face_grid key ;; g' <- lift (setitem g i row) ;; set_face key g'.

(** [self.faces[key][i][j]] *)
Definition sticker_at (key : string) (i j : Z) : M Cube Colour :=
  row <- face_row key i ;; lift (getitem row j).

(** [_transpose] *)
Definition _transpose (l : Grid) : Grid := zip_star l.

(** [_face_rotate]: the columns of the grid read bottom-up. *)
Definition _face_rotate (key : string) : M Cube unit :=
  g <- face_grid key ;; set_face key (zip_star (rev g)).

(** A list comprehension over face names. *)
Fixpoint collect {A} (keys : list string) (f : string -> M Cube A) : M Cube (list A) :=
  match keys with
  | [] => ret []
  | k :: ks => x <- f k ;; xs <- collect ks f ;; ret (x :: xs)
  end.

(** The [F] branch of [_adjacent_face_swap].  [l[0]] and [l[2]] are the
    grids of [U] and [D] themselves, [l[1]] and [l[3]] fresh transposes. *)
Definition _adjacent_face_swap_F : M Cube unit :=
  l0 <- face_grid "U" ;;
  r_ <- face_grid "R" ;; let l1 := _transpose r_ in
  l2 <- face_grid "D" ;;
  l_ <- face_grid "L" ;; let l3 := _transpose l_ in
  r0 <- lift (getitem l0 (-1)) ;;
  row1 <- lift (getitem l1 0) ;; let r1 := rev row1 in
  r2 <- lift (getitem l2 0) ;;
  row3 <- lift (getitem l3 (-1)) ;; let r3 := rev row3 in
  let r := [r0; r1; r2; r3] in
  match (slice_from r (-1) ++ slice_to r (-1))%list with
  | [a; b; c; d] =>
      set_face_row "U" (-1) a ;;;
      l1 <- lift (setitem l1 0 b) ;;
      set_face_row "D" 0 c ;;;
      l3 <- lift (setitem l3 (-1) d) ;;
      row <- face_row "U" (-1) ;; set_face_row "U" (-1) row ;;;
      set_face "R" (_transpose l1) ;;;
      row <- face_row "D" 0 ;; set_face_row "D" 0 row ;;;
      set_face "L" (_transpose l3)
  | _ => raise ValueError
  end.

(** [_y_rotate] *)
Definition _y_rotate (double inverse : bool) : M Cube unit :=
  repeat_n (if double then 2 else if inverse then 3 else 1)%nat
    (l <- collect ["F"; "L"; "B"; "R"] face_grid ;;
     match (slice_from l (-1) ++ slice_to l (-1))%list with
     | [a; b; c; d] =>
         set_face "F" a ;;; set_face "L" b ;;; set_face "B" c ;;; set_face "R" d
     | _ => raise ValueError
     end ;;;
     _face_rotate "U" ;;;
     repeat_n 3 (_face_rotate "D")).

(** [_adjacent_face_swap]; any other face name falls through the chain. *)
Definition _adjacent_face_swap (key : string) : M Cube unit :=
  if String.eqb key "U" then
    l <- collect ["F"; "L"; "B"; "R"] (fun k => face_row k 0) ;;
    match (slice_from l (-1) ++ slice_to l (-1))%list with
    | [a; b; c; d] =>
        set_face_row "F" 0 a ;;; set_face_row "L" 0 b ;;;
        set_face_row "B" 0 c ;;; set_face_row "R" 0 d
    | _ => raise ValueError
    end
  else if String.eqb key "D" then
    l <- collect ["F"; "L"; "B"; "R"] (fun k => face_row k (-1)) ;;
    match (slice_from l 1 ++ slice_to l 1)%list with
    | [a; b; c; d] =>
        set_face_row "F" (-1) a ;;; set_face_row "L" (-1) b ;;;
        set_face_row "B" (-1) c ;;; set_face_row "R" (-1) d
    | _ => raise ValueError
    end
  else if String.eqb key "F" then _adjacent_face_swap_F
  else if String.eqb key "R" then
    _y_rotate false false ;;; _adjacent_face_swap_F ;;; _y_rotate false true
  else if String.eqb key "L" then
    _y_rotate false true ;;; _adjacent_face_swap_F ;;; _y_rotate false false
  else if String.eqb key "B" then
    _y_rotate true false ;;; _adjacent_face_swap_F ;;; _y_rotate true false
  else ret tt.

(** [_rotate] *)
Definition _rotate (move : Move) : M Cube unit :=
  repeat_n (if double move then 2 else if invert move then 3 else 1)%nat
    (_face_rotate (face move) ;;; _adjacent_face_swap (face move)).

(** The argument of [do_moves]: [Union[str, List[Move]]]. *)
Inductive moves_arg := Text (s : string) | MoveList (l : list Move).

Definition as_moves {S} (moves : moves_arg) : M S (list Move) :=
  match moves with
  | Text s => lift (scramble_to_moves s)
  | MoveList l => ret l
  end.

(** [Cube.do_moves] *)
Definition do_moves (moves : moves_arg) : M Cube unit :=
  moves <- as_moves moves ;;
  for_each moves (fun move =>
    if String.eqb (face move) "y" then _y_rotate false false
    else _rotate move).

(** [Cube.is_solved]: [any(piece_colour != face[0][0] for ...)] per row, with
    [return False] at the first row that has a differing sticker. *)
Fixpoint any_differs (row : Row) (g : Grid) : res bool :=
  match row with
  | [] => Ok false
  | piece_colour :: rest =>
      r0 <~ getitem g 0 ;;
      c0 <~ getitem r0 0 ;;
      if negb (Colour_eqb piece_colour c0) then Ok true else any_differs rest g
  end.

Fixpoint rows_uniform (rows : list Row) (g : Grid) : res bool :=
  match rows with
  | [] => Ok true
  | row :: rest =>
      d <~ any_differs row g ;;
      if d then Ok false else rows_uniform rest g
  end.

Fixpoint grids_uniform (gs : list Grid) : res bool :=
  match gs with
  | [] => Ok true
  | g :: rest =>
      u <~ rows_uniform g g ;;
      if u then grids_uniform rest else Ok false
  end.

Definition is_solved : M Cube bool :=
  fun c => (grids_uniform (faces_values (faces c)), c).

(** ** Pieces  (pieces.py) *)

(** [Edge] and [Corner] are dicts from face letter to colour. *)
Definition Piece := list (string * Colour).

Fixpoint dict_set {V} (d : list (string * V)) (k : string) (v : V) : list (string * V) :=
  match d with
  | [] => [(k, v)]
  | (k', v') :: d' => if String.eqb k' k then (k', v) :: d' else (k', v') :: dict_set d' k v
  end.

Fixpoint dict_get {V} (d : list (string * V)) (k : string) : res V :=
  match d with
  | [] => Raise KeyError
  | (k', v) :: d' => if String.eqb k' k then Ok v else dict_get d' k
  end.

Definition dict_mem {V} (d : list (string * V)) (k : string) : bool :=
  existsb (fun kv => String.eqb (fst kv) k) d.

Definition dict_keys {V} (d : list (string * V)) : list string := map fst d.
Definition dict_values {V} (d : list (string * V)) : list V := map snd d.

Definition EDGE_TO_UF : list (string * string) :=
  [("UF", "U2 U2"); ("UL", "U'"); ("UR", "U"); ("UB", "U2");
   ("LB", "L2 F"); ("LD", "L' F"); ("LF", "F");
   ("RB", "R2 F'"); ("RD", "R F'"); ("RF", "F'");
   ("DB", "D2 F2"); ("DF", "F2")].

Definition CORNER_TO_UFR : list (string * string) :=
  [("UFR", "U2 U2"); ("DFR", "R"); ("DBR", "R2"); ("URB", "U");
   ("ULF", "U'"); ("UBL", "U2"); ("DFL", "L' U'"); ("DBL", "L2 U'")].

(** [Cube.get_edge]: the inverted sequence is computed and dropped. *)
Definition get_edge (piece : string) : M Cube Piece :=
  alg <- lift (dict_get EDGE_TO_UF piece) ;;
  moves <- lift (scramble_to_moves alg) ;;
  do_moves (MoveList moves) ;;;
  k0 <- lift (str_getitem piece 0) ;; v0 <- sticker_at "U" (-1) 1 ;;
  k1 <- lift (str_getitem piece 1) ;; v1 <- sticker_at "F" 0 1 ;;
  let info := dict_set (dict_set [] k0 v0) k1 v1 in
  let _ := invert_moves moves in
  ret info.

(** [Cube.get_corner] *)
Definition get_corner (piece : string) : M Cube Piece :=
  alg <- lift (dict_get CORNER_TO_UFR piece) ;;
  moves <- lift (scramble_to_moves alg) ;;
  do_moves (MoveList moves) ;;;
  k0 <- lift (str_getitem piece 0) ;; v0 <- sticker_at "U" (-1) (-1) ;;
  k1 <- lift (str_getitem piece 1) ;; v1 <- sticker_at "F" 0 (-1) ;;
  k2 <- lift (str_getitem piece 2) ;; v2 <- sticker_at "R" 0 0 ;;
  let info := dict_set (dict_set (dict_set [] k0 v0) k1 v1) k2 v2 in
  let _ := invert_moves moves in
  ret info.

(** The two overridable lookups; [get_sticker] is inherited and calls the
    ones of the object it runs on. *)
Class PieceLookup (S : Type) := {
  lookup_edge : string -> M S Piece;
  lookup_corner : string -> M S Piece }.

(** [Cube.get_sticker] *)
Fixpoint get_sticker_loop {S} `{PieceLookup S} (sticker : string) (perms : list (list string))
  : M S Colour :=
  match perms with
  | [] => raise ValueError
  | perm :: rest =>
      let p := join "" perm in
      if dict_mem EDGE_TO_UF p then
        info <- lookup_edge p ;; k <- lift (str_getitem sticker 0) ;; lift (dict_get info k)
      else if dict_mem CORNER_TO_UFR p then
        info <- lookup_corner p ;; k <- lift (str_getitem sticker 0) ;; lift (dict_get info k)
      else get_sticker_loop sticker rest
  end.

Definition get_sticker {S} `{PieceLookup S} (sticker : string) : M S Colour :=
  get_sticker_loop sticker (permutations (chars sticker)).

#[export] Instance Cube_lookup : PieceLookup Cube :=
  {| lookup_edge := get_edge; lookup_corner := get_corner |}.

End Engine.

Export Engine.

(* ===================================================================== *)
(** * History tracking  (history_cube.py) *)
(* ===================================================================== *)

Module History.

(** [class HistoryCube(Cube)]: the inherited attributes and [_history]. *)
Record HistoryCube := mkHistoryCube { base : Cube; _history : list Move }.

(** A method of [Cube] run on a [HistoryCube]. *)
Definition super {A} (m : M Cube A) : M HistoryCube A :=
  fun h => let '(r, c) := m (base h) in (r, mkHistoryCube c (_history h)).

(** [HistoryCube.__init__]; a faces dict is never empty, hence truthy. *)
Definition new_HistoryCube (size : Z) (faces : option Faces) : HistoryCube :=
  let self := new_Cube size in
  mkHistoryCube
    (mkCube (Engine.size self)
            (match faces with Some fs => fs | None => Engine.faces self end))
    [].

(** [get_move_history] *)
Definition get_move_history : M HistoryCube (list Move) :=
  fun h => (Ok (_history h), h).

Definition history_append (move : Move) : M HistoryCube unit :=
  fun h => (Ok tt, mkHistoryCube (base h) (_history h ++ [move])).

(** [HistoryCube.do_moves] *)
Definition do_moves (moves : moves_arg) (save_history : bool) : M HistoryCube unit :=
  super (Engine.do_moves moves) ;;;
  moves <- as_moves moves ;;
  if save_history then for_each moves history_append else ret tt.

(** [HistoryCube.get_edge] *)
Definition get_edge (piece : string) : M HistoryCube Piece :=
  alg <- lift (dict_get EDGE_TO_UF piece) ;;
  moves <- lift (scramble_to_moves alg) ;;
  do_moves (MoveList moves) false ;;;
  k0 <- lift (str_getitem piece 0) ;; v0 <- super (sticker_at "U" (-1) 1) ;;
  k1 <- lift (str_getitem piece 1) ;; v1 <- super (sticker_at "F" 0 1) ;;
  let info := dict_set (dict_set [] k0 v0) k1 v1 in
  do_moves (MoveList (invert_moves moves)) false ;;;
  ret info.

(** [HistoryCube.get_corner] *)
Definition get_corner (piece : string) : M HistoryCube Piece :=
  alg <- lift (dict_get CORNER_TO_UFR piece) ;;
  moves <- lift (scramble_to_moves alg) ;;
  do_moves (MoveList moves) false ;;;
  k0 <- lift (str_getitem piece 0) ;; v0 <- super (sticker_at "U" (-1) (-1)) ;;
  k1 <- lift (str_getitem piece 1) ;; v1 <- super (sticker_at "F" 0 (-1)) ;;
  k2 <- lift (str_getitem piece 2) ;; v2 <- super (sticker_at "R" 0 0) ;;
  let info := dict_set (dict_set (dict_set [] k0 v0) k1 v1) k2 v2 in
  do_moves (MoveList (invert_moves moves)) false ;;;
  ret info.

#[export] Instance HistoryCube_lookup : PieceLookup HistoryCube :=
  {| lookup_edge := get_edge; lookup_corner := get_corner |}.

End History.

Export History.

(* ===================================================================== *)
(** * The layer-by-layer solver  (solver.py) *)
(* ===================================================================== *)

Module Solver.

(** [for x in xs: ... break]; the result tells whether the loop was left
    by [break] (the [else] clause of a [for] runs when it was not). *)
Fixpoint for_break {S A} (xs : list A) (body : A -> M S bool) : M S bool :=
  match xs with
  | [] => ret false
  | x :: xs' => b <- body x ;; if b then ret true else for_break xs' body
  end.

(** [while cond: body], with fuel. *)
Fixpoint while_ {S} (fuel : nat) (cond : M S bool) (body : M S unit) : M S unit :=
  match fuel with
  | O => out_of_fuel
  | S fuel' => b <- cond ;; if b then body ;;; while_ fuel' cond body else ret tt
  end.

Fixpoint colours_eqb (a b : list Colour) : bool :=
  match a, b with
  | [], [] => true
  | x :: a', y :: b' => Colour_eqb x y && colours_eqb a' b'
  | _, _ => false
  end.

Definition colour_in (c : Colour) (l : list Colour) : bool := existsb (Colour_eqb c) l.

Fixpoint bools_eqb (a b : list bool) : bool :=
  match a, b with
  | [], [] => true
  | x :: a', y :: b' => Bool.eqb x y && bools_eqb a' b'
  | _, _ => false
  end.

(** [cube.do_moves("...")] as the solver calls it: recorded. *)
Definition play (alg : string) : M HistoryCube unit := History.do_moves (Text alg) true.

Definition sticker (name : string) : M HistoryCube Colour := get_sticker name.

Definition CROSS_EDGES : list (string * string) :=
  [("UF", ""); ("UL", "U'"); ("UR", "U"); ("UB", "U2");
   ("LB", "L U' L'"); ("LD", "L2 U'"); ("LF", "L' U' L");
   ("RB", "R' U R"); ("RD", "R2 U"); ("RF", "R U R'");
   ("DB", "B2 U2"); ("DF", "F2")].

Definition solve_cross : M HistoryCube unit :=
  for_each [BLUE; ORANGE; GREEN; RED] (fun colour =>
    for_break (dict_keys CROSS_EDGES) (fun edge =>
      info <- History.get_edge edge ;;
      let cur_edge := dict_values info in
      if colours_eqb cur_edge [colour; YELLOW] || colours_eqb cur_edge [YELLOW; colour] then
        alg <- lift (dict_get CROSS_EDGES edge) ;;
        play alg ;;;
        uf <- History.get_edge "UF" ;;
        u <- lift (dict_get uf "U") ;;
        (if Colour_eqb u YELLOW then play "F2" else play "R U' R' F") ;;;
        play "D'" ;;;
        ret true
      else ret false) ;;;
    ret tt) ;;;
  play "D2".

Definition CORNERS : list (string * string) :=
  [("UFR", "U2 U2"); ("DFR", "R U R' U'"); ("DBR", "R' U R U"); ("URB", "U");
   ("ULF", "U'"); ("UBL", "U2"); ("DFL", "L' U' L"); ("DBL", "L U L' U")].

Definition solve_corners : M HistoryCube unit :=
  for_each [(GREEN, RED); (BLUE, RED); (BLUE, ORANGE); (GREEN, ORANGE)]
    (fun '(colour1, colour2) =>
      for_break (dict_keys CORNERS) (fun corner =>
        info <- History.get_corner corner ;;
        let cur_corner := dict_values info in
        if colour_in colour1 cur_corner && colour_in colour2 cur_corner
           && colour_in YELLOW cur_corner then
          alg <- lift (dict_get CORNERS corner) ;;
          play alg ;;;
          s1 <- sticker "UFR" ;;
          moves <- (if Colour_eqb s1 YELLOW then ret "U R U2 R' U R U' R'"
                    else s2 <- sticker "FUR" ;;
                         if Colour_eqb s2 YELLOW then ret "U R U' R'" else ret "R U R'") ;;
          play moves ;;;
          play "D'" ;;;
          ret true
        else ret false) ;;;
      ret tt).

Definition MIDDLE_EDGES : list (string * string) :=
  [("UF", "U2 U2"); ("UR", "U"); ("UL", "U'"); ("UB", "U2");
   ("RF", "R' F R F' R U R' U'"); ("LF", "L F' L' F L' U' L U");
   ("RB", "R' U R B' R B R'"); ("LB", "L U' L' B L' B' L")].

Definition solve_middle_edges : M HistoryCube unit :=
  for_each [(GREEN, RED); (RED, BLUE); (BLUE, ORANGE); (ORANGE, GREEN)]
    (fun '(colour1, colour2) =>
      for_break (dict_keys MIDDLE_EDGES) (fun edge =>
        info <- History.get_edge edge ;;
        let cur_edge := dict_values info in
        if colours_eqb cur_edge [colour1; colour2] || colours_eqb cur_edge [colour2; colour1] then
          alg <- lift (dict_get MIDDLE_EDGES edge) ;;
          play alg ;;;
          s <- sticker "FU" ;;
          let moves := if Colour_eqb s colour1 then "U R U' R' F R' F' R"
                       else "U2 R' F R F' R U R'" in
          play moves ;;;
          play "y" ;;;
          ret true
        else ret false) ;;;
      ret tt).

Definition is_white (c : Colour) : bool := Colour_eqb c WHITE.

Definition solve_eoll : M HistoryCube unit :=
  for_break (seq 0 4) (fun _ =>
    ub <- sticker "UB" ;; ur <- sticker "UR" ;; uf <- sticker "UF" ;; ul <- sticker "UL" ;;
    let top_layer := [ub; ur; uf; ul] in
    let eo_state := map is_white top_layer in
    if bools_eqb eo_state [false; false; false; false] then
      play "R U2 R2 F R F' U2 R' F R F'" ;;; ret true
    else if bools_eqb eo_state [false; false; true; true] then
      play "U F U R U' R' F''" ;;; ret true
    else if bools_eqb eo_state [false; true; false; true] then
      play "F R U R' U' F'" ;;; ret true
    else play "U" ;;; ret false) ;;;
  ret tt.

Definition OCLLS : list (string * string) :=
  [("S", "R U R' U R U2 R' U");
   ("AS", "U R' U' R U' R' U2 R");
   ("H", "F R U R' U' R U R' U' R U R' U' F'");
   ("Headlights", "R2 D' R U2 R' D R U2 R");
   ("Sidebars", "U' L F R' F' L' F R F'");
   ("Fish", "R' U2 R' D' R U2 R' D R2");
   ("Pi", "U R U2 R2 U' R2 U' R2 U2 R")].

Definition play_ocll (name : string) : M HistoryCube unit :=
  alg <- lift (dict_get OCLLS name) ;; play alg.

Definition get_top_layer_corners : M HistoryCube (list Colour) :=
  a <- sticker "UBL" ;; b <- sticker "UBR" ;; c <- sticker "UFR" ;; d <- sticker "UFL" ;;
  ret [a; b; c; d].

Definition get_co_state (top_layer : list Colour) : list bool := map is_white top_layer.

Definition solve_ocll (fuel : nat) : M HistoryCube unit :=
  for_break (seq 0 4) (fun _ =>
    top <- get_top_layer_corners ;;
    let co_state := get_co_state top in
    if bools_eqb co_state [false; false; false; false] then
      while_ fuel
        (a <- sticker "FUR" ;;
         if negb (Colour_eqb a WHITE) then ret true
         else b <- sticker "FUL" ;; ret (negb (Colour_eqb b WHITE)))
        (play "U") ;;;
      ufr <- History.get_corner "UFR" ;; x <- lift (dict_get ufr "F") ;;
      ubl <- History.get_corner "UBL" ;; y <- lift (dict_get ubl "B") ;;
      (if Colour_eqb x y then play_ocll "H" else play_ocll "Pi") ;;;
      ret true
    else if bools_eqb co_state [false; false; false; true] then
      a <- sticker "FUR" ;;
      (if Colour_eqb a WHITE then play_ocll "S" else play_ocll "AS") ;;;
      ret true
    else if bools_eqb co_state [false; false; true; true] then
      a <- sticker "BRU" ;;
      (if Colour_eqb a WHITE then play_ocll "Headlights" else play_ocll "Sidebars") ;;;
      ret true
    else if bools_eqb co_state [false; true; false; true] then
      a <- sticker "RUF" ;;
      (if negb (Colour_eqb a WHITE) then play "U2" else ret tt) ;;;
      play_ocll "Fish" ;;;
      ret true
    else play "U" ;;; ret false) ;;;
  ret tt.

Definition solve_cpll : M HistoryCube unit :=
  let alg := "R' U L' U2 R U' R' U2 R L " in
  broke <- for_break (seq 0 4) (fun _ =>
    a <- sticker "FUR" ;; b <- sticker "FUL" ;;
    done <- (if Colour_eqb a b then
               c <- sticker "BLU" ;; d <- sticker "BRU" ;; ret (Colour_eqb c d)
             else ret false) ;;
    if done then ret true
    else
      e <- sticker "FRU" ;; f <- sticker "FLU" ;;
      if Colour_eqb e f then play alg ;;; ret true
      else play "U" ;;; ret false) ;;
  if broke then ret tt else play (alg ++ " U " ++ alg).

Definition front_edge_matches_corner : M HistoryCube bool :=
  a <- sticker "FU" ;; b <- sticker "FUR" ;; ret (Colour_eqb a b).

Fixpoint count_solved_edges (n : nat) (solved_edges : Z) : M HistoryCube Z :=
  match n with
  | O => ret solved_edges
  | S n' =>
      m <- front_edge_matches_corner ;;
      let solved_edges := if m then solved_edges + 1 else solved_edges in
      play "U" ;;;
      count_solved_edges n' solved_edges
  end.

Definition solve_epll (fuel : nat) : M HistoryCube unit :=
  solved_edges <- count_solved_edges 4 0 ;;
  (if negb (solved_edges =? 4) then
     (if solved_edges =? 0 then play "R U' R U R U R U' R' U' R2" else ret tt) ;;;
     while_ fuel (m <- front_edge_matches_corner ;; ret (negb m)) (play "U") ;;;
     play "U2" ;;;
     while_ fuel (m <- front_edge_matches_corner ;; ret (negb m))
       (play "R U' R U R U R U' R' U' R2")
   else ret tt) ;;;
  while_ fuel (a <- sticker "FU" ;; b <- sticker "FR" ;; ret (negb (Colour_eqb a b)))
    (play "U").

(** The seven stages of [generate_solution], in order, on [cube_copy]. *)
Definition solve_stages (fuel : nat) : M HistoryCube unit :=
  solve_cross ;;;
  solve_corners ;;;
  solve_middle_edges ;;;
  solve_eoll ;;;
  solve_ocll fuel ;;;
  solve_cpll ;;;
  solve_epll fuel.

(** The value returned for a finished [cube_copy]. *)
Definition solution_text (history : list Move) : res (list Move) :=
  cleaned <~ clean_moves (moves_to_scramble history) ;;
  scramble_to_moves cleaned.

End Solver.

Export Solver.

(* ===================================================================== *)
(** * Objects and sharing  (generate_solution) *)
(* ===================================================================== *)

Module Objects.

(** [generate_solution] receives a reference to the caller's cube.  What a
    callee could change through it is the dict [cube.faces] and the grids
    that dict owns; every grid belongs to one dict only (the constructor and
    [deepcopy] build fresh ones, moves only permute or replace them) and rows
    are never updated cell by cell, so a faces dict with its grids is the
    unit of sharing: the store maps the address of a dict to its content. *)
Definition loc := positive.

(** A [Cube] object: [size] and the address held by its attribute [faces]. *)
Record CubeObj := mkCubeObj { obj_size : Z; obj_faces : loc }.

(** [deepcopy(cube.faces)]: a new dict, equal in content, at a new address. *)
Definition deepcopy (l : loc) : M (gmap loc Faces) loc :=
  fun store =>
    match store !! l with
    | Some fs => let l' := fresh (dom store) in (Ok l', <[l' := fs]> store)
    | None => (Raise KeyError, store)
    end.

(** [HistoryCube(size, faces)] keeps the dict it is given ([self.faces =
    faces]): while [m] runs on the new object, its writes land at [l]. *)
Definition with_HistoryCube {A} (size : Z) (l : loc) (m : M HistoryCube A)
  : M (gmap loc Faces) A :=
  fun store =>
    match store !! l with
    | Some fs =>
        let '(r, h) := m (new_HistoryCube size (Some fs)) in
        (r, <[l := faces (base h)]> store)
    | None => (Raise KeyError, store)
    end.

(** [generate_solution]; the [print] calls have no effect on any object. *)
Definition generate_solution (fuel : nat) (cube : CubeObj) : M (gmap loc Faces) (list Move) :=
  copied <- deepcopy (obj_faces cube) ;;
  history <- with_HistoryCube (obj_size cube) copied
               (solve_stages fuel ;;; get_move_history) ;;
  lift (solution_text history).

(** The same call on a cube given by value: the result, and nothing else. *)
Definition solve (fuel : nat) (c : Cube) : res (list Move) :=
  match (solve_stages fuel ;;; get_move_history)
          (new_HistoryCube (size c) (Some (faces c))) with
  | (Ok history, _) => solution_text history
  | (Raise e, _) => Raise e
  | (OutOfFuel, _) => OutOfFuel
  end.

End Objects.

Export Objects.

(* ===================================================================== *)
(** * Vocabulary of the properties *)
(* ===================================================================== *)

Module Spec.

(** [FACE] of the text grammar. *)
Definition FACE_LETTERS : list string := ["U"; "D"; "L"; "R"; "F"; "B"].

(** [token = FACE [ ' | 2 ]] *)
Definition well_formed_token (t : string) : Prop :=
  exists f, In f FACE_LETTERS /\ (t = f \/ t = f ++ "'" \/ t = f ++ "2").

(** A text all of whose whitespace-separated tokens follow the grammar. *)
Definition well_formed_text (s : string) : Prop :=
  Forall well_formed_token (split s).

(** What [split] produces: non-empty strings without whitespace. *)
Definition token_ok (t : string) : Prop :=
  t <> "" /\ forallb (fun c => negb (isspace c)) (list_ascii_of_string t) = true.

(** The [Move] that [scramble_to_moves] builds from a token: the face is the
    first character, whatever it is. *)
Definition first_letter_of (t : string) : string :=
  match t with
  | EmptyString => EmptyString
  | String c _ => String c EmptyString
  end.

Definition parsed_token (t : string) : Move :=
  mkMove (first_letter_of t) (str_in "'" t) (str_in "2" t).

(** The tokens of [s] separated by single spaces. *)
Definition whitespace_normalized (s : string) : string := join " " (split s).

(** A move of one of the six physical faces, and a move [do_moves] accepts. *)
Definition face_move (m : Move) : Prop := In (face m) FACE_LETTERS.
Definition known_move (m : Move) : Prop := In (face m) ("y" :: FACE_LETTERS).

(** One quarter turn of a face, the body of the loop of [_rotate]. *)
Definition quarter_turn (key : string) : M Cube unit :=
  _face_rotate key ;;; _adjacent_face_swap key.

(** A size-3 cube: six grids of three rows of three stickers. *)
Definition grid_3x3 (g : Grid) : Prop :=
  List.length g = 3%nat /\ Forall (fun row : Row => List.length row = 3%nat) g.

Definition well_formed (c : Cube) : Prop :=
  Forall grid_3x3 (faces_values (faces c)).

(** The 54 stickers, face by face. *)
Definition stickers (c : Cube) : list Colour :=
  concat (concat (faces_values (faces c))).

Definition Colour_eq_dec (a b : Colour) : {a = b} + {a <> b}.
Proof. decide equality. Defined.

Definition count_colour (col : Colour) (c : Cube) : nat :=
  count_occ Colour_eq_dec (stickers c) col.

(** The attribute [size] replaced, the faces kept. *)
Definition resize (z : Z) (c : Cube) : Cube := mkCube z (faces c).

Definition resize_history (z : Z) (h : HistoryCube) : HistoryCube :=
  mkHistoryCube (resize z (base h)) (_history h).

(** A method that neither reads nor writes what [rz] changes. *)
Definition blind {P S A} (rz : P -> S -> S) (m : M S A) : Prop :=
  forall z s, m (rz z s) = (fst (m s), rz z (snd (m s))).

(** The states a solved size-3 cube reaches by face turns. *)
Definition reachable (c : Cube) : Prop :=
  exists ms, Forall face_move ms
             /\ Engine.do_moves (MoveList ms) (new_Cube 3) = (Ok tt, c).

End Spec.

Export Spec.

(* ===================================================================== *)
(** * Cubies: the pieces behind the stickers *)
(* ===================================================================== *)

Module Cubies.

(** The sticker at row [i], column [j] of a grid. *)
Definition peek (g : Grid) (i j : nat) : Colour := nth j (nth i g []) WHITE.

(** The twelve edge slots, each read as (first facelet, second facelet); the
    first facelet is the one on U or D, and on F or B in the middle layer. *)
Definition edge_views (fs : Faces) : list (Colour * Colour) :=
  let '(mkFaces u f l b r d) := fs in
  [ (peek u 2 1, peek f 0 1); (peek u 1 2, peek r 0 1);
    (peek u 0 1, peek b 0 1); (peek u 1 0, peek l 0 1);
    (peek d 0 1, peek f 2 1); (peek d 1 2, peek r 2 1);
    (peek d 2 1, peek b 2 1); (peek d 1 0, peek l 2 1);
    (peek f 1 2, peek r 1 0); (peek f 1 0, peek l 1 2);
    (peek b 1 0, peek r 1 2); (peek b 1 2, peek l 1 0) ].

(** The eight corner slots: the facelet on U or D first, then clockwise. *)
Definition corner_views (fs : Faces) : list (Colour * Colour * Colour) :=
  let '(mkFaces u f l b r d) := fs in
  [ (peek u 2 2, peek r 0 0, peek f 0 2); (peek u 2 0, peek f 0 0, peek l 0 2);
    (peek u 0 0, peek l 0 0, peek b 0 2); (peek u 0 2, peek b 0 0, peek r 0 2);
    (peek d 0 2, peek f 2 2, peek r 2 0); (peek d 0 0, peek l 2 2, peek f 2 0);
    (peek d 2 0, peek b 2 2, peek l 2 0); (peek d 2 2, peek r 2 2, peek b 2 0) ].

Definition centres (fs : Faces) : list Colour :=
  let '(mkFaces u f l b r d) := fs in
  [peek u 1 1; peek f 1 1; peek l 1 1; peek b 1 1; peek r 1 1; peek d 1 1].

Definition edge_eqb (v w : Colour * Colour) : bool :=
  Colour_eqb (fst v) (fst w) && Colour_eqb (snd v) (snd w).

Definition corner_eqb (v w : Colour * Colour * Colour) : bool :=
  Colour_eqb (fst (fst v)) (fst (fst w)) && Colour_eqb (snd (fst v)) (snd (fst w))
  && Colour_eqb (snd v) (snd w).

Fixpoint index_of {A} (eqb : A -> A -> bool) (x : A) (l : list A) : option nat :=
  match l with
  | [] => None
  | y :: t => if eqb x y then Some O else option_map S (index_of eqb x t)
  end.

(** The pieces, named by the slot they fill on the solved cube. *)
Definition edge_home : list (Colour * Colour) :=
  Eval vm_compute in edge_views (faces (new_Cube 3)).
Definition corner_home : list (Colour * Colour * Colour) :=
  Eval vm_compute in corner_views (faces (new_Cube 3)).

(** Which edge shows [v], and whether it is flipped. *)
Definition decode_edge (v : Colour * Colour) : option (nat * bool) :=
  match index_of edge_eqb v edge_home with
  | Some i => Some (i, false)
  | None =>
      match index_of edge_eqb (snd v, fst v) edge_home with
      | Some i => Some (i, true)
      | None => None
      end
  end.

(** Which corner shows [v], and on which facelet its U or D colour sits. *)
Definition decode_corner (v : Colour * Colour * Colour) : option (nat * nat) :=
  let '(a, b, c) := v in
  match index_of corner_eqb (a, b, c) corner_home with
  | Some i => Some (i, 0%nat)
  | None =>
      match index_of corner_eqb (b, c, a) corner_home with
      | Some i => Some (i, 1%nat)
      | None =>
          match index_of corner_eqb (c, a, b) corner_home with
          | Some i => Some (i, 2%nat)
          | None => None
          end
      end
  end.

Fixpoint all_some {A} (l : list (option A)) : option (list A) :=
  match l with
  | [] => Some []
  | Some a :: t => option_map (cons a) (all_some t)
  | None :: _ => None
  end.

Definition cubie_edges (fs : Faces) : option (list (nat * bool)) :=
  all_some (map decode_edge (edge_views fs)).
Definition cubie_corners (fs : Faces) : option (list (nat * nat)) :=
  all_some (map decode_corner (corner_views fs)).

Definition flip_parity (l : list bool) : bool := fold_right xorb false l.
Definition twist_sum (l : list nat) : nat := fold_right Nat.add 0%nat l.

(** Parity of a list of distinct numbers, by counting inversions. *)
Definition count_lt (x : nat) (l : list nat) : nat :=
  List.length (List.filter (fun y => Nat.ltb y x) l).
Fixpoint inversions (l : list nat) : nat :=
  match l with
  | [] => 0%nat
  | x :: t => (count_lt x t + inversions t)%nat
  end.
Definition perm_odd (l : list nat) : bool := Nat.odd (inversions l).

Fixpoint swap_at (i : nat) (l : list nat) : list nat :=
  match i, l with
  | O, a :: b :: t => b :: a :: t
  | S i', a :: t => a :: swap_at i' t
  | _, _ => l
  end.
Definition apply_swaps (sw : list nat) (l : list nat) : list nat :=
  fold_left (fun l i => swap_at i l) sw l.

(** The states a physical cube can be in, held with white up and green in front. *)
Definition Valid (c : Cube) : Prop :=
  well_formed c
  /\ centres (faces c) = [WHITE; GREEN; ORANGE; BLUE; RED; YELLOW]
  /\ exists es cs,
       cubie_edges (faces c) = Some es
       /\ cubie_corners (faces c) = Some cs
       /\ List.NoDup (map fst es) /\ List.NoDup (map fst cs)
       /\ flip_parity (map snd es) = false
       /\ (twist_sum (map snd cs) mod 3 = 0)%nat
       /\ perm_odd (map fst es) = perm_odd (map fst cs).

End Cubies.
Export Cubies.

(* ===================================================================== *)
(** * Holding the cube differently *)
(* ===================================================================== *)

Module Frames.

(** [t] whole-cube reorientations in a row. *)
Definition y_turns (t : nat) : M Cube unit := repeat_n t (_y_rotate false false).

(** A valid cube held with any of the four side faces in front. *)
Definition Valid_y (c : Cube) : Prop :=
  well_formed c
  /\ exists t c0, (t < 4)%nat /\ y_turns t c = (Ok tt, c0) /\ Valid c0.

(** The name, after one reorientation, of the face called [key] before. *)
Definition turned (key : string) : string :=
  if String.eqb key "F" then "L"
  else if String.eqb key "L" then "B"
  else if String.eqb key "B" then "R"
  else if String.eqb key "R" then "F"
  else key.

(** An edge view that shows the two colours [a] and [b], either way round. *)
Definition shows_edge (a b : Colour) (v : Colour * Colour) : bool :=
  edge_eqb v (a, b) || edge_eqb v (b, a).

(** A corner view that shows the three colours of [w], in the same cyclic order. *)
Definition shows_corner (w v : Colour * Colour * Colour) : bool :=
  let '(a, b, c) := v in
  corner_eqb (a, b, c) w || corner_eqb (b, c, a) w || corner_eqb (c, a, b) w.

End Frames.
Export Frames.

(* ===================================================================== *)
(** * Vocabulary for the solver stages *)
(* ===================================================================== *)

Module Stages.

(** The same cube with the moves [p] recorded before its own. *)
Definition prefix_history (p : list Move) (h : HistoryCube) : HistoryCube :=
  mkHistoryCube (base h) (p ++ _history h)%list.

Definition y_move (m : Move) : bool := String.eqb (face m) "y".

(** The moves the solver records: a face turn with at most one flag, or a bare [y]. *)
Definition plain_move (m : Move) : bool :=
  (existsb (String.eqb (face m)) FACE_LETTERS && negb (invert m && double m))
  || Move_eqb m (mkMove "y" false false).

Fixpoint y_apart (ms : list Move) : bool :=
  match ms with
  | [] => true
  | a :: rest =>
      match rest with
      | b :: _ => negb (y_move a && y_move b)
      | [] => true
      end && y_apart rest
  end.

(** Plain moves, never two [y] in a row, and no [y] in front. *)
Definition tidy (ms : list Move) : bool :=
  forallb plain_move ms && y_apart ms
  && match ms with m :: _ => negb (y_move m) | [] => true end.

(** [m], started on cube [c] with an empty history, ends normally in [c'],
    having recorded [ms]; and [ms] replayed on [c] gives [c'] again. *)
Definition runs (m : M HistoryCube unit) (c : Cube) (ms : list Move) (c' : Cube) : Prop :=
  m (mkHistoryCube c []) = (Ok tt, mkHistoryCube c' ms)
  /\ Engine.do_moves (MoveList ms) c = (Ok tt, c')
  /\ tidy ms = true.

(** The loop [for x in xs: if test(query(x)): act(x); break]. *)
Definition scan {S A B} (xs : list A) (query : A -> M S B) (test : B -> bool)
           (act : A -> M S bool) : M S bool :=
  for_break xs (fun y => b <- query y ;; if test b then act y else ret false).

Definition edge_seen (h : HistoryCube) (edge : string) : Piece :=
  match History.get_edge edge h with (Ok info, _) => info | _ => [] end.

Definition corner_seen (h : HistoryCube) (corner : string) : Piece :=
  match History.get_corner corner h with (Ok info, _) => info | _ => [] end.

Definition pair_test (a b : Colour) (info : Piece) : bool :=
  let cur_edge := dict_values info in
  colours_eqb cur_edge [a; b] || colours_eqb cur_edge [b; a].

Definition triple_test (a b : Colour) (info : Piece) : bool :=
  let cur_corner := dict_values info in
  colour_in a cur_corner && colour_in b cur_corner && colour_in YELLOW cur_corner.

(** The stickers of slot [i], and the stickers of the centres and of the
    chosen slots in a row. *)
Definition edge_stickers (fs : Faces) (i : nat) : list Colour :=
  match nth_error (edge_views fs) i with Some (a, b) => [a; b] | None => [] end.

Definition corner_stickers (fs : Faces) (i : nat) : list Colour :=
  match nth_error (corner_views fs) i with Some (a, b, c) => [a; b; c] | None => [] end.

Definition layout (es cs : list nat) (fs : Faces) : list Colour :=
  (centres fs ++ flat_map (edge_stickers fs) es ++ flat_map (corner_stickers fs) cs)%list.

(** The centres and the slots [es], [cs] look as on the solved cube. *)
Definition home (es cs : list nat) (fs : Faces) : bool :=
  colours_eqb (layout es cs fs) (layout es cs (faces (new_Cube 3))).

(** ... once the moves [rest] have been made. *)
Definition home_after (rest : string) (es cs : list nat) (c : Cube) : bool :=
  match Engine.do_moves (Text rest) c with
  | (Ok _, c') => home es cs (faces c')
  | _ => false
  end.

(** *** Cross *)
Definition cross_act (edge : string) : M HistoryCube bool :=
  alg <- lift (dict_get CROSS_EDGES edge) ;;
  play alg ;;;
  uf <- History.get_edge "UF" ;;
  u <- lift (dict_get uf "U") ;;
  (if Colour_eqb u YELLOW then play "F2" else play "R U' R' F") ;;;
  play "D'" ;;;
  ret true.

Definition cross_iteration (colour : Colour) : M HistoryCube unit :=
  scan (dict_keys CROSS_EDGES) History.get_edge (pair_test colour YELLOW) cross_act ;;;
  ret tt.

(** Each colour of the cross with what holds before and after its turn. *)
Definition cross_plan : list (Colour * (string * list nat) * (string * list nat)) :=
  [ (BLUE, ("", []), ("D' D' D' D2", [6]));
    (ORANGE, ("D' D' D' D2", [6]), ("D' D' D2", [6; 7]));
    (GREEN, ("D' D' D2", [6; 7]), ("D' D2", [6; 7; 4]));
    (RED, ("D' D2", [6; 7; 4]), ("D2", [6; 7; 4; 5])) ]%nat.

End Stages.
Export Stages.

(* ===================================================================== *)
(** * The first two layers, step by step *)
(* ===================================================================== *)

Module Stages2.

(** *** First-layer corners *)
Definition corner_act (corner : string) : M HistoryCube bool :=
  alg <- lift (dict_get CORNERS corner) ;;
  play alg ;;;
  s1 <- sticker "UFR" ;;
  moves <- (if Colour_eqb s1 YELLOW then ret "U R U2 R' U R U' R'"
            else s2 <- sticker "FUR" ;;
                 if Colour_eqb s2 YELLOW then ret "U R U' R'" else ret "R U R'") ;;
  play moves ;;;
  play "D'" ;;;
  ret true.

Definition corner_iteration (colours : Colour * Colour) : M HistoryCube unit :=
  let '(colour1, colour2) := colours in
  scan (dict_keys CORNERS) History.get_corner (triple_test colour1 colour2) corner_act ;;;
  ret tt.

Definition valid_corner (v : Colour * Colour * Colour) : bool :=
  match decode_corner v with Some _ => true | None => false end.

(** The two side colours searched for, the corner as it shows at home, and
    what holds before and after its turn. *)
Definition corner_plan
  : list (Colour * Colour * (Colour * Colour * Colour)
          * (string * list nat) * (string * list nat)) :=
  [ (GREEN, RED, (YELLOW, GREEN, RED), ("", []), ("D' D' D'", [4]));
    (BLUE, RED, (YELLOW, RED, BLUE), ("D' D' D'", [4]), ("D' D'", [4; 7]));
    (BLUE, ORANGE, (YELLOW, BLUE, ORANGE), ("D' D'", [4; 7]), ("D'", [4; 6; 7]));
    (GREEN, ORANGE, (YELLOW, ORANGE, GREEN), ("D'", [4; 6; 7]), ("", [4; 5; 6; 7])) ]%nat.

(** *** Middle-layer edges *)
Definition middle_act (colour1 : Colour) (edge : string) : M HistoryCube bool :=
  alg <- lift (dict_get MIDDLE_EDGES edge) ;;
  play alg ;;;
  s <- sticker "FU" ;;
  let moves := if Colour_eqb s colour1 then "U R U' R' F R' F' R"
               else "U2 R' F R F' R U R'" in
  play moves ;;;
  play "y" ;;;
  ret true.

Definition middle_iteration (colours : Colour * Colour) : M HistoryCube unit :=
  let '(colour1, colour2) := colours in
  scan (dict_keys MIDDLE_EDGES) History.get_edge (pair_test colour1 colour2)
    (middle_act colour1) ;;;
  ret tt.

Definition middle_plan
  : list (Colour * Colour * (string * list nat) * (string * list nat)) :=
  [ (GREEN, RED, ("", [4; 5; 6; 7]), ("y y y", [4; 5; 6; 7; 8]));
    (RED, BLUE, ("y y y", [4; 5; 6; 7; 8]), ("y y", [4; 5; 6; 7; 8; 10]));
    (BLUE, ORANGE, ("y y", [4; 5; 6; 7; 8; 10]), ("y", [4; 5; 6; 7; 8; 10; 11]));
    (ORANGE, GREEN, ("y", [4; 5; 6; 7; 8; 10; 11]), ("", [4; 5; 6; 7; 8; 9; 10; 11])) ]%nat.

End Stages2.
Export Stages2.

(* ===================================================================== *)
(** * The last layer *)
(* ===================================================================== *)

Module LastLayer.

(** The ways an edge of the last layer can show in a slot: the view, the
    piece and whether it is flipped; likewise for corners, with the twist. *)
Definition u_edge_table : list (Colour * Colour * nat * bool) :=
  Eval vm_compute in
    flat_map (fun p => let '(a, b) := nth p edge_home (WHITE, WHITE) in
                       [(a, b, p, false); (b, a, p, true)]) [0; 1; 2; 3]%nat.

Definition u_corner_table : list (Colour * Colour * Colour * nat * nat) :=
  Eval vm_compute in
    flat_map (fun p => let '(a, b, c) := nth p corner_home (WHITE, WHITE, WHITE) in
                       [(a, b, c, p, 0); (c, a, b, p, 1); (b, c, a, p, 2)]%nat)
      [0; 1; 2; 3]%nat.

(** Four pieces of the last layer, all different. *)
Definition low4 (a b c d : nat) : Prop :=
  (a < 4 /\ b < 4 /\ c < 4 /\ d < 4
   /\ a <> b /\ a <> c /\ a <> d /\ b <> c /\ b <> d /\ c <> d)%nat.

(** The first two layers are solved. *)
Definition f2l (c : Cube) : bool :=
  home_after "" [4; 5; 6; 7; 8; 9; 10; 11]%nat [4; 5; 6; 7]%nat c.

Definition top_edges (fs : Faces) : list Colour := map fst (firstn 4 (edge_views fs)).
Definition top_corners (fs : Faces) : list Colour :=
  map (fun v => fst (fst v)) (firstn 4 (corner_views fs)).

(** ... and the edges of the last layer show white on top; *)
Definition eo_done (c : Cube) : bool :=
  f2l c && colours_eqb (top_edges (faces c)) [WHITE; WHITE; WHITE; WHITE].

(** ... and its corners too; *)
Definition oll_done (c : Cube) : bool :=
  eo_done c && colours_eqb (top_corners (faces c)) [WHITE; WHITE; WHITE; WHITE].

(** ... and some turn of the top face brings the four corners home. *)
Definition cp_done (c : Cube) : bool :=
  oll_done c
  && existsb (fun rest => home_after rest [] [0; 1; 2; 3]%nat c) [""; "U"; "U U"; "U U U"].

End LastLayer.
Export LastLayer.

(* ===================================================================== *)
(** * Recorded moves replay *)
(* ===================================================================== *)

Module Replay.

(** Every token of [s] names a face or is a [y]. *)
Definition known_text (s : string) : bool :=
  forallb (fun m => existsb (String.eqb (face m)) ("y" :: FACE_LETTERS))
    (map parsed_token (split s)).

(** Whatever [m] does to a size-3 cube, the moves it adds to the history are
    the moves it made: replayed on the cube it started from, they give the
    cube it ends with. [P] holds of the value [m] returns. *)
Definition replays {A} (P : A -> Prop) (m : M HistoryCube A) : Prop :=
  forall h, well_formed (base h) ->
    exists ms,
      _history (snd (m h)) = (_history h ++ ms)%list
      /\ Engine.do_moves (MoveList ms) (base h) = (Ok tt, base (snd (m h)))
      /\ well_formed (base (snd (m h)))
      /\ forall a, fst (m h) = Ok a -> P a.

End Replay.
Export Replay.

(* ===================================================================== *)
(** * The cases of the last layer *)
(* ===================================================================== *)

Module LastLayerCases.

(** The cube with two solved layers whose last layer shows the edge views
    [e] and the corner views [k], slot by slot. *)
Definition ll_cube (sz : Z) (e : list (Colour * Colour)) (k : list (Colour * Colour * Colour))
  : Cube :=
  match e, k with
  | [(e0u, e0s); (e1u, e1s); (e2u, e2s); (e3u, e3s)],
    [(k0u, k0a, k0b); (k1u, k1a, k1b); (k2u, k2a, k2b); (k3u, k3a, k3b)] =>
      mkCube sz
        (mkFaces
           [[k2u; e2u; k3u]; [e3u; WHITE; e1u]; [k1u; e0u; k0u]]
           [[k1a; e0s; k0b]; [GREEN; GREEN; GREEN]; [GREEN; GREEN; GREEN]]
           [[k2a; e3s; k1b]; [ORANGE; ORANGE; ORANGE]; [ORANGE; ORANGE; ORANGE]]
           [[k3a; e2s; k2b]; [BLUE; BLUE; BLUE]; [BLUE; BLUE; BLUE]]
           [[k0a; e1s; k3b]; [RED; RED; RED]; [RED; RED; RED]]
           [[YELLOW; YELLOW; YELLOW]; [YELLOW; YELLOW; YELLOW]; [YELLOW; YELLOW; YELLOW]])
  | _, _ => new_Cube sz
  end.

Definition quads {A} (l : list A) : list (list A) :=
  flat_map (fun a =>
    flat_map (fun b =>
      flat_map (fun c => map (fun d => [a; b; c; d]) l) l) l) l.

Definition u_edge_views : list (Colour * Colour) :=
  map (fun r => (fst (fst (fst r)), snd (fst (fst r)))) u_edge_table.

Definition u_corner_views : list (Colour * Colour * Colour) :=
  map (fun r => fst (fst r)) u_corner_table.

Definition low4b (a b c d : nat) : bool :=
  (a <? 4)%nat && (b <? 4)%nat && (c <? 4)%nat && (d <? 4)%nat
  && negb (a =? b)%nat && negb (a =? c)%nat && negb (a =? d)%nat
  && negb (b =? c)%nat && negb (b =? d)%nat && negb (c =? d)%nat.

(** Four different edges of the last layer, an even number of them flipped. *)
Definition edges_ok (e : list (Colour * Colour)) : bool :=
  match map decode_edge e with
  | [Some (p0, o0); Some (p1, o1); Some (p2, o2); Some (p3, o3)] =>
      low4b p0 p1 p2 p3
      && negb (flip_parity [o0; o1; o2; o3; false; false; false; false;
                            false; false; false; false])
  | _ => false
  end.

(** Four different corners of the last layer, their twists adding up to a
    multiple of three. *)
Definition corners_ok (k : list (Colour * Colour * Colour)) : bool :=
  match map decode_corner k with
  | [Some (q0, t0); Some (q1, t1); Some (q2, t2); Some (q3, t3)] =>
      low4b q0 q1 q2 q3
      && (twist_sum [t0; t1; t2; t3; 0; 0; 0; 0] mod 3 =? 0)%nat
  | _ => false
  end.

(** Edges and corners are permuted with the same parity. *)
Definition parity_ok (e : list (Colour * Colour)) (k : list (Colour * Colour * Colour))
  : bool :=
  match map decode_edge e, map decode_corner k with
  | [Some (p0, _); Some (p1, _); Some (p2, _); Some (p3, _)],
    [Some (q0, _); Some (q1, _); Some (q2, _); Some (q3, _)] =>
      Bool.eqb (perm_odd [p0; p1; p2; p3; 4; 5; 6; 7; 8; 9; 10; 11]%nat)
               (perm_odd [q0; q1; q2; q3; 4; 5; 6; 7]%nat)
  | _, _ => false
  end.

Definition edge_cases : list (list (Colour * Colour)) :=
  List.filter edges_ok (quads u_edge_views).

Definition corner_cases : list (list (Colour * Colour * Colour)) :=
  List.filter corners_ok (quads u_corner_views).

(** [stage], started on [c] with an empty history, ends normally, has
    recorded a tidy list of moves, and leaves a cube satisfying [post]. *)
Definition stage_ok (stage : M HistoryCube unit) (post : Cube -> bool) (c : Cube) : bool :=
  match stage (mkHistoryCube c []) with
  | (Ok _, h) => tidy (_history h) && post (base h)
  | _ => false
  end.

Definition solved (c : Cube) : bool :=
  match is_solved c with (Ok b, _) => b | _ => false end.

Definition whites : list Colour := [WHITE; WHITE; WHITE; WHITE].

Definition white_edge (s : Colour) : Colour * Colour := (WHITE, s).

End LastLayerCases.
Export LastLayerCases.

(* ===================================================================== *)
(** * What the optimizer does to a token list *)
(* ===================================================================== *)

Module CleanerFacts.

(** What the [try] block puts in the place of two neighbours [cur], [nxt]
    that start with the same letter. *)
Definition merged (cur nxt cur0 nxt0 : string) : list string :=
  if negb (is_prime cur) && negb (is_double cur) then
    if negb (is_prime nxt) && negb (is_double nxt) then [cur ++ "2"]
    else if is_prime nxt then []
    else if is_double nxt then [cur ++ "'"]
    else [cur; nxt]
  else if is_prime cur then
    if negb (is_prime nxt) && negb (is_double nxt) then []
    else if is_prime nxt then [cur0 ++ "2"]
    else if is_double nxt then [cur0]
    else [cur; nxt]
  else if is_double cur then
    if negb (is_prime nxt) && negb (is_double nxt) then [nxt0 ++ "'"]
    else if is_prime nxt then [cur0]
    else if is_double nxt then []
    else [cur; nxt]
  else [cur; nxt].

(** The tokens of face turns, and those the solver writes. *)
Definition face_tokens : list string :=
  flat_map (fun f => [f; f ++ "'"; f ++ "2"]) FACE_LETTERS.

Definition solver_tokens : list string := (face_tokens ++ ["y"])%list.

(** No two [y] next to each other. *)
Fixpoint y_sep (toks : list string) : bool :=
  match toks with
  | [] => true
  | a :: rest =>
      match rest with
      | b :: _ => negb (String.eqb a "y" && String.eqb b "y")
      | [] => true
      end && y_sep rest
  end.

(** Two move lists that do the same to every size-3 cube. *)
Definition same_effect (xs ys : list Move) : Prop :=
  forall c, well_formed c ->
            Engine.do_moves (MoveList xs) c = Engine.do_moves (MoveList ys) c.

End CleanerFacts.
Export CleanerFacts.

(* ===================================================================== *)
(** * The scramble generator  (generator.py) *)
(* ===================================================================== *)

Module Generator.

(** The module [random], as its callers see it: a source of numbers, read
    one after the other.  Every property below holds for every source. *)
Record Rng := mkRng { draws : nat -> Z; drawn : nat }.

Definition next_draw : M Rng Z :=
  fun g => (Ok (draws g (drawn g)), mkRng (draws g) (S (drawn g))).

(** [random.randint(a, b)]: some integer from [a] to [b]. *)
Definition randint (a b : Z) : M Rng Z :=
  x <- next_draw ;; ret (a + x mod (b - a + 1)).

(** [random.choice(seq)]: some element of [seq]; [IndexError] when empty. *)
Definition choice {A} (seq : list A) : M Rng A :=
  x <- next_draw ;;
  match seq with
  | [] => raise IndexError
  | _ => lift (getitem seq (x mod Z.of_nat (List.length seq)))
  end.

(** What one round of the loop appends to [scramble]. *)
Definition gen_token (moves : list string) : M Rng string :=
  rand_num <- randint 0 3 ;;
  if rand_num =? 0 then choice moves
  else if rand_num =? 1 then m <- choice moves ;; ret (m ++ "2")
  else m <- choice moves ;; ret (m ++ "'").

(** [for _ in range(n)] on the local list [scramble]. *)
Fixpoint gen_loop (n : nat) (moves scramble : list string) : M Rng (list string) :=
  match n with
  | O => ret scramble
  | S n' =>
      tok <- gen_token moves ;;
      gen_loop n' moves (scramble ++ [tok])%list
  end.

(** [gen_scramble] *)
Definition gen_scramble : M Rng string :=
  let moves := ["U"; "R"; "L"; "B"; "D"; "F"] in
  scramble <- gen_loop 40 moves [] ;;
  ret (join " " scramble).

(** [gen_n_scrambles] *)
Fixpoint gen_n_loop (n : nat) (scrambles : list string) : M Rng (list string) :=
  match n with
  | O => ret scrambles
  | S n' => s <- gen_scramble ;; gen_n_loop n' (scrambles ++ [s])%list
  end.

Definition gen_n_scrambles (n : Z) : M Rng (list string) :=
  gen_n_loop (Z.to_nat n) [].

End Generator.
Export Generator.

(* ===================================================================== *)
(** * Properties of the text notation and of the optimizer *)
(* ===================================================================== *)

Section CombinationTable.

(** A face letter, any character at all: the optimizer never looks at which
    one it is, only whether two neighbours start with the same one. *)
Variable f : ascii.

Let n := String f "".
Let p := String f "'".
Let d := String f "2".

Ltac table :=
  unfold n, p, d; destruct f as [[] [] [] [] [] [] [] []]; vm_compute; reflexivity.

(** The nine entries of the combination table, each on a two-token list. *)
Lemma table_nn : clean_tokens [n; n] = Ok [d].   Proof. table. Qed.
Lemma table_np : clean_tokens [n; p] = Ok [].    Proof. table. Qed.
Lemma table_nd : clean_tokens [n; d] = Ok [p].   Proof. table. Qed.
Lemma table_pn : clean_tokens [p; n] = Ok [].    Proof. table. Qed.
Lemma table_pp : clean_tokens [p; p] = Ok [d].   Proof. table. Qed.
Lemma table_pd : clean_tokens [p; d] = Ok [n].   Proof. table. Qed.
Lemma table_dn : clean_tokens [d; n] = Ok [p].   Proof. table. Qed.
Lemma table_dp : clean_tokens [d; p] = Ok [n].   Proof. table. Qed.
Lemma table_dd : clean_tokens [d; d] = Ok [].    Proof. table. Qed.

End CombinationTable.

(** C3, as the code computes it: the first three examples are as stated,
    the fourth one ends in a counter-clockwise turn (normal followed by double
    gives prime in the table); the table itself holds for every face
    letter, and a combination is examined again before the scan advances. *)
Theorem clean_moves_examples :
  clean_moves "R R" = Ok "R2"
  /\ clean_moves "F F' U2 U2" = Ok ""
  /\ clean_moves "R2 R" = Ok "R'"
  /\ clean_moves "U U D D U U2" = Ok "U2 D2 U'"
  /\ (forall f : ascii,
        let n := String f "" in
        let p := String f "'" in
        let d := String f "2" in
        clean_tokens [n; n] = Ok [d] /\ clean_tokens [n; p] = Ok []
        /\ clean_tokens [n; d] = Ok [p] /\ clean_tokens [p; n] = Ok []
        /\ clean_tokens [p; p] = Ok [d] /\ clean_tokens [p; d] = Ok [n]
        /\ clean_tokens [d; n] = Ok [p] /\ clean_tokens [d; p] = Ok [n]
        /\ clean_tokens [d; d] = Ok [])
  /\ clean_moves "R R R" = Ok "R'".
Proof.
  split; [vm_compute; reflexivity|].
  split; [vm_compute; reflexivity|].
  split; [vm_compute; reflexivity|].
  split; [vm_compute; reflexivity|].
  split; [|vm_compute; reflexivity].
  intros f n p d. repeat split.
  - apply table_nn.
  - apply table_np.
  - apply table_nd.
  - apply table_pn.
  - apply table_pp.
  - apply table_pd.
  - apply table_dn.
  - apply table_dp.
  - apply table_dd.
Qed.

(** C3 as stated fails on its fourth example: the result is not ["U2 D2 U2"]. *)
Lemma clean_moves_fourth_example_differs :
  ~ (clean_moves "R R" = Ok "R2"
     /\ clean_moves "F F' U2 U2" = Ok ""
     /\ clean_moves "R2 R" = Ok "R'"
     /\ clean_moves "U U D D U U2" = Ok "U2 D2 U2").
Proof.
  intros (_ & _ & _ & H). vm_compute in H. discriminate H.
Qed.

(** ** [split] and [join] *)

Lemma split_cons_space c s : isspace c = true -> split (String c s) = split s.
Proof. intros H. simpl. now rewrite H. Qed.

Lemma split_cons_last c : isspace c = false -> split (String c "") = [String c ""].
Proof. intros H. simpl. now rewrite H. Qed.

Lemma split_cons_end c c' s :
  isspace c = false -> isspace c' = true ->
  split (String c (String c' s)) = String c "" :: split (String c' s).
Proof. intros H H'. cbn [split]. now rewrite H, H'. Qed.

Lemma split_cons_more c c' s :
  isspace c = false -> isspace c' = false ->
  split (String c (String c' s))
  = match split (String c' s) with
    | t :: ts => String c t :: ts
    | [] => [String c ""]
    end.
Proof. intros H H'. cbn [split]. now rewrite H, H'. Qed.

Lemma split_nonspace_nonempty c s : isspace c = false -> split (String c s) <> [].
Proof.
  intros H. destruct s as [|c' s].
  - now rewrite split_cons_last.
  - destruct (isspace c') eqn:H'.
    + now rewrite split_cons_end.
    + rewrite split_cons_more by assumption. now destruct (split (String c' s)).
Qed.

(** Tokens are never empty and hold no whitespace. *)
Lemma split_tokens_ok s : Forall token_ok (split s).
Proof.
  induction s as [|c s IH]; [constructor|].
  destruct (isspace c) eqn:H.
  - now rewrite split_cons_space.
  - destruct s as [|c' s].
    + rewrite split_cons_last by assumption. constructor; [|constructor].
      split; [discriminate|]. simpl. now rewrite H.
    + destruct (isspace c') eqn:H'.
      * rewrite split_cons_end by assumption. constructor; [|exact IH].
        split; [discriminate|]. simpl. now rewrite H.
      * rewrite split_cons_more by assumption.
        destruct (split (String c' s)) as [|t ts] eqn:E.
        -- constructor; [|constructor]. split; [discriminate|]. simpl. now rewrite H.
        -- inversion IH as [|? ? [Hne Hall] Hts]; subst. constructor; [|exact Hts].
           split; [discriminate|]. simpl. now rewrite H, Hall.
Qed.

Lemma split_token_then_space t r :
  token_ok t -> split (t ++ String " " r) = t :: split r.
Proof.
  intros [Hne Hall]. induction t as [|c t IH]; [congruence|].
  simpl in Hall. apply andb_prop in Hall as [Hc Hall].
  apply negb_true_iff in Hc.
  destruct t as [|c' t].
  - change (String c "" ++ String " " r) with (String c (String " " r)).
    rewrite split_cons_end by (assumption || reflexivity).
    now rewrite split_cons_space by reflexivity.
  - assert (Hc' : isspace c' = false).
    { simpl in Hall. apply andb_prop in Hall as [Hc' _]. now apply negb_true_iff in Hc'. }
    change (String c (String c' t) ++ String " " r)
      with (String c (String c' (t ++ String " " r))).
    rewrite (split_cons_more c c' _ Hc Hc').
    change (String c' (t ++ String " " r)) with (String c' t ++ String " " r).
    rewrite IH by (discriminate || assumption). reflexivity.
Qed.

Lemma split_single_token t : token_ok t -> split t = [t].
Proof.
  intros [Hne Hall]. induction t as [|c t IH]; [congruence|].
  simpl in Hall. apply andb_prop in Hall as [Hc Hall].
  apply negb_true_iff in Hc.
  destruct t as [|c' t].
  - now apply split_cons_last.
  - assert (Hc' : isspace c' = false).
    { simpl in Hall. apply andb_prop in Hall as [Hc' _]. now apply negb_true_iff in Hc'. }
    rewrite split_cons_more by assumption.
    rewrite IH by (discriminate || assumption). reflexivity.
Qed.

(** Splitting a space-joined list of tokens gives the tokens back. *)
Lemma split_join toks : Forall token_ok toks -> split (join " " toks) = toks.
Proof.
  induction 1 as [|t ts Ht Hts IH]; [reflexivity|].
  destruct ts as [|t' ts].
  - now apply split_single_token.
  - change (join " " (t :: t' :: ts)) with (t ++ String " " (join " " (t' :: ts))).
    rewrite split_token_then_space by assumption. now rewrite IH.
Qed.

(** ** The round trip through [Move] values *)

Lemma token_roundtrip t :
  well_formed_token t -> exists m, token_to_move t = Ok m /\ move_to_token m = t.
Proof.
  intros (f & Hin & Hform).
  simpl in Hin.
  repeat (destruct Hin as [<- | Hin]); try contradiction;
    destruct Hform as [-> | [-> | ->]];
    (eexists; split; [vm_compute; reflexivity | reflexivity]).
Qed.

Lemma tokens_roundtrip toks :
  Forall well_formed_token toks ->
  exists ms, tokens_to_moves toks = Ok ms /\ map move_to_token ms = toks.
Proof.
  induction 1 as [|t ts Ht Hts (ms & Hms & Hmap)].
  - exists []. now split.
  - destruct (token_roundtrip t Ht) as (m & Hm & Hback).
    exists (m :: ms). split.
    + cbn [tokens_to_moves]. rewrite Hm. cbn [rbind]. rewrite Hms. reflexivity.
    + cbn [map]. now rewrite Hback, Hmap.
Qed.

(** C7: on a well-formed text, parsing succeeds and serializing the moves
    gives the text back with its whitespace normalized (same tokens, single
    spaces). *)
Theorem serialize_parse_roundtrip (s : string) :
  well_formed_text s ->
  exists ms, scramble_to_moves s = Ok ms
             /\ moves_to_scramble ms = whitespace_normalized s
             /\ split (moves_to_scramble ms) = split s.
Proof.
  intros Hwf. destruct (tokens_roundtrip (split s) Hwf) as (ms & Hms & Hmap).
  exists ms. unfold scramble_to_moves, moves_to_scramble, whitespace_normalized.
  rewrite Hmap. repeat split; [exact Hms|].
  apply split_join, split_tokens_ok.
Qed.

Lemma serialize_parse_roundtrip_witness :
  exists ms, scramble_to_moves "  R U'   F2 " = Ok ms
             /\ moves_to_scramble ms = whitespace_normalized "  R U'   F2 "
             /\ split (moves_to_scramble ms) = split "  R U'   F2 ".
Proof.
  apply (serialize_parse_roundtrip "  R U'   F2 ").
  unfold well_formed_text. vm_compute split.
  repeat constructor.
  - exists "R". split; [vm_compute; tauto | tauto].
  - exists "U". split; [vm_compute; tauto | tauto].
  - exists "F". split; [vm_compute; tauto | tauto].
Defined.

(* ===================================================================== *)
(** * Properties of the move engine *)
(* ===================================================================== *)

(** ** Running loops *)

Lemma bind_unit_ret {S} (m : M S unit) (s : S) : (m ;;; ret tt) s = m s.
Proof. unfold bind, ret. destruct (m s) as [[[]|e|] s']; reflexivity. Qed.

Lemma for_each_app {S A} (xs ys : list A) (body : A -> M S unit) (s : S) :
  for_each (xs ++ ys) body s
  = match for_each xs body s with
    | (Ok _, s') => for_each ys body s'
    | other => other
    end.
Proof.
  revert s. induction xs as [|x xs IH]; intros s; [reflexivity|].
  cbn [for_each app]. unfold bind.
  destruct (body x s) as [[[]|e|] s']; try reflexivity. apply IH.
Qed.

Lemma repeat_n_add {S} (a b : nat) (body : M S unit) (s : S) :
  repeat_n (a + b) body s
  = match repeat_n a body s with
    | (Ok _, s') => repeat_n b body s'
    | other => other
    end.
Proof.
  revert s. induction a as [|a IH]; intros s; [reflexivity|].
  cbn [repeat_n Nat.add]. unfold bind.
  destruct (body s) as [[[]|e|] s']; try reflexivity. apply IH.
Qed.

(** ** Size-3 cubes, sticker by sticker *)

Lemma grid_3x3_inv (g : Grid) :
  grid_3x3 g ->
  exists a b c d e f g' h i, g = [[a; b; c]; [d; e; f]; [g'; h; i]].
Proof.
  intros [Hlen Hrows].
  destruct g as [|r1 [|r2 [|r3 [|]]]]; try discriminate.
  inversion Hrows as [|? ? H1 Hr]; subst. inversion Hr as [|? ? H2 Hr']; subst.
  inversion Hr' as [|? ? H3 _]; subst.
  destruct r1 as [|? [|? [|? [|]]]]; try discriminate.
  destruct r2 as [|? [|? [|? [|]]]]; try discriminate.
  destruct r3 as [|? [|? [|? [|]]]]; try discriminate.
  repeat eexists.
Qed.

Lemma grid_3x3_intro (a b c d e f g h i : Colour) :
  grid_3x3 [[a; b; c]; [d; e; f]; [g; h; i]].
Proof. split; [reflexivity | repeat constructor]. Qed.

Ltac name_stickers c H :=
  let sz := fresh "sz" in
  destruct c as [sz [? ? ? ? ? ?]];
  unfold well_formed, faces_values in H;
  cbn [faces face_U face_F face_L face_B face_R face_D] in H;
  repeat (let Hg := fresh "Hg" in
          apply Forall_cons_iff in H; destruct H as [Hg H];
          apply grid_3x3_inv in Hg;
          destruct Hg as (? & ? & ? & ? & ? & ? & ? & ? & ? & ->));
  clear H.

Ltac solve_wf :=
  unfold well_formed, faces_values;
  cbn [faces face_U face_F face_L face_B face_R face_D]; repeat constructor.

Lemma new_Cube_well_formed : well_formed (new_Cube 3).
Proof. solve_wf. Qed.

Lemma _rotate_quarters (move : Move) (c : Cube) :
  _rotate move c
  = repeat_n (if double move then 2 else if invert move then 3 else 1)%nat
      (quarter_turn (face move)) c.
Proof. reflexivity. Qed.

(** Proves [Permutation l r] for two explicit lists with the same elements. *)
Ltac split_at x r k :=
  let rec go pre post :=
    match post with
    | x :: ?t => k pre t
    | ?y :: ?t => go (pre ++ [y])%list t
    end in
  go (@nil Colour) r.

Ltac perm_lists :=
  repeat match goal with
    | |- Permutation [] [] => apply perm_nil
    | |- Permutation (?x :: ?l) ?r =>
        split_at x r ltac:(fun pre post =>
          let pre' := eval cbn [app] in pre in
          change r with (pre' ++ x :: post)%list;
          apply Permutation_cons_app; cbn [app])
    end.

Lemma quarter_turn_spec (key : string) (c : Cube) :
  In key FACE_LETTERS -> well_formed c ->
  exists c', quarter_turn key c = (Ok tt, c')
             /\ well_formed c'
             /\ Permutation (stickers c) (stickers c').
Proof.
  intros Hkey Hwf. name_stickers c Hwf.
  cbn [In FACE_LETTERS] in Hkey.
  repeat (destruct Hkey as [<- | Hkey]); try contradiction;
    (eexists; split; [vm_compute; reflexivity |]; split; [solve_wf |];
     unfold stickers, faces_values;
     cbn [faces face_U face_F face_L face_B face_R face_D concat app]; perm_lists).
Qed.

Lemma quarter_turn_four (key : string) (c : Cube) :
  In key FACE_LETTERS -> well_formed c ->
  repeat_n 4 (quarter_turn key) c = (Ok tt, c).
Proof.
  intros Hkey Hwf. name_stickers c Hwf.
  cbn [In FACE_LETTERS] in Hkey.
  repeat (destruct Hkey as [<- | Hkey]); try contradiction;
    vm_compute; reflexivity.
Qed.

Lemma y_rotate_spec (c : Cube) :
  well_formed c ->
  exists c', _y_rotate false false c = (Ok tt, c')
             /\ well_formed c'
             /\ Permutation (stickers c) (stickers c').
Proof.
  intros Hwf. name_stickers c Hwf.
  eexists; split; [vm_compute; reflexivity |]; split; [solve_wf |].
  unfold stickers, faces_values.
  cbn [faces face_U face_F face_L face_B face_R face_D concat app]. perm_lists.
Qed.

Lemma repeat_quarter_spec (n : nat) (key : string) (c : Cube) :
  In key FACE_LETTERS -> well_formed c ->
  exists c', repeat_n n (quarter_turn key) c = (Ok tt, c')
             /\ well_formed c'
             /\ Permutation (stickers c) (stickers c').
Proof.
  intros Hkey. revert c. induction n as [|n IH]; intros c Hwf.
  - exists c. repeat split; [assumption | reflexivity].
  - destruct (quarter_turn_spec key c Hkey Hwf) as (c1 & H1 & Hwf1 & Hp1).
    destruct (IH c1 Hwf1) as (c2 & H2 & Hwf2 & Hp2).
    exists c2. split; [|split; [assumption | now transitivity (stickers c1)]].
    cbn [repeat_n]. unfold bind. now rewrite H1.
Qed.

(** The step of the loop of [do_moves]. *)
Lemma face_letter_not_y (key : string) : In key FACE_LETTERS -> String.eqb key "y" = false.
Proof.
  cbn [In FACE_LETTERS]. intros H.
  repeat (destruct H as [<- | H]); try contradiction; reflexivity.
Qed.

Lemma do_move_spec (move : Move) (c : Cube) :
  known_move move -> well_formed c ->
  exists c', (if String.eqb (face move) "y" then _y_rotate false false else _rotate move) c
             = (Ok tt, c')
             /\ well_formed c'
             /\ Permutation (stickers c) (stickers c').
Proof.
  intros Hm Hwf. destruct Hm as [Hy | Hf].
  - rewrite <- Hy. cbn [String.eqb Ascii.eqb Bool.eqb]. now apply y_rotate_spec.
  - rewrite (face_letter_not_y _ Hf), _rotate_quarters. now apply repeat_quarter_spec.
Qed.

Lemma do_moves_cons (move : Move) (ms : list Move) (c : Cube) :
  Engine.do_moves (MoveList (move :: ms)) c
  = match (if String.eqb (face move) "y" then _y_rotate false false else _rotate move) c with
    | (Ok _, c') => Engine.do_moves (MoveList ms) c'
    | other => other
    end.
Proof.
  change (Engine.do_moves (MoveList (move :: ms)) c)
    with (bind ((if String.eqb (face move) "y" then _y_rotate false false else _rotate move))
               (fun _ => Engine.do_moves (MoveList ms)) c).
  unfold bind.
  destruct ((if String.eqb (face move) "y" then _y_rotate false false else _rotate move) c)
    as [[[]|e|] c']; reflexivity.
Qed.

Lemma do_moves_nil (c : Cube) : Engine.do_moves (MoveList []) c = (Ok tt, c).
Proof. reflexivity. Qed.

Lemma do_moves_app (xs ys : list Move) (c : Cube) :
  Engine.do_moves (MoveList (xs ++ ys)) c
  = match Engine.do_moves (MoveList xs) c with
    | (Ok _, c') => Engine.do_moves (MoveList ys) c'
    | other => other
    end.
Proof.
  revert c. induction xs as [|x xs IH]; intros c; [reflexivity|].
  cbn [app]. rewrite !do_moves_cons.
  destruct ((if String.eqb (face x) "y" then _y_rotate false false else _rotate x) c)
    as [[[]|e|] c']; try reflexivity. apply IH.
Qed.

Lemma do_moves_spec (ms : list Move) (c : Cube) :
  Forall known_move ms -> well_formed c ->
  exists c', Engine.do_moves (MoveList ms) c = (Ok tt, c')
             /\ well_formed c'
             /\ Permutation (stickers c) (stickers c').
Proof.
  intros Hms. revert c. induction Hms as [|m ms Hm Hms IH]; intros c Hwf.
  - exists c. repeat split; [assumption | reflexivity].
  - destruct (do_move_spec m c Hm Hwf) as (c1 & H1 & Hwf1 & Hp1).
    destruct (IH c1 Hwf1) as (c2 & H2 & Hwf2 & Hp2).
    exists c2. split; [|split; [assumption | now transitivity (stickers c1)]].
    rewrite do_moves_cons, H1. exact H2.
Qed.

(** C6: every accepted move (a face turn or the [y] reorientation) rearranges
    the 54 stickers of a size-3 cube without changing any of them; hence
    after any sequence of moves from the solved cube each colour is still
    there 9 times. *)
Theorem moves_permute_stickers (ms : list Move) (c : Cube) :
  Forall known_move ms -> well_formed c ->
  exists c', Engine.do_moves (MoveList ms) c = (Ok tt, c')
             /\ well_formed c'
             /\ List.length (stickers c') = 54%nat
             /\ Permutation (stickers c) (stickers c')
             /\ (c = new_Cube 3 -> forall col : Colour, count_colour col c' = 9%nat).
Proof.
  intros Hms Hwf.
  destruct (do_moves_spec ms c Hms Hwf) as (c' & H & Hwf' & Hp).
  exists c'. repeat split; try assumption.
  - clear - Hwf'. name_stickers c' Hwf'. reflexivity.
  - intros -> col. unfold count_colour.
    rewrite <- (proj1 (Permutation_count_occ Colour_eq_dec _ _) Hp col).
    destruct col; reflexivity.
Qed.

Lemma moves_permute_stickers_witness :
  exists c', Engine.do_moves (MoveList [mkMove "R" false false; mkMove "y" true true])
               (new_Cube 3) = (Ok tt, c')
             /\ well_formed c'
             /\ List.length (stickers c') = 54%nat
             /\ Permutation (stickers (new_Cube 3)) (stickers c')
             /\ (new_Cube 3 = new_Cube 3 -> forall col : Colour, count_colour col c' = 9%nat).
Proof.
  apply (moves_permute_stickers [mkMove "R" false false; mkMove "y" true true] (new_Cube 3)).
  - repeat constructor; unfold known_move; cbn; tauto.
  - unfold well_formed. vm_compute. repeat constructor.
Defined.

(** ** Inverse sequences *)

Lemma invert_moves_cons (m : Move) (s : list Move) :
  invert_moves (m :: s)
  = (invert_moves s ++ [mkMove (face m) (negb (invert m)) (double m)])%list.
Proof. unfold invert_moves. cbn [rev]. now rewrite map_app. Qed.

Lemma invert_moves_app (s t : list Move) :
  invert_moves (s ++ t) = (invert_moves t ++ invert_moves s)%list.
Proof. unfold invert_moves. now rewrite rev_app_distr, map_app. Qed.

Lemma invert_moves_involutive (s : list Move) : invert_moves (invert_moves s) = s.
Proof.
  induction s as [|m s IH]; [reflexivity|].
  rewrite invert_moves_cons, invert_moves_app, IH.
  destruct m as [f i d]. cbn. now rewrite negb_involutive.
Qed.

Lemma invert_moves_face (s : list Move) :
  Forall face_move s -> Forall face_move (invert_moves s).
Proof.
  induction 1 as [|m s Hm Hs IH]; [constructor|].
  rewrite invert_moves_cons. apply Forall_app. split; [exact IH|].
  constructor; [exact Hm | constructor].
Qed.

Lemma quarter_counts_add_to_four (m : Move) :
  ((if double m then 2 else if invert m then 3 else 1)
   + (if double m then 2 else if negb (invert m) then 3 else 1) = 4)%nat.
Proof. destruct (double m), (invert m); reflexivity. Qed.

Lemma rotate_then_inverse (m : Move) (c : Cube) :
  face_move m -> well_formed c ->
  exists c1, _rotate m c = (Ok tt, c1)
             /\ well_formed c1
             /\ _rotate (mkMove (face m) (negb (invert m)) (double m)) c1 = (Ok tt, c).
Proof.
  intros Hm Hwf. rewrite _rotate_quarters.
  destruct (repeat_quarter_spec (if double m then 2 else if invert m then 3 else 1)%nat
              (face m) c Hm Hwf) as (c1 & H1 & Hwf1 & _).
  exists c1. repeat split; try assumption.
  rewrite _rotate_quarters. cbn [face invert double].
  pose proof (quarter_turn_four (face m) c Hm Hwf) as H4.
  rewrite <- (quarter_counts_add_to_four m), repeat_n_add, H1 in H4. exact H4.
Qed.

Lemma do_moves_face_cons (m : Move) (ms : list Move) (c : Cube) :
  face_move m ->
  Engine.do_moves (MoveList (m :: ms)) c
  = match _rotate m c with
    | (Ok _, c') => Engine.do_moves (MoveList ms) c'
    | other => other
    end.
Proof. intros Hm. now rewrite do_moves_cons, (face_letter_not_y _ Hm). Qed.

Lemma do_then_invert (s : list Move) (c : Cube) :
  Forall face_move s -> well_formed c ->
  exists c', Engine.do_moves (MoveList s) c = (Ok tt, c')
             /\ well_formed c'
             /\ Engine.do_moves (MoveList (invert_moves s)) c' = (Ok tt, c).
Proof.
  intros Hs. revert c. induction Hs as [|m s Hm Hs IH]; intros c Hwf.
  - exists c. repeat split; assumption || reflexivity.
  - destruct (rotate_then_inverse m c Hm Hwf) as (c1 & H1 & Hwf1 & Hback).
    destruct (IH c1 Hwf1) as (c' & H' & Hwf' & Hinv).
    exists c'. repeat split; try assumption.
    + rewrite (do_moves_face_cons _ _ _ Hm), H1. exact H'.
    + rewrite invert_moves_cons, do_moves_app, Hinv.
      rewrite do_moves_face_cons by exact Hm. cbn [face]. now rewrite Hback.
Qed.

(** C5: on a size-3 cube, a sequence of face moves followed by its inverse
    (reversed, each [invert] flag flipped, [double] kept) gives the cube
    back, and inverting twice gives the sequence back. *)
Theorem apply_then_invert_restores (s : list Move) (c : Cube) :
  Forall face_move s -> well_formed c ->
  (exists c', Engine.do_moves (MoveList s) c = (Ok tt, c')
              /\ Engine.do_moves (MoveList (invert_moves s)) c' = (Ok tt, c))
  /\ Engine.do_moves (MoveList (s ++ invert_moves s)) c = (Ok tt, c)
  /\ invert_moves s
     = map (fun m => mkMove (face m) (negb (invert m)) (double m)) (rev s)
  /\ invert_moves (invert_moves s) = s.
Proof.
  intros Hs Hwf.
  destruct (do_then_invert s c Hs Hwf) as (c' & H & _ & Hinv).
  repeat split.
  - exists c'. now split.
  - now rewrite do_moves_app, H.
  - apply invert_moves_involutive.
Qed.

Lemma apply_then_invert_restores_witness :
  let s := [mkMove "R" false false; mkMove "U" true false; mkMove "F" false true] in
  let c := new_Cube 3 in
  (exists c', Engine.do_moves (MoveList s) c = (Ok tt, c')
              /\ Engine.do_moves (MoveList (invert_moves s)) c' = (Ok tt, c))
  /\ Engine.do_moves (MoveList (s ++ invert_moves s)) c = (Ok tt, c)
  /\ invert_moves s
     = map (fun m => mkMove (face m) (negb (invert m)) (double m)) (rev s)
  /\ invert_moves (invert_moves s) = s.
Proof.
  intros s c. apply (apply_then_invert_restores s c).
  - repeat constructor; unfold face_move; cbn; tauto.
  - unfold well_formed. vm_compute. repeat constructor.
Defined.

(** ** Moves on a history-tracking cube *)

Lemma history_append_all (ms : list Move) (h : HistoryCube) :
  for_each ms history_append h
  = (Ok tt, mkHistoryCube (base h) (_history h ++ ms)).
Proof.
  revert h. induction ms as [|m ms IH]; intros h.
  - cbn. rewrite app_nil_r. now destruct h.
  - cbn [for_each]. unfold bind, history_append at 1. rewrite IH. cbn [base _history].
    now rewrite <- app_assoc.
Qed.

(** [HistoryCube.do_moves] is the move engine on the inherited state, plus
    the recording when asked for and when the engine did not raise. *)
Lemma history_do_moves_run (ms : list Move) (save : bool) (h : HistoryCube) :
  History.do_moves (MoveList ms) save h
  = match Engine.do_moves (MoveList ms) (base h) with
    | (Ok _, c') =>
        (Ok tt, mkHistoryCube c' (if save then _history h ++ ms else _history h)%list)
    | (Raise e, c') => (Raise e, mkHistoryCube c' (_history h))
    | (OutOfFuel, c') => (OutOfFuel, mkHistoryCube c' (_history h))
    end.
Proof.
  unfold History.do_moves, super, as_moves. unfold bind at 1.
  destruct (Engine.do_moves (MoveList ms) (base h)) as [[[]|e|] c']; try reflexivity.
  unfold bind, ret. destruct save; [|reflexivity].
  now rewrite history_append_all.
Qed.

(** ** The [y] move *)

(** C10: [do_moves] runs a move of face [y] as one plain [_y_rotate()],
    whatever its flags, on a plain and on a history-tracking cube; on the
    solved cube this differs from the inverse and from the double
    reorientation that [_y_rotate] can perform. *)
Theorem y_move_ignores_flags :
  (forall (inv dbl : bool) (c : Cube),
      Engine.do_moves (MoveList [mkMove "y" inv dbl]) c = _y_rotate false false c)
  /\ (forall (inv dbl save : bool) (h : HistoryCube),
         base (snd (History.do_moves (MoveList [mkMove "y" inv dbl]) save h))
         = snd (_y_rotate false false (base h)))
  /\ snd (Engine.do_moves (MoveList [mkMove "y" true false]) (new_Cube 3))
     <> snd (_y_rotate false true (new_Cube 3))
  /\ snd (Engine.do_moves (MoveList [mkMove "y" false true]) (new_Cube 3))
     <> snd (_y_rotate true false (new_Cube 3)).
Proof.
  assert (Hy : forall inv dbl c,
             Engine.do_moves (MoveList [mkMove "y" inv dbl]) c = _y_rotate false false c).
  { intros inv dbl c.
    change (Engine.do_moves (MoveList [mkMove "y" inv dbl]) c)
      with ((_y_rotate false false ;;; ret tt) c).
    apply bind_unit_ret. }
  split; [exact Hy | split; [|split]].
  - intros inv dbl save h. rewrite history_do_moves_run, Hy.
    destruct (_y_rotate false false (base h)) as [[[]|e|] c']; reflexivity.
  - vm_compute. discriminate.
  - vm_compute. discriminate.
Qed.

(** ** Parsing does not validate *)

Lemma getitem_first {A} (x : A) (l : list A) : getitem (x :: l) 0 = Ok x.
Proof.
  unfold getitem, norm_index.
  replace (0 <? Z.of_nat (List.length (x :: l))) with true
    by (symmetry; apply Z.ltb_lt; cbn [List.length]; lia).
  reflexivity.
Qed.

Lemma token_to_move_total (t : string) :
  t <> "" -> token_to_move t = Ok (parsed_token t).
Proof.
  intros Hne. destruct t as [|c t]; [congruence|].
  unfold token_to_move, str_getitem. cbn [list_ascii_of_string].
  now rewrite getitem_first.
Qed.

Lemma tokens_to_moves_total (toks : list string) :
  Forall token_ok toks -> tokens_to_moves toks = Ok (map parsed_token toks).
Proof.
  induction 1 as [|t ts [Hne _] _ IH]; [reflexivity|].
  cbn [tokens_to_moves map]. rewrite (token_to_move_total t Hne). cbn [rbind].
  now rewrite IH.
Qed.

Lemma scramble_to_moves_total (s : string) :
  scramble_to_moves s = Ok (map parsed_token (split s)).
Proof. apply tokens_to_moves_total, split_tokens_ok. Qed.

Lemma faces_get_unknown (key : string) (fs : Faces) :
  ~ In key FACE_LETTERS -> faces_get key fs = Raise KeyError.
Proof.
  intros Hkey. unfold faces_get.
  repeat match goal with
         | |- context [String.eqb key ?k] =>
             destruct (String.eqb_spec key k) as [-> | _];
             [exfalso; apply Hkey; cbn; tauto |]
         end.
  reflexivity.
Qed.

Lemma rotate_unknown (m : Move) (c : Cube) :
  ~ In (face m) FACE_LETTERS -> _rotate m c = (Raise KeyError, c).
Proof.
  intros Hkey. rewrite _rotate_quarters.
  assert (Hq : quarter_turn (face m) c = (Raise KeyError, c)).
  { unfold quarter_turn, _face_rotate, face_grid, bind.
    now rewrite (faces_get_unknown _ _ Hkey). }
  destruct (double m), (invert m); cbn [repeat_n]; unfold bind; now rewrite Hq.
Qed.

Lemma do_moves_text (s : string) (c : Cube) :
  Engine.do_moves (Text s) c = Engine.do_moves (MoveList (map parsed_token (split s))) c.
Proof.
  unfold Engine.do_moves, as_moves, bind, lift, ret.
  now rewrite scramble_to_moves_total.
Qed.

(** C4, as the code behaves: parsing never fails and validates nothing, a
    token with any first character becomes a [Move]; the first move whose
    face is unknown makes [do_moves] raise [KeyError], with the moves before
    it already applied. *)
Theorem parsing_never_rejects (s : string) :
  scramble_to_moves s = Ok (map parsed_token (split s))
  /\ (forall (c c1 : Cube) (ms1 ms2 : list Move) (m : Move),
         map parsed_token (split s) = (ms1 ++ m :: ms2)%list ->
         ~ known_move m ->
         Engine.do_moves (MoveList ms1) c = (Ok tt, c1) ->
         Engine.do_moves (Text s) c = (Raise KeyError, c1)).
Proof.
  split; [apply scramble_to_moves_total|].
  intros c c1 ms1 ms2 m Hsplit Hm H1.
  rewrite do_moves_text, Hsplit, do_moves_app, H1, do_moves_cons.
  destruct (String.eqb_spec (face m) "y") as [Hy | _].
  - exfalso. apply Hm. left. now symmetry.
  - rewrite rotate_unknown; [reflexivity|].
    intros Hin. apply Hm. now right.
Qed.

Lemma parsing_never_rejects_witness :
  scramble_to_moves "R X U" = Ok (map parsed_token (split "R X U"))
  /\ exists c1, Engine.do_moves (MoveList [mkMove "R" false false]) (new_Cube 3) = (Ok tt, c1)
                /\ Engine.do_moves (Text "R X U") (new_Cube 3) = (Raise KeyError, c1).
Proof.
  destruct (parsing_never_rejects "R X U") as [Hparse Hrun].
  split; [exact Hparse|].
  eexists. split; [vm_compute; reflexivity|].
  apply (Hrun _ _ [mkMove "R" false false] [mkMove "U" false false] (mkMove "X" false false)).
  - reflexivity.
  - unfold known_move. cbn. intros H.
    repeat (destruct H as [H | H]; [discriminate H|]). exact H.
  - vm_compute. reflexivity.
Defined.

(** C4 as stated fails on the text [R X]: its second token starts with no
    face label, yet it is parsed into two moves without any error, and
    applying it turns the [R] face before [KeyError] is raised. *)
Lemma malformed_text_is_parsed_and_partly_applied :
  Exists (fun t => ~ In (first_letter_of t) ("y" :: FACE_LETTERS)) (split "R X")
  /\ scramble_to_moves "R X" = Ok [mkMove "R" false false; mkMove "X" false false]
  /\ fst (Engine.do_moves (Text "R X") (new_Cube 3)) = Raise KeyError
  /\ snd (Engine.do_moves (Text "R X") (new_Cube 3))
     = snd (Engine.do_moves (Text "R") (new_Cube 3))
  /\ snd (Engine.do_moves (Text "R X") (new_Cube 3)) <> new_Cube 3.
Proof.
  split; [|split; [|split; [|split]]]; try (vm_compute; reflexivity).
  - vm_compute split. apply Exists_cons_tl, Exists_cons_hd. cbn. intros Hin.
    repeat (destruct Hin as [Hin | Hin]; [discriminate Hin|]). exact Hin.
  - vm_compute. discriminate.
Qed.

(* ===================================================================== *)
(** * Properties of the piece locator *)
(* ===================================================================== *)

Ltac name_history_stickers h H :=
  let c := fresh "c" in
  let hist := fresh "hist" in
  destruct h as [c hist]; cbn [base] in H; name_stickers c H.

(** On a history-tracking cube the lookups of an edge and of a corner give
    the cube back as it was, trace included. *)
Lemma history_get_edge_restores (piece : string) (h : HistoryCube) :
  In piece (dict_keys EDGE_TO_UF) -> well_formed (base h) ->
  exists info, History.get_edge piece h = (Ok info, h).
Proof.
  intros Hp Hwf. name_history_stickers h Hwf.
  cbn [dict_keys EDGE_TO_UF map fst In] in Hp.
  repeat (destruct Hp as [<- | Hp]); try contradiction;
    (eexists; vm_compute; reflexivity).
Qed.

Lemma history_get_corner_restores (piece : string) (h : HistoryCube) :
  In piece (dict_keys CORNER_TO_UFR) -> well_formed (base h) ->
  exists info, History.get_corner piece h = (Ok info, h).
Proof.
  intros Hp Hwf. name_history_stickers h Hwf.
  cbn [dict_keys CORNER_TO_UFR map fst In] in Hp.
  repeat (destruct Hp as [<- | Hp]); try contradiction;
    (eexists; vm_compute; reflexivity).
Qed.

Lemma dict_mem_In {V} (d : list (string * V)) (k : string) :
  dict_mem d k = true -> In k (dict_keys d).
Proof.
  unfold dict_mem, dict_keys. rewrite existsb_exists.
  intros ((k', v) & Hin & Heq). apply String.eqb_eq in Heq. cbn in Heq. subst k'.
  apply in_map_iff. now exists (k, v).
Qed.

(** [get_sticker] on a history-tracking cube never changes it, whatever the
    label and whatever the outcome. *)
Lemma history_get_sticker_restores (name : string) (h : HistoryCube) :
  well_formed (base h) ->
  exists r, get_sticker name h = (r, h).
Proof.
  intros Hwf. unfold get_sticker.
  induction (permutations (chars name)) as [|perm rest IH].
  - eexists. reflexivity.
  - cbn [get_sticker_loop].
    destruct (dict_mem EDGE_TO_UF (join "" perm)) eqn:He.
    + destruct (history_get_edge_restores _ h (dict_mem_In _ _ He) Hwf) as (info & Hinfo).
      cbn [lookup_edge HistoryCube_lookup]. unfold bind at 1. rewrite Hinfo.
      unfold bind, lift.
      destruct (str_getitem name 0) as [k|e|]; eexists; reflexivity.
    + destruct (dict_mem CORNER_TO_UFR (join "" perm)) eqn:Hc; [|exact IH].
      destruct (history_get_corner_restores _ h (dict_mem_In _ _ Hc) Hwf) as (info & Hinfo).
      cbn [lookup_corner HistoryCube_lookup]. unfold bind at 1. rewrite Hinfo.
      unfold bind, lift.
      destruct (str_getitem name 0) as [k|e|]; eexists; reflexivity.
Qed.

(** C1 fails on the plain [Cube]: [get_edge], [get_corner] and [get_sticker]
    compute the inverse of the setup moves but never play it, so the solved
    cube is left with the setup moves applied. *)
Theorem plain_cube_lookup_leaves_setup_applied :
  snd (Engine.get_edge "UL" (new_Cube 3)) = snd (Engine.do_moves (Text "U'") (new_Cube 3))
  /\ snd (Engine.get_edge "UL" (new_Cube 3)) <> new_Cube 3
  /\ snd (Engine.get_corner "DFR" (new_Cube 3)) = snd (Engine.do_moves (Text "R") (new_Cube 3))
  /\ snd (Engine.get_corner "DFR" (new_Cube 3)) <> new_Cube 3
  /\ snd (get_sticker "UL" (new_Cube 3)) <> new_Cube 3.
Proof.
  split; [vm_compute; reflexivity|].
  split; [vm_compute; discriminate|].
  split; [vm_compute; reflexivity|].
  split; [vm_compute; discriminate|].
  vm_compute; discriminate.
Qed.

(** The overriding lookups of [HistoryCube] do undo their setup moves, and
    record nothing: on a size-3 cube they are observation-only. *)
Theorem history_cube_lookups_are_observations (h : HistoryCube) :
  well_formed (base h) ->
  (forall piece, In piece (dict_keys EDGE_TO_UF) -> snd (History.get_edge piece h) = h)
  /\ (forall piece, In piece (dict_keys CORNER_TO_UFR) -> snd (History.get_corner piece h) = h)
  /\ (forall name, snd (get_sticker name h) = h).
Proof.
  intros Hwf. split; [|split].
  - intros piece Hp.
    destruct (history_get_edge_restores piece h Hp Hwf) as (info & ->). reflexivity.
  - intros piece Hp.
    destruct (history_get_corner_restores piece h Hp Hwf) as (info & ->). reflexivity.
  - intros name.
    destruct (history_get_sticker_restores name h Hwf) as (r & ->). reflexivity.
Qed.

(* ===================================================================== *)
(** * The caller's cube is not touched *)
(* ===================================================================== *)

Lemma fresh_loc_unused (store : gmap loc Faces) : store !! fresh (dom store) = None.
Proof. apply not_elem_of_dom, is_fresh. Qed.

Lemma generate_solution_run (fuel : nat) (cube : CubeObj) (store : gmap loc Faces) (fs : Faces) :
  store !! obj_faces cube = Some fs ->
  exists fs',
    generate_solution fuel cube store
    = (solve fuel (mkCube (obj_size cube) fs), <[fresh (dom store) := fs']> store).
Proof.
  intros Hfs. unfold generate_solution, solve, deepcopy, with_HistoryCube.
  unfold bind at 1. rewrite Hfs. unfold bind at 1.
  rewrite lookup_insert_eq. cbn [size faces].
  destruct ((solve_stages fuel ;;; get_move_history)
              (new_HistoryCube (obj_size cube) (Some fs))) as [[history|e|] h];
    exists (faces (base h)); rewrite insert_insert_eq; reflexivity.
Qed.

(** ** No method looks at [size] *)

Section Blind.

Context {P S : Type} (rz : P -> S -> S).

Lemma blind_ret {A} (a : A) : blind rz (ret a).
Proof. intros z s. reflexivity. Qed.

Lemma blind_raise {A} (e : exn) : blind rz (@raise S A e).
Proof. intros z s. reflexivity. Qed.

Lemma blind_out_of_fuel {A} : blind rz (@out_of_fuel S A).
Proof. intros z s. reflexivity. Qed.

Lemma blind_lift {A} (r : res A) : blind rz (lift r).
Proof. intros z s. reflexivity. Qed.

Lemma blind_bind {A B} (m : M S A) (k : A -> M S B) :
  blind rz m -> (forall a, blind rz (k a)) -> blind rz (bind m k).
Proof.
  intros Hm Hk z s. unfold bind. rewrite Hm.
  destruct (m s) as [[a|e|] s']; cbn [fst snd]; try reflexivity. apply Hk.
Qed.

Lemma blind_for_each {A} (xs : list A) (body : A -> M S unit) :
  (forall x, blind rz (body x)) -> blind rz (for_each xs body).
Proof.
  intros Hb. induction xs as [|x xs IH]; [apply blind_ret|].
  cbn [for_each]. apply blind_bind; [apply Hb | intros _; exact IH].
Qed.

Lemma blind_repeat_n (n : nat) (body : M S unit) :
  blind rz body -> blind rz (repeat_n n body).
Proof.
  intros Hb. induction n as [|n IH]; [apply blind_ret|].
  cbn [repeat_n]. apply blind_bind; [exact Hb | intros _; exact IH].
Qed.

Lemma blind_for_break {A} (xs : list A) (body : A -> M S bool) :
  (forall x, blind rz (body x)) -> blind rz (for_break xs body).
Proof.
  intros Hb. induction xs as [|x xs IH]; [apply blind_ret|].
  cbn [for_break]. apply blind_bind; [apply Hb|].
  intros []; [apply blind_ret | exact IH].
Qed.

Lemma blind_while (fuel : nat) (cond : M S bool) (body : M S unit) :
  blind rz cond -> blind rz body -> blind rz (while_ fuel cond body).
Proof.
  intros Hc Hb. induction fuel as [|fuel IH]; [apply blind_out_of_fuel|].
  cbn [while_]. apply blind_bind; [exact Hc|].
  intros []; [|apply blind_ret].
  apply blind_bind; [exact Hb | intros _; exact IH].
Qed.

End Blind.

Create HintDb blind.

#[local] Hint Resolve blind_ret blind_raise blind_out_of_fuel blind_lift
  blind_for_each blind_repeat_n blind_for_break blind_while : blind.

(** Goes through a method definition along its binds and branches. *)
Ltac blind_step :=
  match goal with
  | |- forall _, _ => intro
  | |- blind _ (bind _ _) => apply blind_bind
  | |- blind _ (for_each _ _) => apply blind_for_each
  | |- blind _ (for_break _ _) => apply blind_for_break
  | |- blind _ (repeat_n _ _) => apply blind_repeat_n
  | |- blind _ (while_ _ _ _) => apply blind_while
  | |- blind _ (if ?b then _ else _) => destruct b
  | |- blind _ (match ?x with _ => _ end) => destruct x
  | |- blind _ (let '(_, _) := ?p in _) => destruct p
  | |- blind _ ((fun x => _) _) => cbv beta
  | |- _ => solve [auto with blind]
  end.

Ltac blind_auto := repeat blind_step.

Lemma blind_face_grid key : blind resize (face_grid key).
Proof. intros z c. reflexivity. Qed.

Lemma blind_set_face key g : blind resize (set_face key g).
Proof. intros z c. reflexivity. Qed.

#[local] Hint Resolve blind_face_grid blind_set_face : blind.

Lemma blind_face_row key i : blind resize (face_row key i).
Proof. unfold face_row. blind_auto. Qed.

Lemma blind_set_face_row key i row : blind resize (set_face_row key i row).
Proof. unfold set_face_row. blind_auto. Qed.

Lemma blind_sticker_at key i j : blind resize (sticker_at key i j).
Proof. unfold sticker_at. pose proof blind_face_row. blind_auto. Qed.

Lemma blind_face_rotate key : blind resize (_face_rotate key).
Proof. unfold _face_rotate. blind_auto. Qed.

#[local] Hint Resolve blind_face_row blind_set_face_row blind_sticker_at
  blind_face_rotate : blind.

Lemma blind_collect {A} keys (f : string -> M Cube A) :
  (forall k, blind resize (f k)) -> blind resize (collect keys f).
Proof.
  intros Hf. induction keys as [|k ks IH]; cbn [collect]; blind_auto.
Qed.

#[local] Hint Resolve blind_collect : blind.

Lemma blind_adjacent_face_swap_F : blind resize _adjacent_face_swap_F.
Proof. unfold _adjacent_face_swap_F. blind_auto. Qed.

Lemma blind_y_rotate double inverse : blind resize (_y_rotate double inverse).
Proof.
  unfold _y_rotate. apply blind_repeat_n. blind_auto.
Qed.

#[local] Hint Resolve blind_adjacent_face_swap_F blind_y_rotate : blind.

Lemma blind_adjacent_face_swap key : blind resize (_adjacent_face_swap key).
Proof. unfold _adjacent_face_swap. blind_auto. Qed.

#[local] Hint Resolve blind_adjacent_face_swap : blind.

Lemma blind_rotate move : blind resize (_rotate move).
Proof. unfold _rotate. apply blind_repeat_n. blind_auto. Qed.

#[local] Hint Resolve blind_rotate : blind.

Lemma blind_as_moves {P S} (rz : P -> S -> S) moves : blind rz (as_moves moves).
Proof. destruct moves; cbn [as_moves]; auto with blind. Qed.

#[local] Hint Resolve blind_as_moves : blind.

Lemma blind_engine_do_moves moves : blind resize (Engine.do_moves moves).
Proof. unfold Engine.do_moves. blind_auto. Qed.

#[local] Hint Resolve blind_engine_do_moves : blind.

Lemma blind_super {A} (m : M Cube A) : blind resize m -> blind resize_history (super m).
Proof.
  intros Hm z h. unfold super, resize_history. cbn [base _history].
  rewrite Hm. destruct (m (base h)) as [r c]. reflexivity.
Qed.

Lemma blind_history_append move : blind resize_history (history_append move).
Proof. intros z h. reflexivity. Qed.

Lemma blind_get_move_history : blind resize_history get_move_history.
Proof. intros z h. reflexivity. Qed.

(** The methods of [HistoryCube] and the solver stages reach the state only
    through the methods of [Cube] and through [_history.append]: whatever
    those two cannot see, the stages cannot see. *)
Section BlindHistory.

Context {P : Type} (rz : P -> HistoryCube -> HistoryCube).
Hypothesis rz_super : forall A (m : M Cube A), blind resize m -> blind rz (super m).
Hypothesis rz_append : forall move, blind rz (history_append move).

#[local] Hint Resolve rz_super rz_append : blind.

Lemma blind_history_do_moves moves save : blind rz (History.do_moves moves save).
Proof. unfold History.do_moves. blind_auto. Qed.

#[local] Hint Resolve blind_history_do_moves : blind.

Lemma blind_history_get_edge piece : blind rz (History.get_edge piece).
Proof. unfold History.get_edge. blind_auto. Qed.

Lemma blind_history_get_corner piece : blind rz (History.get_corner piece).
Proof. unfold History.get_corner. blind_auto. Qed.

#[local] Hint Resolve blind_history_get_edge blind_history_get_corner : blind.

Lemma blind_get_sticker name : blind rz (get_sticker name).
Proof.
  unfold get_sticker.
  induction (permutations (chars name)) as [|perm rest IH]; cbn [get_sticker_loop].
  - apply blind_raise.
  - cbn [lookup_edge lookup_corner HistoryCube_lookup]. blind_auto.
Qed.

#[local] Hint Resolve blind_get_sticker : blind.

Lemma blind_play alg : blind rz (play alg).
Proof. unfold play. auto with blind. Qed.

Lemma blind_sticker name : blind rz (sticker name).
Proof. unfold sticker. auto with blind. Qed.

#[local] Hint Resolve blind_play blind_sticker : blind.

Lemma blind_solve_cross : blind rz solve_cross.
Proof. unfold solve_cross. blind_auto. Qed.

Lemma blind_solve_corners : blind rz solve_corners.
Proof. unfold solve_corners. blind_auto. Qed.

Lemma blind_solve_middle_edges : blind rz solve_middle_edges.
Proof. unfold solve_middle_edges. blind_auto. Qed.

Lemma blind_solve_eoll : blind rz solve_eoll.
Proof. unfold solve_eoll. blind_auto. Qed.

Lemma blind_play_ocll name : blind rz (play_ocll name).
Proof. unfold play_ocll. blind_auto. Qed.

Lemma blind_get_top_layer_corners : blind rz get_top_layer_corners.
Proof. unfold get_top_layer_corners. blind_auto. Qed.

#[local] Hint Resolve blind_play_ocll blind_get_top_layer_corners : blind.

Lemma blind_solve_ocll fuel : blind rz (solve_ocll fuel).
Proof. unfold solve_ocll. blind_auto. Qed.

Lemma blind_solve_cpll : blind rz solve_cpll.
Proof. unfold solve_cpll. blind_auto. Qed.

Lemma blind_front_edge_matches_corner : blind rz front_edge_matches_corner.
Proof. unfold front_edge_matches_corner. blind_auto. Qed.

#[local] Hint Resolve blind_front_edge_matches_corner : blind.

Lemma blind_count_solved_edges n k : blind rz (count_solved_edges n k).
Proof.
  revert k. induction n as [|n IH]; intros k; cbn [count_solved_edges]; blind_auto.
Qed.

#[local] Hint Resolve blind_count_solved_edges : blind.

Lemma blind_solve_epll fuel : blind rz (solve_epll fuel).
Proof. unfold solve_epll. blind_auto. Qed.

#[local] Hint Resolve blind_solve_cross blind_solve_corners blind_solve_middle_edges
  blind_solve_eoll blind_solve_ocll blind_solve_cpll blind_solve_epll : blind.

Lemma blind_solve_stages fuel : blind rz (solve_stages fuel).
Proof. unfold solve_stages. blind_auto. Qed.

End BlindHistory.

(** The solution does not depend on the attribute [size]. *)
Lemma solve_ignores_size (fuel : nat) (z1 z2 : Z) (fs : Faces) :
  solve fuel (mkCube z1 fs) = solve fuel (mkCube z2 fs).
Proof.
  unfold solve. cbn [size faces].
  change (new_HistoryCube z1 (Some fs))
    with (resize_history z1 (new_HistoryCube z2 (Some fs))).
  assert (Hb : blind resize_history (solve_stages fuel ;;; get_move_history)).
  { pose proof (blind_solve_stages resize_history (@blind_super) blind_history_append fuel).
    pose proof blind_get_move_history. blind_auto. }
  rewrite Hb.
  destruct ((solve_stages fuel ;;; get_move_history) (new_HistoryCube z2 (Some fs)))
    as [[history|e|] h]; reflexivity.
Qed.

(** C8: [generate_solution] changes no dict that existed before the call
    (the caller's [faces] among them: it only writes to the fresh copy), and
    what it returns is determined by the content of the caller's face grids
    alone (not by [size], by addresses or by other objects). *)
Theorem generate_solution_frame
  (fuel : nat) (cube : CubeObj) (store : gmap loc Faces) (fs : Faces) :
  store !! obj_faces cube = Some fs ->
  snd (generate_solution fuel cube store) !! obj_faces cube = Some fs
  /\ (forall l x, store !! l = Some x -> snd (generate_solution fuel cube store) !! l = Some x)
  /\ (forall (cube' : CubeObj) (store' : gmap loc Faces),
         store' !! obj_faces cube' = Some fs ->
         fst (generate_solution fuel cube' store') = fst (generate_solution fuel cube store))
  /\ fst (generate_solution fuel cube store) = solve fuel (mkCube 3 fs).
Proof.
  intros Hfs.
  destruct (generate_solution_run fuel cube store fs Hfs) as (fs' & Hrun).
  assert (Hframe : forall l x, store !! l = Some x ->
                               snd (generate_solution fuel cube store) !! l = Some x).
  { intros l x Hl. rewrite Hrun. cbn [snd].
    rewrite lookup_insert_ne; [exact Hl|].
    intros <-. rewrite fresh_loc_unused in Hl. discriminate Hl. }
  split; [now apply Hframe | split; [exact Hframe | split]].
  - intros cube' store' Hfs'.
    destruct (generate_solution_run fuel cube' store' fs Hfs') as (fs'' & Hrun').
    rewrite Hrun, Hrun'. cbn [fst]. apply solve_ignores_size.
  - rewrite Hrun. cbn [fst]. apply solve_ignores_size.
Qed.

Lemma generate_solution_frame_witness :
  let store : gmap loc Faces := {[ 1%positive := faces (new_Cube 3) ]} in
  let cube := mkCubeObj 3 1%positive in
  snd (generate_solution 4 cube store) !! obj_faces cube = Some (faces (new_Cube 3))
  /\ (forall l x, store !! l = Some x -> snd (generate_solution 4 cube store) !! l = Some x)
  /\ (forall (cube' : CubeObj) (store' : gmap loc Faces),
         store' !! obj_faces cube' = Some (faces (new_Cube 3)) ->
         fst (generate_solution 4 cube' store') = fst (generate_solution 4 cube store))
  /\ fst (generate_solution 4 cube store) = solve 4 (mkCube 3 (faces (new_Cube 3))).
Proof.
  intros store cube.
  apply (generate_solution_frame 4 cube store (faces (new_Cube 3))).
  reflexivity.
Defined.

Lemma decode_edge_swap a b p o :
  decode_edge (a, b) = Some (p, o) -> decode_edge (b, a) = Some (p, negb o).
Proof.
  destruct a, b; vm_compute; intros H; try discriminate H;
    injection H as <- <-; reflexivity.
Qed.

Lemma decode_corner_rot a b c p t :
  decode_corner (a, b, c) = Some (p, t) ->
  decode_corner (b, c, a) = Some (p, ((t + 2) mod 3)%nat)
  /\ decode_corner (c, a, b) = Some (p, ((t + 1) mod 3)%nat).
Proof.
  destruct a, b, c; vm_compute; intros H; try discriminate H;
    injection H as <- <-; split; reflexivity.
Qed.

Lemma all_some_cons {A} (o : option A) (l : list (option A)) (r : list A) :
  all_some (o :: l) = Some r ->
  exists a r', o = Some a /\ all_some l = Some r' /\ r = a :: r'.
Proof.
  destruct o as [a|]; [|discriminate]. cbn [all_some].
  destruct (all_some l) as [r'|]; [|discriminate].
  intros [= <-]. now exists a, r'.
Qed.

Lemma all_some_nil {A} (r : list A) : all_some [] = Some r -> r = [].
Proof. now intros [= <-]. Qed.

(** ** Parity and adjacent swaps *)

Lemma count_lt_swap x i l : count_lt x (swap_at i l) = count_lt x l.
Proof.
  revert l. induction i as [|i IH]; intros [|a [|b t]]; try reflexivity.
  - unfold count_lt. cbn [swap_at List.filter].
    destruct (Nat.ltb a x), (Nat.ltb b x); reflexivity.
  - unfold count_lt in *. cbn [swap_at List.filter]. specialize (IH []).
    destruct (Nat.ltb a x); cbn [List.length]; destruct i; reflexivity.
  - unfold count_lt in *. cbn [swap_at List.filter]. specialize (IH (b :: t)).
    destruct (Nat.ltb a x); cbn [List.length]; now rewrite IH.
Qed.

Lemma swap_at_length i l : List.length (swap_at i l) = List.length l.
Proof.
  revert l. induction i as [|i IH]; intros [|a [|b t]]; try reflexivity.
  - cbn [swap_at List.length]. now rewrite IH.
  - cbn [swap_at List.length]. now rewrite IH.
Qed.

Lemma swap_at_perm i l : Permutation l (swap_at i l).
Proof.
  revert l. induction i as [|i IH]; intros [|a [|b t]]; try reflexivity.
  - apply perm_swap.
  - cbn [swap_at]. apply perm_skip, IH.
  - cbn [swap_at]. apply perm_skip, IH.
Qed.

Lemma odd_succ_negb n : Nat.odd (S n) = negb (Nat.odd n).
Proof. rewrite Nat.odd_succ, <- Nat.negb_odd. reflexivity. Qed.

Lemma swap_at_odd i l :
  List.NoDup l -> (S i < List.length l)%nat -> perm_odd (swap_at i l) = negb (perm_odd l).
Proof.
  unfold perm_odd. revert l. induction i as [|i IH]; intros l Hnd Hlen.
  - destruct l as [|a [|b t]]; cbn [List.length] in Hlen; try lia.
    assert (Hab : a <> b).
    { inversion Hnd as [|? ? Hnotin _]; subst. intros ->. apply Hnotin. now left. }
    cbn [swap_at inversions]. unfold count_lt. cbn [List.filter].
    destruct (Nat.ltb_spec a b) as [Hlt|Hge], (Nat.ltb_spec b a) as [Hlt'|Hge'];
      try lia; cbn [List.length].
    + replace (S (List.length (List.filter (fun y => Nat.ltb y b) t))
               + (List.length (List.filter (fun y => Nat.ltb y a) t) + inversions t))%nat
        with (S (List.length (List.filter (fun y => Nat.ltb y a) t)
                 + (List.length (List.filter (fun y => Nat.ltb y b) t) + inversions t)))%nat by lia.
      apply odd_succ_negb.
    + replace (S (List.length (List.filter (fun y => Nat.ltb y a) t))
               + (List.length (List.filter (fun y => Nat.ltb y b) t) + inversions t))%nat
        with (S (List.length (List.filter (fun y => Nat.ltb y b) t)
                 + (List.length (List.filter (fun y => Nat.ltb y a) t) + inversions t)))%nat by lia.
      rewrite odd_succ_negb, negb_involutive. reflexivity.
  - destruct l as [|a t]; cbn [List.length] in Hlen; try lia.
    cbn [swap_at inversions]. rewrite count_lt_swap, !Nat.odd_add.
    rewrite IH; [|now inversion Hnd|lia].
    destruct (Nat.odd (count_lt a t)), (Nat.odd (inversions t)); reflexivity.
Qed.

Lemma apply_swaps_odd sw l :
  List.NoDup l -> Forall (fun i => (S i < List.length l)%nat) sw ->
  perm_odd (apply_swaps sw l) = xorb (Nat.odd (List.length sw)) (perm_odd l).
Proof.
  unfold apply_swaps. revert l. induction sw as [|i sw IH]; intros l Hnd Hsw.
  - cbn. now destruct (perm_odd l).
  - cbn [fold_left List.length]. inversion Hsw as [|? ? Hi Hrest]; subst.
    rewrite IH.
    + rewrite swap_at_odd by assumption. rewrite odd_succ_negb.
      destruct (Nat.odd (List.length sw)), (perm_odd l); reflexivity.
    + eapply Permutation_NoDup; [apply swap_at_perm | exact Hnd].
    + rewrite swap_at_length. exact Hrest.
Qed.

Lemma new_Cube_Valid : Valid (new_Cube 3).
Proof.
  split; [solve_wf|]. split; [reflexivity|].
  eexists. eexists. split; [vm_compute; reflexivity|]. split; [vm_compute; reflexivity|].
  cbn [map fst snd].
  split; [repeat constructor; cbn; intuition lia|].
  split; [repeat constructor; cbn; intuition lia|].
  repeat split; reflexivity.
Qed.

(** ** Quarter turns keep a cube valid *)


Lemma twist_sum_congr (l l' : list nat) :
  Forall2 (fun a b => (a mod 3 = b mod 3)%nat) l l' ->
  (twist_sum l mod 3 = twist_sum l' mod 3)%nat.
Proof.
  induction 1 as [|a b l l' Hab _ IH]; [reflexivity|].
  cbn [twist_sum fold_right]. fold (twist_sum l). fold (twist_sum l').
  rewrite (Nat.Div0.add_mod a), (Nat.Div0.add_mod b), Hab, IH. reflexivity.
Qed.

Ltac strip_twists :=
  eapply eq_trans;
  [ apply twist_sum_congr;
    repeat first [ apply List.Forall2_nil
                 | eapply List.Forall2_cons; [cbv beta; first [apply Nat.Div0.mod_mod | reflexivity] |] ]
  | ].

Ltac twist_goal Htw :=
  strip_twists; unfold twist_sum in Htw |- *; cbn [fold_right] in Htw |- *;
  match type of Htw with
  | Nat.modulo ?S 3%nat = 0%nat =>
      match goal with
      | |- Nat.modulo ?S' 3%nat = 0%nat =>
          first [ replace S' with (S + 0 * 3)%nat by lia
                | replace S' with (S + 1 * 3)%nat by lia
                | replace S' with (S + 2 * 3)%nat by lia
                | replace S' with (S + 3 * 3)%nat by lia
                | replace S' with (S + 4 * 3)%nat by lia ];
          rewrite Nat.Div0.mod_add; exact Htw
      end
  end.

Ltac split_at_nat x r k :=
  let rec go pre post :=
    match post with
    | x :: ?t => k pre t
    | ?y :: ?t => go (pre ++ [y])%list t
    end in
  go (@nil nat) r.

Ltac perm_nats :=
  repeat match goal with
    | |- Permutation [] [] => apply perm_nil
    | |- Permutation (?x :: ?l) ?r =>
        split_at_nat x r ltac:(fun pre post =>
          let pre' := eval cbn [app] in pre in
          change r with (pre' ++ x :: post)%list;
          apply Permutation_cons_app; cbn [app])
    end.

Ltac decode_hyps :=
  repeat match goal with
  | H : all_some (_ :: _) = Some _ |- _ =>
      let a := fresh "e" in
      let r := fresh "r" in
      let Ho := fresh "Hd" in
      apply all_some_cons in H; destruct H as (a & r & Ho & H & ->); destruct a
  | H : all_some [] = Some _ |- _ => apply all_some_nil in H; subst
  end.

Ltac more_decode_hyps :=
  repeat match goal with
  | H : decode_edge (?a, ?b) = Some _ |- _ =>
      lazymatch goal with
      | _ : decode_edge (b, a) = Some _ |- _ => fail
      | _ => pose proof (decode_edge_swap _ _ _ _ H)
      end
  | H : decode_corner (?a, ?b, ?c) = Some _ |- _ =>
      lazymatch goal with
      | _ : decode_corner (b, c, a) = Some _ |- _ => fail
      | _ => let H1 := fresh "Hr" in
             let H2 := fresh "Hr" in
             destruct (decode_corner_rot _ _ _ _ _ H) as [H1 H2]
      end
  end.

Ltac rewrite_decodes :=
  repeat match goal with
  | H : decode_edge ?v = Some _ |- context [decode_edge ?v] => rewrite H
  | H : decode_corner ?v = Some _ |- context [decode_corner ?v] => rewrite H
  end.

Ltac read_views :=
  unfold cubie_edges, cubie_corners, edge_views, corner_views, centres, peek;
  cbn [faces map nth].

Ltac valid_after_turn HV esw csw :=
  let Hwf := fresh "Hwf" in let Hcen := fresh "Hcen" in
  let es := fresh "es" in let cs := fresh "cs" in
  let Hes := fresh "Hes" in let Hcs := fresh "Hcs" in
  let Hnde := fresh "Hnde" in let Hndc := fresh "Hndc" in
  let Hflip := fresh "Hflip" in let Htw := fresh "Htw" in let Hpar := fresh "Hpar" in
  destruct HV as (Hwf & Hcen & es & cs & Hes & Hcs & Hnde & Hndc & Hflip & Htw & Hpar);
  match type of Hwf with
  | well_formed ?c => name_stickers c Hwf
  end;
  revert Hcen Hes Hcs; read_views; intros Hcen Hes Hcs;
  decode_hyps; more_decode_hyps;
  cbn [map fst snd] in Hnde, Hndc, Hflip, Htw, Hpar;
  eexists; split; [vm_compute; reflexivity|];
  split; [solve_wf|];
  split; [read_views; exact Hcen|];
  eexists; eexists;
  split; [read_views; rewrite_decodes; cbn [all_some option_map]; reflexivity|];
  split; [read_views; rewrite_decodes; cbn [all_some option_map]; reflexivity|];
  cbn [map fst snd];
  split; [eapply Permutation_NoDup; [|exact Hnde]; perm_nats|];
  split; [eapply Permutation_NoDup; [|exact Hndc]; perm_nats|];
  split; [rewrite <- Hflip; unfold flip_parity; cbn [fold_right]; btauto|];
  split; [twist_goal Htw|];
  match goal with
  | |- perm_odd ?le = perm_odd ?lc =>
      match type of Hpar with
      | perm_odd ?le0 = perm_odd ?lc0 =>
          change le with (apply_swaps esw le0);
          change lc with (apply_swaps csw lc0);
          rewrite !apply_swaps_odd;
          [ rewrite Hpar; reflexivity
          | exact Hndc | repeat constructor; cbn [List.length]; lia
          | exact Hnde | repeat constructor; cbn [List.length]; lia ]
      end
  end.

Lemma Valid_quarter_U (c : Cube) :
  Valid c -> exists c', quarter_turn "U" c = (Ok tt, c') /\ Valid c'.
Proof.
  intros HV.
  valid_after_turn HV [0; 1; 2]%nat [2; 1; 0]%nat.
Qed.

Lemma Valid_quarter_D (c : Cube) :
  Valid c -> exists c', quarter_turn "D" c = (Ok tt, c') /\ Valid c'.
Proof.
  intros HV.
  valid_after_turn HV [6; 5; 4]%nat [4; 5; 6]%nat.
Qed.

Lemma Valid_quarter_F (c : Cube) :
  Valid c -> exists c', quarter_turn "F" c = (Ok tt, c') /\ Valid c'.
Proof.
  intros HV.
  valid_after_turn HV [8; 7; 6; 5; 4; 3; 2; 1; 0; 1; 2; 3; 8; 7; 6; 5; 4; 6; 5; 7; 6; 8; 7]%nat [0; 4; 3; 2; 1; 2; 3]%nat.
Qed.

Lemma Valid_quarter_B (c : Cube) :
  Valid c -> exists c', quarter_turn "B" c = (Ok tt, c') /\ Valid c'.
Proof.
  intros HV.
  valid_after_turn HV [9; 8; 7; 6; 5; 4; 3; 2; 3; 4; 5; 10; 9; 8; 7; 6; 8; 7; 9; 8; 10; 9; 10]%nat [2; 6; 5; 4; 3; 4; 5]%nat.
Qed.

Lemma Valid_quarter_L (c : Cube) :
  Valid c -> exists c', quarter_turn "L" c = (Ok tt, c') /\ Valid c'.
Proof.
  intros HV.
  valid_after_turn HV [10; 9; 8; 7; 6; 5; 4; 3; 4; 5; 6; 9; 8; 7; 9; 8; 10]%nat [1; 5; 4; 3; 2; 3; 4]%nat.
Qed.

Lemma Valid_quarter_R (c : Cube) :
  Valid c -> exists c', quarter_turn "R" c = (Ok tt, c') /\ Valid c'.
Proof.
  intros HV.
  valid_after_turn HV [7; 6; 5; 4; 3; 2; 1; 2; 3; 4; 9; 8; 7; 6; 5; 7; 6; 8; 7; 8; 9]%nat [3; 2; 1; 0; 1; 2; 6; 5; 4; 5; 6]%nat.
Qed.

Lemma Valid_quarter (key : string) (c : Cube) :
  In key FACE_LETTERS -> Valid c -> exists c', quarter_turn key c = (Ok tt, c') /\ Valid c'.
Proof.
  cbn [In FACE_LETTERS]. intros Hkey HV.
  repeat (destruct Hkey as [<- | Hkey]); try contradiction;
    auto using Valid_quarter_U, Valid_quarter_D, Valid_quarter_L, Valid_quarter_R,
      Valid_quarter_F, Valid_quarter_B.
Qed.

Lemma Valid_well_formed c : Valid c -> well_formed c.
Proof. now intros [H _]. Qed.

Lemma Valid_repeat_quarter (n : nat) (key : string) (c : Cube) :
  In key FACE_LETTERS -> Valid c ->
  exists c', repeat_n n (quarter_turn key) c = (Ok tt, c') /\ Valid c'.
Proof.
  intros Hkey. revert c. induction n as [|n IH]; intros c HV.
  - exists c. now split.
  - destruct (Valid_quarter key c Hkey HV) as (c1 & H1 & HV1).
    destruct (IH c1 HV1) as (c2 & H2 & HV2).
    exists c2. split; [|assumption]. cbn [repeat_n]. unfold bind. now rewrite H1.
Qed.

Lemma Valid_do_moves (ms : list Move) (c : Cube) :
  Forall face_move ms -> Valid c ->
  exists c', Engine.do_moves (MoveList ms) c = (Ok tt, c') /\ Valid c'.
Proof.
  intros Hms. revert c. induction Hms as [|m ms Hm Hms IH]; intros c HV.
  - exists c. now split.
  - destruct (Valid_repeat_quarter (if double m then 2 else if invert m then 3 else 1)%nat
                (face m) c Hm HV) as (c1 & H1 & HV1).
    destruct (IH c1 HV1) as (c2 & H2 & HV2).
    exists c2. split; [|assumption].
    rewrite (do_moves_face_cons _ _ _ Hm), _rotate_quarters, H1. exact H2.
Qed.

(** Every reachable cube is valid. *)
Lemma reachable_Valid (c : Cube) : reachable c -> Valid c.
Proof.
  intros (ms & Hms & Hrun).
  destruct (Valid_do_moves ms _ Hms new_Cube_Valid) as (c' & Hrun' & HV).
  rewrite Hrun in Hrun'. now injection Hrun' as ->.
Qed.

(** ** Reorientations *)

Lemma y_turns_four (c : Cube) : well_formed c -> y_turns 4 c = (Ok tt, c).
Proof. intros Hwf. name_stickers c Hwf. vm_compute. reflexivity. Qed.

Lemma y_turns_succ (t : nat) (c : Cube) :
  y_turns (S t) c
  = match _y_rotate false false c with
    | (Ok _, c') => y_turns t c'
    | other => other
    end.
Proof.
  unfold y_turns. cbn [repeat_n]. unfold bind.
  destruct (_y_rotate false false c) as [[[]|e|] c']; reflexivity.
Qed.

Lemma turned_face key : In key FACE_LETTERS -> In (turned key) FACE_LETTERS.
Proof.
  cbn [In FACE_LETTERS]. intros H.
  repeat (destruct H as [<- | H]); try contradiction; cbn; tauto.
Qed.

Lemma y_quarter_commute (key : string) (c : Cube) :
  In key FACE_LETTERS -> well_formed c ->
  exists c1 c2 c3,
    quarter_turn key c = (Ok tt, c1) /\ _y_rotate false false c1 = (Ok tt, c2)
    /\ _y_rotate false false c = (Ok tt, c3) /\ quarter_turn (turned key) c3 = (Ok tt, c2)
    /\ well_formed c1 /\ well_formed c3.
Proof.
  intros Hkey Hwf. name_stickers c Hwf. cbn [In FACE_LETTERS] in Hkey.
  repeat (destruct Hkey as [<- | Hkey]); try contradiction;
    (eexists; eexists; eexists;
     split; [vm_compute; reflexivity|];
     split; [vm_compute; reflexivity|];
     split; [vm_compute; reflexivity|];
     split; [vm_compute; reflexivity|];
     split; solve_wf).
Qed.

Lemma Valid_y_of_Valid c : Valid c -> Valid_y c.
Proof.
  intros HV. split; [now apply Valid_well_formed|].
  exists 0%nat, c. split; [lia|]. split; [reflexivity | assumption].
Qed.

Lemma turned_quarter_under_y (t : nat) (key : string) (c c0 : Cube) :
  In key FACE_LETTERS -> well_formed c ->
  y_turns t c = (Ok tt, c0) -> Valid c0 ->
  exists c1 c2, quarter_turn key c = (Ok tt, c1) /\ well_formed c1
                /\ y_turns t c1 = (Ok tt, c2) /\ Valid c2.
Proof.
  revert key c c0. induction t as [|t IH]; intros key c c0 Hkey Hwf Hy HV.
  - cbn in Hy. injection Hy as <-.
    destruct (Valid_quarter key c Hkey HV) as (c1 & H1 & HV1).
    exists c1, c1. split; [assumption|]. split; [now apply Valid_well_formed|].
    split; [reflexivity | assumption].
  - destruct (y_quarter_commute key c Hkey Hwf) as (c1 & c2 & c3 & H1 & H2 & H3 & H4 & Hwf1 & Hwf3).
    rewrite y_turns_succ, H3 in Hy.
    destruct (IH (turned key) c3 c0 (turned_face _ Hkey) Hwf3 Hy HV)
      as (c4 & c5 & H5 & Hwf4 & H6 & HV5).
    rewrite H4 in H5. injection H5 as <-.
    exists c1, c5. split; [assumption|]. split; [assumption|].
    split; [now rewrite y_turns_succ, H2 | assumption].
Qed.

Lemma Valid_y_quarter (key : string) (c : Cube) :
  In key FACE_LETTERS -> Valid_y c ->
  exists c', quarter_turn key c = (Ok tt, c') /\ Valid_y c'.
Proof.
  intros Hkey (Hwf & t & c0 & Ht & Hy & HV).
  destruct (turned_quarter_under_y t key c c0 Hkey Hwf Hy HV) as (c1 & c2 & H1 & Hwf1 & H2 & HV2).
  exists c1. split; [assumption|]. split; [assumption|]. now exists t, c2.
Qed.

Lemma Valid_y_repeat_quarter (n : nat) (key : string) (c : Cube) :
  In key FACE_LETTERS -> Valid_y c ->
  exists c', repeat_n n (quarter_turn key) c = (Ok tt, c') /\ Valid_y c'.
Proof.
  intros Hkey. revert c. induction n as [|n IH]; intros c HV.
  - exists c. now split.
  - destruct (Valid_y_quarter key c Hkey HV) as (c1 & H1 & HV1).
    destruct (IH c1 HV1) as (c2 & H2 & HV2).
    exists c2. split; [|assumption]. cbn [repeat_n]. unfold bind. now rewrite H1.
Qed.

Lemma Valid_y_reorient (c : Cube) :
  Valid_y c -> exists c', _y_rotate false false c = (Ok tt, c') /\ Valid_y c'.
Proof.
  intros (Hwf & t & c0 & Ht & Hy & HV).
  destruct (y_rotate_spec c Hwf) as (c' & Hc' & Hwf' & _).
  exists c'. split; [assumption|]. split; [assumption|].
  destruct t as [|t].
  - cbn in Hy. injection Hy as <-.
    exists 3%nat, c. split; [lia|]. split; [|assumption].
    pose proof (y_turns_four c Hwf) as H4. now rewrite y_turns_succ, Hc' in H4.
  - exists t, c0. split; [lia|]. split; [|assumption].
    now rewrite y_turns_succ, Hc' in Hy.
Qed.

Lemma Valid_y_do_moves (ms : list Move) (c : Cube) :
  Forall known_move ms -> Valid_y c ->
  exists c', Engine.do_moves (MoveList ms) c = (Ok tt, c') /\ Valid_y c'.
Proof.
  intros Hms. revert c. induction Hms as [|m ms Hm Hms IH]; intros c HV.
  - exists c. now split.
  - rewrite do_moves_cons. destruct Hm as [Hy | Hf].
    + rewrite <- Hy. cbn [String.eqb Ascii.eqb Bool.eqb].
      destruct (Valid_y_reorient c HV) as (c1 & H1 & HV1). rewrite H1. now apply IH.
    + rewrite (face_letter_not_y _ Hf), _rotate_quarters.
      destruct (Valid_y_repeat_quarter (if double m then 2 else if invert m then 3 else 1)%nat
                  (face m) c Hf HV) as (c1 & H1 & HV1).
      rewrite H1. now apply IH.
Qed.

(** With white up and green in front again, the cube is valid as it stands. *)
Lemma Valid_y_standard (c : Cube) :
  Valid_y c -> centres (faces c) = [WHITE; GREEN; ORANGE; BLUE; RED; YELLOW] -> Valid c.
Proof.
  intros (Hwf & t & c0 & Ht & Hy & HV) Hcen.
  destruct t as [|[|[|[|t]]]]; try lia.
  - cbn in Hy. now injection Hy as <-.
  - exfalso. destruct HV as (_ & Hcen0 & _). name_stickers c Hwf.
    vm_compute in Hy. injection Hy as <-. vm_compute in Hcen, Hcen0. congruence.
  - exfalso. destruct HV as (_ & Hcen0 & _). name_stickers c Hwf.
    vm_compute in Hy. injection Hy as <-. vm_compute in Hcen, Hcen0. congruence.
  - exfalso. destruct HV as (_ & Hcen0 & _). name_stickers c Hwf.
    vm_compute in Hy. injection Hy as <-. vm_compute in Hcen, Hcen0. congruence.
Qed.

(** ** Recorded moves *)

Lemma prefix_super A (m : M Cube A) : blind resize m -> blind prefix_history (super m).
Proof.
  intros _ p h. unfold super, prefix_history. cbn [base _history].
  destruct (m (base h)) as [r c]. reflexivity.
Qed.

Lemma prefix_append move : blind prefix_history (history_append move).
Proof.
  intros p h. unfold history_append, prefix_history. cbn [base _history fst snd].
  now rewrite app_assoc.
Qed.

Lemma run_after (m : M HistoryCube unit) (c c' : Cube) (hist ms : list Move) :
  blind prefix_history m ->
  m (mkHistoryCube c []) = (Ok tt, mkHistoryCube c' ms) ->
  m (mkHistoryCube c hist) = (Ok tt, mkHistoryCube c' (hist ++ ms)).
Proof.
  intros Hb Hrun. pose proof (Hb hist (mkHistoryCube c [])) as H.
  unfold prefix_history in H at 1. cbn [base _history] in H.
  rewrite app_nil_r, Hrun in H. exact H.
Qed.

Lemma y_apart_app (a b : list Move) :
  y_apart a = true -> y_apart b = true ->
  match b with m :: _ => negb (y_move m) | [] => true end = true ->
  y_apart (a ++ b) = true.
Proof.
  intros Ha Hb Hhd. induction a as [|x a IH]; [exact Hb|].
  cbn [app y_apart] in *. apply andb_prop in Ha as [Hx Ha].
  rewrite (IH Ha), andb_true_r.
  destruct a as [|x' a]; cbn [app]; [|exact Hx].
  destruct b as [|m b]; [reflexivity|].
  apply negb_true_iff in Hhd. rewrite Hhd, andb_false_r. reflexivity.
Qed.

Lemma tidy_app (a b : list Move) : tidy a = true -> tidy b = true -> tidy (a ++ b) = true.
Proof.
  unfold tidy. intros Ha Hb.
  apply andb_prop in Ha as [Ha Ha3]. apply andb_prop in Ha as [Ha1 Ha2].
  apply andb_prop in Hb as [Hb Hb3]. apply andb_prop in Hb as [Hb1 Hb2].
  rewrite forallb_app, Ha1, Hb1, (y_apart_app a b Ha2 Hb2 Hb3).
  destruct a as [|x a]; [exact Hb3 | exact Ha3].
Qed.

Lemma plain_move_known m : plain_move m = true -> known_move m.
Proof.
  unfold plain_move, known_move. intros H. apply orb_prop in H as [H | H].
  - apply andb_prop in H as [H _]. apply existsb_exists in H as (f & Hin & Heq).
    apply String.eqb_eq in Heq. rewrite Heq. now right.
  - destruct m as [f i d]. unfold Move_eqb in H. cbn [face invert double] in *.
    apply andb_prop in H as [H _]. apply andb_prop in H as [H _].
    apply String.eqb_eq in H. left. now symmetry.
Qed.

Lemma tidy_known ms : tidy ms = true -> Forall known_move ms.
Proof.
  unfold tidy. intros H. apply andb_prop in H as [H _]. apply andb_prop in H as [H _].
  rewrite forallb_forall in H. apply List.Forall_forall. intros m Hm.
  apply plain_move_known. now apply H.
Qed.

Lemma runs_seq (m1 m2 : M HistoryCube unit) (c c1 c2 : Cube) (ms1 ms2 : list Move) :
  blind prefix_history m2 ->
  runs m1 c ms1 c1 -> runs m2 c1 ms2 c2 ->
  runs (m1 ;;; m2) c (ms1 ++ ms2) c2.
Proof.
  intros Hb (H1 & R1 & T1) (H2 & R2 & T2). split; [|split].
  - unfold bind. rewrite H1. now apply run_after.
  - now rewrite do_moves_app, R1.
  - now apply tidy_app.
Qed.

Lemma runs_ret c : runs (ret tt) c [] c.
Proof. split; [|split]; reflexivity. Qed.

Lemma runs_Valid_y m c ms c' : Valid_y c -> runs m c ms c' -> Valid_y c'.
Proof.
  intros HV (_ & R & T).
  destruct (Valid_y_do_moves ms c (tidy_known ms T) HV) as (c'' & R' & HV').
  rewrite R in R'. now injection R' as <-.
Qed.

(** ** Reading a predicate back into stickers *)

Lemma Colour_eqb_eq a b : Colour_eqb a b = true -> a = b.
Proof. destruct a, b; (reflexivity || discriminate). Qed.

Lemma colours_eqb_eq a b : colours_eqb a b = true -> a = b.
Proof.
  revert b. induction a as [|x a IH]; intros [|y b] H; try discriminate; [reflexivity|].
  cbn [colours_eqb] in H. apply andb_prop in H as [H1 H2].
  apply Colour_eqb_eq in H1. apply IH in H2. now subst.
Qed.

Lemma home_after_inv rest es cs c :
  home_after rest es cs c = true ->
  exists c', Engine.do_moves (Text rest) c = (Ok tt, c')
             /\ layout es cs (faces c') = layout es cs (faces (new_Cube 3)).
Proof.
  unfold home_after, home.
  destruct (Engine.do_moves (Text rest) c) as [[[]|e|] c']; try discriminate.
  intros H. exists c'. split; [reflexivity | now apply colours_eqb_eq].
Qed.

Lemma home_centres es cs c :
  home_after "" es cs c = true -> centres (faces c) = [WHITE; GREEN; ORANGE; BLUE; RED; YELLOW].
Proof.
  intros H. apply home_after_inv in H as (c' & Hrun & Hlay).
  vm_compute in Hrun. injection Hrun as <-.
  unfold layout in Hlay.
  apply (f_equal (firstn 6)) in Hlay.
  destruct (faces c) as [u f l b r d]. cbn in Hlay |- *. exact Hlay.
Qed.

(** Substitutes the stickers an equation between lists pins down. *)
Ltac pin H :=
  lazymatch type of H with
  | (?x :: ?l) = (?y :: ?l') =>
      let E := fresh "E" in
      let T := fresh "T" in
      assert (E : x = y) by congruence;
      assert (T : l = l') by congruence;
      clear H;
      first [subst x | discriminate E | clear E];
      pin T
  | _ => clear H
  end.

Ltac pin_home H :=
  let c1 := fresh "c" in
  let Hrun := fresh "Hrun" in
  let Hlay := fresh "Hlay" in
  apply home_after_inv in H; destruct H as (c1 & Hrun & Hlay);
  vm_compute in Hrun; injection Hrun as <-;
  vm_compute in Hlay; pin Hlay.

(** ** Every piece is somewhere *)

Lemma shows_edge_inv a b v : shows_edge a b v = true -> v = (a, b) \/ v = (b, a).
Proof.
  destruct v as [x y]. unfold shows_edge, edge_eqb. cbn [fst snd]. intros H.
  apply orb_prop in H as [H | H]; apply andb_prop in H as [H1 H2];
    apply Colour_eqb_eq in H1, H2; subst; auto.
Qed.

Lemma shows_corner_inv w v :
  shows_corner w v = true ->
  let '(a, b, c) := w in v = (a, b, c) \/ v = (c, a, b) \/ v = (b, c, a).
Proof.
  destruct v as [[x y] z], w as [[a b] c]. unfold shows_corner, corner_eqb. cbn [fst snd].
  intros H. apply orb_prop in H as [H | H]; [apply orb_prop in H as [H | H]|];
    apply andb_prop in H as [H H3]; apply andb_prop in H as [H1 H2];
    apply Colour_eqb_eq in H1, H2, H3; subst; auto.
Qed.

Lemma all_some_In {A} (l : list (option A)) (r : list A) :
  all_some l = Some r -> forall a, In a r -> In (Some a) l.
Proof.
  revert r. induction l as [|[x|] l IH]; intros r H a Ha.
  - cbn in H. injection H as <-. contradiction.
  - cbn [all_some] in H. destruct (all_some l) as [r'|]; [|discriminate].
    cbn in H. injection H as <-. destruct Ha as [<- | Ha]; [now left | right; eauto].
  - discriminate.
Qed.

Lemma all_some_length {A} (l : list (option A)) (r : list A) :
  all_some l = Some r -> List.length r = List.length l.
Proof.
  revert r. induction l as [|[x|] l IH]; intros r H.
  - cbn in H. now injection H as <-.
  - cbn [all_some] in H. destruct (all_some l) as [r'|]; [|discriminate].
    cbn in H. injection H as <-. cbn. f_equal. now apply IH.
  - discriminate.
Qed.

Lemma all_some_each {A} (l : list (option A)) (r : list A) :
  all_some l = Some r -> forall a, In a r -> exists o, In o l /\ o = Some a.
Proof. intros H a Ha. exists (Some a). split; [eapply all_some_In; eauto | reflexivity]. Qed.

Lemma pigeonhole (l : list nat) (n : nat) :
  List.NoDup l -> List.length l = n -> (forall x, In x l -> (x < n)%nat) ->
  forall p, (p < n)%nat -> In p l.
Proof.
  intros Hnd Hlen Hb p Hp.
  assert (Hincl : incl (seq 0 n) l).
  { apply NoDup_length_incl; [exact Hnd | rewrite length_seq; lia |].
    intros x Hx. apply in_seq. specialize (Hb x Hx). lia. }
  apply Hincl, in_seq. lia.
Qed.

Lemma decode_edge_bound v p o : decode_edge v = Some (p, o) -> (p < 12)%nat.
Proof.
  destruct v as [[] []]; vm_compute; intros H; try discriminate H;
    injection H as <- _; repeat constructor.
Qed.

Lemma decode_corner_bound v p t : decode_corner v = Some (p, t) -> (p < 8)%nat.
Proof.
  destruct v as [[[] []] []]; vm_compute; intros H; try discriminate H;
    injection H as <- _; repeat constructor.
Qed.

Lemma decode_edge_shows v p o a b :
  decode_edge v = Some (p, o) -> nth_error edge_home p = Some (a, b) ->
  shows_edge a b v = true.
Proof.
  destruct v as [[] []]; vm_compute; intros H; try discriminate H;
    injection H as <- _; intros H; injection H as <- <-; reflexivity.
Qed.

Lemma decode_corner_shows v p t w :
  decode_corner v = Some (p, t) -> nth_error corner_home p = Some w ->
  shows_corner w v = true.
Proof.
  destruct v as [[[] []] []]; vm_compute; intros H; try discriminate H;
    injection H as <- _; intros H; injection H as <-; reflexivity.
Qed.

Lemma Valid_shows_edge (c : Cube) (a b : Colour) :
  Valid c -> In (a, b) edge_home ->
  existsb (shows_edge a b) (edge_views (faces c)) = true.
Proof.
  intros (Hwf & Hcen & es & cs & Hes & Hcs & Hnde & _) Hin.
  apply In_nth_error in Hin as (p & Hp).
  assert (Hlt : (p < 12)%nat).
  { assert (Hn : nth_error edge_home p <> None) by congruence.
    apply List.nth_error_Some in Hn. exact Hn. }
  unfold cubie_edges in Hes.
  assert (Hpin : In p (map fst es)).
  { apply (pigeonhole (map fst es) 12); [exact Hnde | | | exact Hlt].
    - rewrite length_map, (all_some_length _ _ Hes), length_map.
      destruct (faces c) as [u f l bb r d]. reflexivity.
    - intros x Hx. apply in_map_iff in Hx as ([q o] & <- & Hq).
      apply (all_some_In _ _ Hes) in Hq. apply in_map_iff in Hq as (v & Hv & _).
      now apply decode_edge_bound in Hv. }
  apply in_map_iff in Hpin as ([q o] & Hq & Hin). cbn in Hq. subst q.
  apply (all_some_In _ _ Hes) in Hin. apply in_map_iff in Hin as (v & Hv & Hin).
  apply existsb_exists. exists v. split; [exact Hin|].
  now apply (decode_edge_shows v p o).
Qed.

Lemma Valid_shows_corner (c : Cube) (w : Colour * Colour * Colour) :
  Valid c -> In w corner_home ->
  existsb (shows_corner w) (corner_views (faces c)) = true.
Proof.
  intros (Hwf & Hcen & es & cs & Hes & Hcs & _ & Hndc & _) Hin.
  apply In_nth_error in Hin as (p & Hp).
  assert (Hlt : (p < 8)%nat).
  { assert (Hn : nth_error corner_home p <> None) by congruence.
    apply List.nth_error_Some in Hn. exact Hn. }
  unfold cubie_corners in Hcs.
  assert (Hpin : In p (map fst cs)).
  { apply (pigeonhole (map fst cs) 8); [exact Hndc | | | exact Hlt].
    - rewrite length_map, (all_some_length _ _ Hcs), length_map.
      destruct (faces c) as [u f l bb r d]. reflexivity.
    - intros x Hx. apply in_map_iff in Hx as ([q o] & <- & Hq).
      apply (all_some_In _ _ Hcs) in Hq. apply in_map_iff in Hq as (v & Hv & _).
      now apply decode_corner_bound in Hv. }
  apply in_map_iff in Hpin as ([q o] & Hq & Hin). cbn in Hq. subst q.
  apply (all_some_In _ _ Hcs) in Hin. apply in_map_iff in Hin as (v & Hv & Hin).
  apply existsb_exists. exists v. split; [exact Hin|].
  now apply (decode_corner_shows v p o).
Qed.

Lemma Valid_corner_views (c : Cube) (v : Colour * Colour * Colour) :
  Valid c -> In v (corner_views (faces c)) -> decode_corner v <> None.
Proof.
  intros (Hwf & Hcen & es & cs & Hes & Hcs & _) Hin.
  unfold cubie_corners in Hcs. revert Hcs Hin.
  generalize (corner_views (faces c)). intros l. revert cs.
  induction l as [|x l IH]; intros cs Hcs Hin; [contradiction|].
  cbn [map all_some] in Hcs.
  destruct (decode_corner x) as [e|] eqn:Hx; [|discriminate].
  destruct (all_some (map decode_corner l)) as [r|] eqn:Hr; [|discriminate].
  destruct Hin as [<- | Hin]; [congruence | eauto].
Qed.

Lemma shows_edge_swap a b x y : shows_edge a b (y, x) = shows_edge a b (x, y).
Proof. unfold shows_edge, edge_eqb. cbn [fst snd]. destruct a, b, x, y; reflexivity. Qed.

Ltac in_list := solve [repeat (first [left; reflexivity | right])].

(** Turning the whole cube moves the edges around, nothing more. *)
Lemma shows_edge_turn (c c' : Cube) (a b : Colour) :
  well_formed c -> _y_rotate false false c = (Ok tt, c') ->
  existsb (shows_edge a b) (edge_views (faces c')) = true ->
  existsb (shows_edge a b) (edge_views (faces c)) = true.
Proof.
  intros Hwf Hy Hex. name_stickers c Hwf.
  vm_compute in Hy. injection Hy as <-.
  apply existsb_exists in Hex as (v & Hin & Hm).
  apply existsb_exists.
  cbn [faces edge_views peek nth In] in Hin |- *.
  repeat (destruct Hin as [<- | Hin]); try contradiction;
    match type of Hm with
    | shows_edge _ _ (?x, ?y) = true =>
        first [ exists (x, y); split; [in_list | exact Hm]
              | exists (y, x); split; [in_list | rewrite shows_edge_swap; exact Hm] ]
    end.
Qed.

Lemma Valid_y_shows_edge (c : Cube) (a b : Colour) :
  Valid_y c -> In (a, b) edge_home ->
  existsb (shows_edge a b) (edge_views (faces c)) = true.
Proof.
  intros (Hwf & t & c0 & _ & Hy & HV) Hin.
  revert c Hwf Hy. induction t as [|t IH]; intros c Hwf Hy.
  - cbn in Hy. injection Hy as <-. now apply Valid_shows_edge.
  - destruct (y_rotate_spec c Hwf) as (c1 & H1 & Hwf1 & _).
    rewrite y_turns_succ, H1 in Hy.
    apply (shows_edge_turn c c1 a b Hwf H1). now apply IH.
Qed.

(** ** The stages never look at the history *)

Lemma prefix_get_edge piece : blind prefix_history (History.get_edge piece).
Proof. apply blind_history_get_edge; [exact prefix_super | exact prefix_append]. Qed.

Lemma prefix_get_corner piece : blind prefix_history (History.get_corner piece).
Proof. apply blind_history_get_corner; [exact prefix_super | exact prefix_append]. Qed.

Lemma prefix_play alg : blind prefix_history (play alg).
Proof. apply blind_play; [exact prefix_super | exact prefix_append]. Qed.

Lemma prefix_sticker name : blind prefix_history (sticker name).
Proof. apply blind_sticker; [exact prefix_super | exact prefix_append]. Qed.

#[local] Hint Resolve prefix_get_edge prefix_get_corner prefix_play prefix_sticker : blind.

(** ** Scans *)

Lemma scan_found {S A B} (xs : list A) (query : A -> M S B) (test : B -> bool)
      (act : A -> M S bool) (view : A -> B) (h h' : S) (x : A) :
  (forall y, In y xs -> query y h = (Ok (view y), h)) ->
  find (fun y => test (view y)) xs = Some x ->
  act x h = (Ok true, h') ->
  scan xs query test act h = (Ok true, h').
Proof.
  intros Hq. unfold scan. induction xs as [|y ys IH]; [discriminate|].
  cbn [find for_break]. intros Hfind Hact.
  unfold bind at 1. unfold bind at 1. rewrite (Hq y (or_introl eq_refl)).
  destruct (test (view y)).
  - injection Hfind as ->. now rewrite Hact.
  - unfold ret at 1. apply IH; auto. intros z Hz. apply Hq. now right.
Qed.

Lemma scan_iteration {S A B} (xs : list A) (query : A -> M S B) (test : B -> bool)
      (act : A -> M S bool) (view : A -> B) (h h' : S) (x : A) :
  (forall y, In y xs -> query y h = (Ok (view y), h)) ->
  find (fun y => test (view y)) xs = Some x ->
  act x h = (Ok true, h') ->
  (scan xs query test act ;;; ret tt) h = (Ok tt, h').
Proof.
  intros Hq Hfind Hact. unfold bind.
  now rewrite (scan_found xs query test act view h h' x Hq Hfind Hact).
Qed.

Lemma edge_seen_query (h : HistoryCube) (edge : string) :
  well_formed (base h) -> In edge (dict_keys EDGE_TO_UF) ->
  History.get_edge edge h = (Ok (edge_seen h edge), h).
Proof.
  intros Hwf Hin. unfold edge_seen.
  destruct (history_get_edge_restores edge h Hin Hwf) as (info & ->). reflexivity.
Qed.

Lemma corner_seen_query (h : HistoryCube) (corner : string) :
  well_formed (base h) -> In corner (dict_keys CORNER_TO_UFR) ->
  History.get_corner corner h = (Ok (corner_seen h corner), h).
Proof.
  intros Hwf Hin. unfold corner_seen.
  destruct (history_get_corner_restores corner h Hin Hwf) as (info & ->). reflexivity.
Qed.

Lemma cross_keys_known edge : In edge (dict_keys CROSS_EDGES) -> In edge (dict_keys EDGE_TO_UF).
Proof. cbn. intuition. Qed.

Lemma pair_test_inv a b info :
  pair_test a b info = true -> dict_values info = [a; b] \/ dict_values info = [b; a].
Proof.
  unfold pair_test. intros H.
  apply orb_prop in H as [H | H]; apply colours_eqb_eq in H; auto.
Qed.

Ltac pin_pair H :=
  lazymatch type of H with
  | (?x, ?y) = (?a, ?b) =>
      let E1 := fresh "E" in
      let E2 := fresh "E" in
      assert (E1 : x = a) by congruence;
      assert (E2 : y = b) by congruence;
      clear H;
      first [subst x | discriminate E1 | clear E1];
      first [subst y | discriminate E2 | clear E2]
  end.

Ltac pin_triple H :=
  lazymatch type of H with
  | (?x, ?y, ?z) = (?a, ?b, ?c) =>
      let E1 := fresh "E" in
      let E2 := fresh "E" in
      let E3 := fresh "E" in
      assert (E1 : x = a) by congruence;
      assert (E2 : y = b) by congruence;
      assert (E3 : z = c) by congruence;
      clear H;
      first [subst x | discriminate E1 | clear E1];
      first [subst y | discriminate E2 | clear E2];
      first [subst z | discriminate E3 | clear E3]
  end.

(** The key [k] is in the list, and its piece passes the test after all. *)
Ltac try_key Hnone k :=
  let Hk := fresh "Hk" in
  pose proof (Hnone k ltac:(in_list)) as Hk; vm_compute in Hk; discriminate Hk.

Ltac refute_none Hnone :=
  first [ try_key Hnone "UF" | try_key Hnone "UL" | try_key Hnone "UR" | try_key Hnone "UB"
        | try_key Hnone "LB" | try_key Hnone "LD" | try_key Hnone "LF" | try_key Hnone "RB"
        | try_key Hnone "RD" | try_key Hnone "RF" | try_key Hnone "DB" | try_key Hnone "DF"
        | try_key Hnone "UFR" | try_key Hnone "DFR" | try_key Hnone "DBR"
        | try_key Hnone "URB" | try_key Hnone "ULF" | try_key Hnone "UBL"
        | try_key Hnone "DFL" | try_key Hnone "DBL" ].

Ltac found_edge H :=
  apply pair_test_inv in H; destruct H as [H | H]; vm_compute in H; pin H.

(** The stage, started on the symbolic cube of the goal, by evaluation. *)
Ltac run_found Hq Hfind :=
  eexists; eexists;
  split;
  [ split;
    [ eapply scan_iteration; [exact Hq | exact Hfind | vm_compute; reflexivity]
    | split; vm_compute; reflexivity ]
  | vm_compute; reflexivity ].

(** ** The cross *)

Lemma solve_cross_unfold :
  solve_cross = (for_each [BLUE; ORANGE; GREEN; RED] cross_iteration ;;; play "D2").
Proof.
  unfold solve_cross, cross_iteration, scan, pair_test, cross_act. cbv zeta.
  reflexivity.
Qed.

Lemma prefix_cross_iteration colour : blind prefix_history (cross_iteration colour).
Proof. unfold cross_iteration, scan, cross_act. blind_auto. Qed.

Lemma cross_step colour pre post (c : Cube) :
  In (colour, pre, post) cross_plan ->
  well_formed c ->
  existsb (shows_edge YELLOW colour) (edge_views (faces c)) = true ->
  home_after (fst pre) (snd pre) [] c = true ->
  exists ms c', runs (cross_iteration colour) c ms c'
                /\ home_after (fst post) (snd post) [] c' = true.
Proof.
  intros Hplan Hwf Hex Hpre.
  assert (Hq : forall y, In y (dict_keys CROSS_EDGES) ->
                         History.get_edge y (mkHistoryCube c [])
                         = (Ok (edge_seen (mkHistoryCube c []) y), mkHistoryCube c [])).
  { intros y Hy. apply edge_seen_query; auto using cross_keys_known. }
  destruct (find (fun y => pair_test colour YELLOW (edge_seen (mkHistoryCube c []) y))
              (dict_keys CROSS_EDGES)) as [x|] eqn:Hfind.
  - apply find_some in Hfind as Hx. destruct Hx as [Hin Htest].
    cbn [cross_plan In] in Hplan.
    repeat (destruct Hplan as [Hplan | Hplan]); try contradiction;
      injection Hplan as <- <- <-; cbn [fst snd] in *;
      name_stickers c Hwf; pin_home Hpre;
      cbn [dict_keys CROSS_EDGES map fst In] in Hin;
      repeat (destruct Hin as [<- | Hin]); try contradiction;
      found_edge Htest;
      unfold cross_iteration; run_found Hq Hfind.
  - exfalso. pose proof (find_none _ _ Hfind) as Hnone. cbv beta in Hnone.
    cbn [cross_plan In] in Hplan.
    repeat (destruct Hplan as [Hplan | Hplan]); try contradiction;
      injection Hplan as <- <- <-; cbn [fst snd] in *;
      name_stickers c Hwf; pin_home Hpre;
      apply existsb_exists in Hex; destruct Hex as (v & Hin & Hm);
      apply shows_edge_inv in Hm;
      cbn [faces edge_views peek nth In] in Hin;
      repeat (destruct Hin as [<- | Hin]); try contradiction;
      destruct Hm as [Hm | Hm]; pin_pair Hm; refute_none Hnone.
Qed.

Lemma play_text (alg : string) (h : HistoryCube) :
  play alg h = History.do_moves (MoveList (map parsed_token (split alg))) true h.
Proof.
  unfold play, History.do_moves, bind, super. rewrite do_moves_text.
  unfold as_moves, lift, ret. rewrite scramble_to_moves_total. reflexivity.
Qed.

Lemma play_runs (alg : string) (c c' : Cube) :
  Engine.do_moves (Text alg) c = (Ok tt, c') ->
  tidy (map parsed_token (split alg)) = true ->
  runs (play alg) c (map parsed_token (split alg)) c'.
Proof.
  intros Hrun Ht. rewrite do_moves_text in Hrun. split; [|split; assumption].
  rewrite play_text, history_do_moves_run. cbn [base _history].
  rewrite Hrun. reflexivity.
Qed.

Lemma solve_cross_runs (c : Cube) :
  Valid c ->
  exists ms c', runs solve_cross c ms c' /\ home_after "" [4; 5; 6; 7]%nat [] c' = true.
Proof.
  intros HV. rewrite solve_cross_unfold.
  assert (H0 : home_after "" [] [] c = true).
  { destruct HV as (Hwf & Hcen & _). name_stickers c Hwf.
    unfold home_after, home, layout. vm_compute in Hcen |- *.
    injection Hcen as -> -> -> -> -> ->. reflexivity. }
  apply Valid_y_of_Valid in HV.
  destruct (cross_step BLUE _ _ c ltac:(in_list) (proj1 HV)
              (Valid_y_shows_edge c YELLOW BLUE HV ltac:(in_list)) H0) as (ms1 & c1 & R1 & H1).
  pose proof (runs_Valid_y _ _ _ _ HV R1) as HV1. cbn [fst snd] in H1.
  destruct (cross_step ORANGE _ _ c1 ltac:(in_list) (proj1 HV1)
              (Valid_y_shows_edge c1 YELLOW ORANGE HV1 ltac:(in_list)) H1) as (ms2 & c2 & R2 & H2).
  pose proof (runs_Valid_y _ _ _ _ HV1 R2) as HV2. cbn [fst snd] in H2.
  destruct (cross_step GREEN _ _ c2 ltac:(in_list) (proj1 HV2)
              (Valid_y_shows_edge c2 YELLOW GREEN HV2 ltac:(in_list)) H2) as (ms3 & c3 & R3 & H3).
  pose proof (runs_Valid_y _ _ _ _ HV2 R3) as HV3. cbn [fst snd] in H3.
  destruct (cross_step RED _ _ c3 ltac:(in_list) (proj1 HV3)
              (Valid_y_shows_edge c3 YELLOW RED HV3 ltac:(in_list)) H3) as (ms4 & c4 & R4 & H4).
  pose proof (runs_Valid_y _ _ _ _ HV3 R4) as HV4. cbn [fst snd] in H4.
  assert (R5 : exists c5, runs (play "D2") c4 (map parsed_token (split "D2")) c5
                          /\ home_after "" [4; 5; 6; 7]%nat [] c5 = true).
  { destruct HV4 as (Hwf4 & _). name_stickers c4 Hwf4. pin_home H4.
    eexists. split; [apply play_runs; vm_compute; reflexivity | vm_compute; reflexivity]. }
  destruct R5 as (c5 & R5 & H5).
  exists (ms1 ++ ms2 ++ ms3 ++ ms4 ++ map parsed_token (split "D2"))%list, c5.
  split; [|exact H5].
  cbn [for_each].
  assert (Hb : forall colour, blind prefix_history (cross_iteration colour))
    by apply prefix_cross_iteration.
  assert (Rall : runs (for_each [BLUE; ORANGE; GREEN; RED] cross_iteration) c
                   (ms1 ++ ms2 ++ ms3 ++ ms4 ++ []) c4).
  { cbn [for_each].
    apply (runs_seq _ _ c c1 c4); [blind_auto | exact R1 |].
    apply (runs_seq _ _ c1 c2 c4); [blind_auto | exact R2 |].
    apply (runs_seq _ _ c2 c3 c4); [blind_auto | exact R3 |].
    apply (runs_seq _ _ c3 c4 c4); [blind_auto | exact R4 | apply runs_ret]. }
  rewrite app_nil_r in Rall.
  replace (ms1 ++ ms2 ++ ms3 ++ ms4 ++ map parsed_token (split "D2"))%list
    with ((ms1 ++ ms2 ++ ms3 ++ ms4) ++ map parsed_token (split "D2"))%list
    by (now rewrite <- !app_assoc).
  apply (runs_seq _ _ c c4 c5); [blind_auto | exact Rall | exact R5].
Qed.

#[local] Hint Resolve prefix_get_edge prefix_get_corner prefix_play prefix_sticker
  prefix_cross_iteration : blind.

(** ** The corners of the first layer *)

Lemma solve_corners_unfold :
  solve_corners
  = for_each [(GREEN, RED); (BLUE, RED); (BLUE, ORANGE); (GREEN, ORANGE)] corner_iteration.
Proof.
  unfold solve_corners, corner_iteration, scan, triple_test, corner_act. cbv zeta.
  reflexivity.
Qed.

Lemma prefix_corner_iteration colours : blind prefix_history (corner_iteration colours).
Proof. destruct colours. unfold corner_iteration, scan, corner_act. blind_auto. Qed.

Lemma corner_keys_known k : In k (dict_keys CORNERS) -> In k (dict_keys CORNER_TO_UFR).
Proof. cbn. intuition. Qed.

Lemma middle_keys_known k : In k (dict_keys MIDDLE_EDGES) -> In k (dict_keys EDGE_TO_UF).
Proof. cbn. intuition. Qed.

Lemma triple_test_inv a b x y z :
  (colour_in a [x; y; z] && colour_in b [x; y; z] && colour_in YELLOW [x; y; z]) = true ->
  Colour_eqb a b = false -> Colour_eqb a YELLOW = false -> Colour_eqb b YELLOW = false ->
  In [x; y; z] [[YELLOW; a; b]; [YELLOW; b; a]; [a; YELLOW; b]; [b; YELLOW; a];
                [a; b; YELLOW]; [b; a; YELLOW]].
Proof.
  destruct a, b; intros H Hab Ha Hb; try discriminate Hab; try discriminate Ha;
    try discriminate Hb; clear Hab Ha Hb;
    destruct x, y, z; try discriminate H; in_list.
Qed.

Lemma Valid_corner_slots (c : Cube) :
  Valid c -> forallb valid_corner (corner_views (faces c)) = true.
Proof.
  intros HV. apply forallb_forall. intros v Hv. unfold valid_corner.
  pose proof (Valid_corner_views c v HV Hv).
  destruct (decode_corner v); congruence.
Qed.

Ltac split_slots H :=
  repeat (let Hs := fresh "Hslot" in apply andb_prop in H; destruct H as [Hs H]).

Ltac prune_invalid :=
  repeat match goal with
         | H : valid_corner _ = true |- _ => vm_compute in H; try discriminate H
         end.

Ltac found_corner H :=
  unfold triple_test in H;
  match type of H with
  | context [dict_values ?info] =>
      let vals := eval vm_compute in (dict_values info) in
      replace (dict_values info) with vals in H by (vm_compute; reflexivity)
  end;
  apply triple_test_inv in H; [| reflexivity ..];
  cbn [In] in H;
  repeat (destruct H as [H | H]); try contradiction;
  symmetry in H; pin H; prune_invalid.

Lemma corner_step colour1 colour2 w pre post (c : Cube) :
  In (colour1, colour2, w, pre, post) corner_plan ->
  well_formed c ->
  forallb valid_corner (corner_views (faces c)) = true ->
  existsb (shows_corner w) (corner_views (faces c)) = true ->
  home_after (fst pre) [4; 5; 6; 7]%nat (snd pre) c = true ->
  exists ms c', runs (corner_iteration (colour1, colour2)) c ms c'
                /\ home_after (fst post) [4; 5; 6; 7]%nat (snd post) c' = true.
Proof.
  intros Hplan Hwf Hval Hex Hpre.
  assert (Hq : forall y, In y (dict_keys CORNERS) ->
                         History.get_corner y (mkHistoryCube c [])
                         = (Ok (corner_seen (mkHistoryCube c []) y), mkHistoryCube c [])).
  { intros y Hy. apply corner_seen_query; auto using corner_keys_known. }
  destruct (find (fun y => triple_test colour1 colour2 (corner_seen (mkHistoryCube c []) y))
              (dict_keys CORNERS)) as [x|] eqn:Hfind.
  - apply find_some in Hfind as Hx. destruct Hx as [Hin Htest].
    cbn [corner_plan In] in Hplan.
    repeat (destruct Hplan as [Hplan | Hplan]); try contradiction;
      injection Hplan as <- <- <- <- <-; cbn [fst snd] in *;
      name_stickers c Hwf; pin_home Hpre;
      cbn [faces corner_views peek nth forallb] in Hval; split_slots Hval;
      cbn [dict_keys CORNERS map fst In] in Hin;
      repeat (destruct Hin as [<- | Hin]); try contradiction;
      found_corner Htest;
      unfold corner_iteration; run_found Hq Hfind.
  - exfalso. pose proof (find_none _ _ Hfind) as Hnone. cbv beta in Hnone.
    cbn [corner_plan In] in Hplan.
    repeat (destruct Hplan as [Hplan | Hplan]); try contradiction;
      injection Hplan as <- <- <- <- <-; cbn [fst snd] in *;
      name_stickers c Hwf; pin_home Hpre;
      apply existsb_exists in Hex; destruct Hex as (v & Hin & Hm);
      apply shows_corner_inv in Hm;
      cbn [faces corner_views peek nth In] in Hin;
      repeat (destruct Hin as [<- | Hin]); try contradiction;
      destruct Hm as [Hm | [Hm | Hm]]; pin_triple Hm; refute_none Hnone.
Qed.

Lemma home_after_standard rest es cs (c : Cube) :
  In rest [""; "D'"; "D' D'"; "D' D' D'"] -> well_formed c ->
  home_after rest es cs c = true ->
  centres (faces c) = [WHITE; GREEN; ORANGE; BLUE; RED; YELLOW].
Proof.
  intros Hin Hwf H. apply home_after_inv in H as (c' & Hrun & Hlay).
  name_stickers c Hwf. unfold layout in Hlay.
  apply (f_equal (firstn 6)) in Hlay.
  cbn [In] in Hin.
  repeat (destruct Hin as [<- | Hin]); try contradiction;
    vm_compute in Hrun; injection Hrun as <-; vm_compute in Hlay;
    vm_compute; exact Hlay.
Qed.

Lemma corner_next (c c' : Cube) ms m rest es cs :
  Valid c -> runs m c ms c' -> In rest [""; "D'"; "D' D'"; "D' D' D'"] ->
  home_after rest es cs c' = true -> Valid c'.
Proof.
  intros HV R Hin H.
  pose proof (runs_Valid_y _ _ _ _ (Valid_y_of_Valid c HV) R) as HV'.
  apply Valid_y_standard; [exact HV'|].
  apply (home_after_standard rest es cs c' Hin (proj1 HV') H).
Qed.

Lemma solve_corners_runs (c : Cube) :
  Valid c -> home_after "" [4; 5; 6; 7]%nat [] c = true ->
  exists ms c', runs solve_corners c ms c'
                /\ home_after "" [4; 5; 6; 7]%nat [4; 5; 6; 7]%nat c' = true.
Proof.
  intros HV H0. rewrite solve_corners_unfold.
  destruct (corner_step GREEN RED (YELLOW, GREEN, RED) _ _ c ltac:(in_list)
              (Valid_well_formed c HV) (Valid_corner_slots c HV)
              (Valid_shows_corner c (YELLOW, GREEN, RED) HV ltac:(in_list)) H0)
    as (ms1 & c1 & R1 & H1).
  cbn [fst snd] in H1. pose proof (corner_next _ _ _ _ "D' D' D'" _ _ HV R1 ltac:(in_list) H1) as HV1.
  destruct (corner_step BLUE RED (YELLOW, RED, BLUE) _ _ c1 ltac:(in_list)
              (Valid_well_formed c1 HV1) (Valid_corner_slots c1 HV1)
              (Valid_shows_corner c1 (YELLOW, RED, BLUE) HV1 ltac:(in_list)) H1)
    as (ms2 & c2 & R2 & H2).
  cbn [fst snd] in H2. pose proof (corner_next _ _ _ _ "D' D'" _ _ HV1 R2 ltac:(in_list) H2) as HV2.
  destruct (corner_step BLUE ORANGE (YELLOW, BLUE, ORANGE) _ _ c2 ltac:(in_list)
              (Valid_well_formed c2 HV2) (Valid_corner_slots c2 HV2)
              (Valid_shows_corner c2 (YELLOW, BLUE, ORANGE) HV2 ltac:(in_list)) H2)
    as (ms3 & c3 & R3 & H3).
  cbn [fst snd] in H3. pose proof (corner_next _ _ _ _ "D'" _ _ HV2 R3 ltac:(in_list) H3) as HV3.
  destruct (corner_step GREEN ORANGE (YELLOW, ORANGE, GREEN) _ _ c3 ltac:(in_list)
              (Valid_well_formed c3 HV3) (Valid_corner_slots c3 HV3)
              (Valid_shows_corner c3 (YELLOW, ORANGE, GREEN) HV3 ltac:(in_list)) H3)
    as (ms4 & c4 & R4 & H4).
  cbn [fst snd] in H4.
  exists (ms1 ++ ms2 ++ ms3 ++ ms4 ++ [])%list, c4. split; [|exact H4].
  pose proof prefix_corner_iteration as Hb.
  cbn [for_each].
  apply (runs_seq _ _ c c1 c4); [blind_auto | exact R1 |].
  apply (runs_seq _ _ c1 c2 c4); [blind_auto | exact R2 |].
  apply (runs_seq _ _ c2 c3 c4); [blind_auto | exact R3 |].
  apply (runs_seq _ _ c3 c4 c4); [blind_auto | exact R4 | apply runs_ret].
Qed.

(** ** The edges of the middle layer *)

Lemma solve_middle_edges_unfold :
  solve_middle_edges
  = for_each [(GREEN, RED); (RED, BLUE); (BLUE, ORANGE); (ORANGE, GREEN)] middle_iteration.
Proof.
  unfold solve_middle_edges, middle_iteration, scan, pair_test, middle_act. cbv zeta.
  reflexivity.
Qed.

Lemma prefix_middle_iteration colours : blind prefix_history (middle_iteration colours).
Proof. destruct colours. unfold middle_iteration, scan, middle_act. blind_auto. Qed.

Lemma Valid_y_shows_edge_rev (c : Cube) (a b : Colour) :
  Valid_y c -> In (b, a) edge_home ->
  existsb (shows_edge a b) (edge_views (faces c)) = true.
Proof.
  intros HV Hin. pose proof (Valid_y_shows_edge c b a HV Hin) as H.
  apply existsb_exists in H as (v & Hv & Hm). apply existsb_exists.
  exists v. split; [exact Hv|]. unfold shows_edge in *. now rewrite orb_comm.
Qed.

Lemma middle_step colour1 colour2 pre post (c : Cube) :
  In (colour1, colour2, pre, post) middle_plan ->
  well_formed c ->
  existsb (shows_edge colour1 colour2) (edge_views (faces c)) = true ->
  home_after (fst pre) (snd pre) [4; 5; 6; 7]%nat c = true ->
  exists ms c', runs (middle_iteration (colour1, colour2)) c ms c'
                /\ home_after (fst post) (snd post) [4; 5; 6; 7]%nat c' = true.
Proof.
  intros Hplan Hwf Hex Hpre.
  assert (Hq : forall y, In y (dict_keys MIDDLE_EDGES) ->
                         History.get_edge y (mkHistoryCube c [])
                         = (Ok (edge_seen (mkHistoryCube c []) y), mkHistoryCube c [])).
  { intros y Hy. apply edge_seen_query; auto using middle_keys_known. }
  destruct (find (fun y => pair_test colour1 colour2 (edge_seen (mkHistoryCube c []) y))
              (dict_keys MIDDLE_EDGES)) as [x|] eqn:Hfind.
  - apply find_some in Hfind as Hx. destruct Hx as [Hin Htest].
    cbn [middle_plan In] in Hplan.
    repeat (destruct Hplan as [Hplan | Hplan]); try contradiction;
      injection Hplan as <- <- <- <-; cbn [fst snd] in *;
      name_stickers c Hwf; pin_home Hpre;
      cbn [dict_keys MIDDLE_EDGES map fst In] in Hin;
      repeat (destruct Hin as [<- | Hin]); try contradiction;
      found_edge Htest;
      unfold middle_iteration; run_found Hq Hfind.
  - exfalso. pose proof (find_none _ _ Hfind) as Hnone. cbv beta in Hnone.
    cbn [middle_plan In] in Hplan.
    repeat (destruct Hplan as [Hplan | Hplan]); try contradiction;
      injection Hplan as <- <- <- <-; cbn [fst snd] in *;
      name_stickers c Hwf; pin_home Hpre;
      apply existsb_exists in Hex; destruct Hex as (v & Hin & Hm);
      apply shows_edge_inv in Hm;
      cbn [faces edge_views peek nth In] in Hin;
      repeat (destruct Hin as [<- | Hin]); try contradiction;
      destruct Hm as [Hm | Hm]; pin_pair Hm; refute_none Hnone.
Qed.

Lemma solve_middle_edges_runs (c : Cube) :
  Valid c -> home_after "" [4; 5; 6; 7]%nat [4; 5; 6; 7]%nat c = true ->
  exists ms c', runs solve_middle_edges c ms c'
                /\ home_after "" [4; 5; 6; 7; 8; 9; 10; 11]%nat [4; 5; 6; 7]%nat c' = true.
Proof.
  intros HV0 H0. rewrite solve_middle_edges_unfold.
  pose proof (Valid_y_of_Valid c HV0) as HV.
  destruct (middle_step GREEN RED _ _ c ltac:(in_list) (proj1 HV)
              (Valid_y_shows_edge c GREEN RED HV ltac:(in_list)) H0)
    as (ms1 & c1 & R1 & H1).
  cbn [fst snd] in H1. pose proof (runs_Valid_y _ _ _ _ HV R1) as HV1.
  destruct (middle_step RED BLUE _ _ c1 ltac:(in_list) (proj1 HV1)
              (Valid_y_shows_edge_rev c1 RED BLUE HV1 ltac:(in_list)) H1)
    as (ms2 & c2 & R2 & H2).
  cbn [fst snd] in H2. pose proof (runs_Valid_y _ _ _ _ HV1 R2) as HV2.
  destruct (middle_step BLUE ORANGE _ _ c2 ltac:(in_list) (proj1 HV2)
              (Valid_y_shows_edge c2 BLUE ORANGE HV2 ltac:(in_list)) H2)
    as (ms3 & c3 & R3 & H3).
  cbn [fst snd] in H3. pose proof (runs_Valid_y _ _ _ _ HV2 R3) as HV3.
  destruct (middle_step ORANGE GREEN _ _ c3 ltac:(in_list) (proj1 HV3)
              (Valid_y_shows_edge_rev c3 ORANGE GREEN HV3 ltac:(in_list)) H3)
    as (ms4 & c4 & R4 & H4).
  cbn [fst snd] in H4.
  exists (ms1 ++ ms2 ++ ms3 ++ ms4 ++ [])%list, c4. split; [|exact H4].
  pose proof prefix_middle_iteration as Hb.
  cbn [for_each].
  apply (runs_seq _ _ c c1 c4); [blind_auto | exact R1 |].
  apply (runs_seq _ _ c1 c2 c4); [blind_auto | exact R2 |].
  apply (runs_seq _ _ c2 c3 c4); [blind_auto | exact R3 |].
  apply (runs_seq _ _ c3 c4 c4); [blind_auto | exact R4 | apply runs_ret].
Qed.

(** ** What a valid cube with two solved layers looks like *)

Lemma edge_slot_cases x y p o :
  decode_edge (x, y) = Some (p, o) -> (p < 4)%nat -> In (x, y, p, o) u_edge_table.
Proof.
  destruct x, y; vm_compute; intros H; try discriminate H;
    injection H as <- <-; intros Hlt; first [in_list | exfalso; lia].
Qed.

Lemma corner_slot_cases x y z p t :
  decode_corner (x, y, z) = Some (p, t) -> (p < 4)%nat -> In (x, y, z, p, t) u_corner_table.
Proof.
  destruct x, y, z; vm_compute; intros H; try discriminate H;
    injection H as <- <-; intros Hlt; first [in_list | exfalso; lia].
Qed.

Lemma NoDup_low4_edges a b c d :
  List.NoDup [a; b; c; d; 4; 5; 6; 7; 8; 9; 10; 11]%nat ->
  (a < 12)%nat -> (b < 12)%nat -> (c < 12)%nat -> (d < 12)%nat -> low4 a b c d.
Proof.
  intros H Ha Hb Hc Hd.
  repeat (let Hn := fresh "Hn" in apply NoDup_cons_iff in H; destruct H as [Hn H]).
  cbn [In] in *. unfold low4. lia.
Qed.

Lemma NoDup_low4_corners a b c d :
  List.NoDup [a; b; c; d; 4; 5; 6; 7]%nat ->
  (a < 8)%nat -> (b < 8)%nat -> (c < 8)%nat -> (d < 8)%nat -> low4 a b c d.
Proof.
  intros H Ha Hb Hc Hd.
  repeat (let Hn := fresh "Hn" in apply NoDup_cons_iff in H; destruct H as [Hn H]).
  cbn [In] in *. unfold low4. lia.
Qed.

Ltac take_edge Hes p o Hd :=
  lazymatch type of Hes with
  | context [decode_edge (?a, ?b)] =>
      revert Hes; destruct (decode_edge (a, b)) as [[p o]|] eqn:Hd;
      intros Hes; [|cbn [all_some option_map] in Hes; discriminate Hes]
  end.

Ltac take_corner Hcs p o Hd :=
  lazymatch type of Hcs with
  | context [decode_corner (?a, ?b, ?c)] =>
      revert Hcs; destruct (decode_corner (a, b, c)) as [[p o]|] eqn:Hd;
      intros Hcs; [|cbn [all_some option_map] in Hcs; discriminate Hcs]
  end.

Lemma LL_facts (c : Cube) :
  Valid c -> f2l c = true ->
  exists p0 o0 p1 o1 p2 o2 p3 o3 q0 t0 q1 t1 q2 t2 q3 t3,
    map decode_edge (firstn 4 (edge_views (faces c)))
    = [Some (p0, o0); Some (p1, o1); Some (p2, o2); Some (p3, o3)]
    /\ map decode_corner (firstn 4 (corner_views (faces c)))
       = [Some (q0, t0); Some (q1, t1); Some (q2, t2); Some (q3, t3)]
    /\ low4 p0 p1 p2 p3 /\ low4 q0 q1 q2 q3
    /\ flip_parity [o0; o1; o2; o3; false; false; false; false; false; false; false; false]
       = false
    /\ (twist_sum [t0; t1; t2; t3; 0; 0; 0; 0] mod 3 = 0)%nat
    /\ perm_odd [p0; p1; p2; p3; 4; 5; 6; 7; 8; 9; 10; 11]%nat
       = perm_odd [q0; q1; q2; q3; 4; 5; 6; 7]%nat.
Proof.
  intros (Hwf & Hcen & es & cs & Hes & Hcs & Hnde & Hndc & Hflip & Htw & Hpar) Hf.
  unfold f2l in Hf. name_stickers c Hwf. pin_home Hf.
  unfold cubie_edges in Hes. unfold cubie_corners in Hcs.
  cbn [faces edge_views corner_views map peek nth firstn] in Hes, Hcs |- *.
  take_edge Hes p0 o0 Hd0. take_edge Hes p1 o1 Hd1.
  take_edge Hes p2 o2 Hd2. take_edge Hes p3 o3 Hd3.
  take_corner Hcs q0 t0 He0. take_corner Hcs q1 t1 He1.
  take_corner Hcs q2 t2 He2. take_corner Hcs q3 t3 He3.
  vm_compute in Hes. injection Hes as <-.
  vm_compute in Hcs. injection Hcs as <-.
  cbn [map fst snd] in Hnde, Hndc, Hflip, Htw, Hpar.
  do 16 eexists.
  split; [reflexivity|]. split; [reflexivity|].
  split; [apply NoDup_low4_edges; eauto using decode_edge_bound|].
  split; [apply NoDup_low4_corners; eauto using decode_corner_bound|].
  split; [exact Hflip|]. split; [exact Htw | exact Hpar].
Qed.

(** ** Recorded moves replay *)

Lemma replays_same_state {A} (m : M HistoryCube A) :
  (forall h, well_formed (base h) -> exists r, m h = (r, h)) ->
  replays (fun _ => True) m.
Proof.
  intros Hm h Hwf. destruct (Hm h Hwf) as (r & ->). exists []. cbn [fst snd].
  rewrite app_nil_r. repeat split; auto.
Qed.

Lemma replays_ret {A} (P : A -> Prop) (a : A) : P a -> replays P (ret a).
Proof.
  intros Ha h Hwf. exists []. cbn [ret fst snd]. rewrite app_nil_r.
  split; [reflexivity|]. split; [reflexivity|]. split; [assumption|].
  intros a' E. now injection E as <-.
Qed.

Lemma replays_lift {A} (P : A -> Prop) (r : res A) :
  (forall a, r = Ok a -> P a) -> replays P (lift r).
Proof.
  intros Hr h Hwf. exists []. cbn [lift fst snd]. rewrite app_nil_r.
  split; [reflexivity|]. split; [reflexivity|]. split; [assumption|]. exact Hr.
Qed.

Lemma replays_raise {A} (P : A -> Prop) (e : exn) : replays P (@raise HistoryCube A e).
Proof. apply (replays_lift P (Raise e)). discriminate. Qed.

Lemma replays_out_of_fuel {A} (P : A -> Prop) : replays P (@out_of_fuel HistoryCube A).
Proof. apply (replays_lift P OutOfFuel). discriminate. Qed.

Lemma replays_weaken {A} (P Q : A -> Prop) (m : M HistoryCube A) :
  replays P m -> (forall a, P a -> Q a) -> replays Q m.
Proof.
  intros Hm HPQ h Hwf. destruct (Hm h Hwf) as (ms & H1 & H2 & H3 & H4).
  exists ms. repeat split; auto.
Qed.

Lemma replays_bind {A B} (P : A -> Prop) (Q : B -> Prop)
      (m : M HistoryCube A) (k : A -> M HistoryCube B) :
  replays P m -> (forall a, P a -> replays Q (k a)) -> replays Q (bind m k).
Proof.
  intros Hm Hk h Hwf. destruct (Hm h Hwf) as (ms & H1 & H2 & H3 & H4).
  unfold bind. destruct (m h) as [[a|e|] h1] eqn:E; cbn [fst snd] in *.
  - destruct (Hk a (H4 a eq_refl) h1 H3) as (ms' & K1 & K2 & K3 & K4).
    exists (ms ++ ms')%list. rewrite K1, H1, app_assoc. split; [reflexivity|].
    rewrite do_moves_app, H2. auto.
  - exists ms. repeat split; auto. discriminate.
  - exists ms. repeat split; auto. discriminate.
Qed.

Lemma replays_for_each {A} (xs : list A) (body : A -> M HistoryCube unit) :
  (forall x, replays (fun _ => True) (body x)) ->
  replays (fun _ => True) (for_each xs body).
Proof.
  intros Hb. induction xs as [|x xs IH]; [now apply replays_ret|].
  cbn [for_each]. apply (replays_bind (fun _ => True)); [apply Hb | intros _ _; exact IH].
Qed.

Lemma replays_for_break {A} (xs : list A) (body : A -> M HistoryCube bool) :
  (forall x, replays (fun _ => True) (body x)) ->
  replays (fun _ => True) (for_break xs body).
Proof.
  intros Hb. induction xs as [|x xs IH]; [now apply replays_ret|].
  cbn [for_break]. apply (replays_bind (fun _ => True)); [apply Hb|].
  intros [] _; [now apply replays_ret | exact IH].
Qed.

Lemma replays_while (fuel : nat) (cond : M HistoryCube bool) (body : M HistoryCube unit) :
  replays (fun _ => True) cond -> replays (fun _ => True) body ->
  replays (fun _ => True) (while_ fuel cond body).
Proof.
  intros Hc Hb. induction fuel as [|fuel IH]; [apply replays_out_of_fuel|].
  cbn [while_]. apply (replays_bind (fun _ => True)); [exact Hc|].
  intros [] _; [|now apply replays_ret].
  apply (replays_bind (fun _ => True)); [exact Hb | intros _ _; exact IH].
Qed.

Lemma known_text_moves (s : string) :
  known_text s = true -> Forall known_move (map parsed_token (split s)).
Proof.
  unfold known_text. rewrite forallb_forall. intros H.
  apply List.Forall_forall. intros m Hm. specialize (H m Hm).
  apply existsb_exists in H as (f & Hf & Heq). apply String.eqb_eq in Heq.
  unfold known_move. now rewrite Heq.
Qed.

Lemma replays_play (alg : string) :
  known_text alg = true -> replays (fun _ => True) (play alg).
Proof.
  intros Hk h Hwf. apply known_text_moves in Hk.
  destruct (do_moves_spec _ (base h) Hk Hwf) as (c' & Hrun & Hwf' & _).
  exists (map parsed_token (split alg)).
  rewrite play_text, history_do_moves_run, Hrun. cbn [fst snd base _history].
  repeat split; auto.
Qed.

Lemma dict_get_missing {V} (d : list (string * V)) (k : string) :
  dict_mem d k = false -> dict_get d k = Raise KeyError.
Proof.
  unfold dict_mem. induction d as [|[k' v] d IH]; [reflexivity|].
  cbn [existsb dict_get fst]. destruct (String.eqb k' k); [discriminate | exact IH].
Qed.

Lemma dict_get_value {V} (d : list (string * V)) (k : string) (v : V) :
  dict_get d k = Ok v -> In v (dict_values d).
Proof.
  induction d as [|[k' v'] d IH]; [discriminate|].
  cbn [dict_get dict_values map snd]. destruct (String.eqb k' k).
  - intros H. injection H as <-. now left.
  - intros H. right. now apply IH.
Qed.

Lemma get_edge_same_state (piece : string) (h : HistoryCube) :
  well_formed (base h) -> exists r, History.get_edge piece h = (r, h).
Proof.
  intros Hwf. destruct (dict_mem EDGE_TO_UF piece) eqn:Hm.
  - destruct (history_get_edge_restores piece h (dict_mem_In _ _ Hm) Hwf) as (info & ->).
    eexists. reflexivity.
  - unfold History.get_edge, bind, lift. rewrite (dict_get_missing _ _ Hm).
    eexists. reflexivity.
Qed.

Lemma get_corner_same_state (piece : string) (h : HistoryCube) :
  well_formed (base h) -> exists r, History.get_corner piece h = (r, h).
Proof.
  intros Hwf. destruct (dict_mem CORNER_TO_UFR piece) eqn:Hm.
  - destruct (history_get_corner_restores piece h (dict_mem_In _ _ Hm) Hwf) as (info & ->).
    eexists. reflexivity.
  - unfold History.get_corner, bind, lift. rewrite (dict_get_missing _ _ Hm).
    eexists. reflexivity.
Qed.

Lemma replays_get_edge piece : replays (fun _ => True) (History.get_edge piece).
Proof. apply replays_same_state. intros h. apply get_edge_same_state. Qed.

Lemma replays_get_corner piece : replays (fun _ => True) (History.get_corner piece).
Proof. apply replays_same_state. intros h. apply get_corner_same_state. Qed.

Lemma replays_sticker name : replays (fun _ => True) (sticker name).
Proof. apply replays_same_state. intros h. apply history_get_sticker_restores. Qed.

Lemma replays_algs (d : list (string * string)) (key : string) :
  forallb known_text (dict_values d) = true ->
  replays (fun s => known_text s = true) (lift (dict_get d key)).
Proof.
  intros Hd. apply replays_lift. intros alg Halg.
  rewrite forallb_forall in Hd. apply Hd. now apply (dict_get_value d key).
Qed.

Create HintDb replays.
#[local] Hint Resolve replays_get_edge replays_get_corner replays_sticker
  replays_raise replays_out_of_fuel : replays.

(** Goes through a stage along its binds and branches. *)
Ltac replays_step :=
  match goal with
  | |- forall _, _ => intro
  | |- replays _ (bind (lift (dict_get _ _)) _) =>
      apply (replays_bind (fun s => known_text s = true));
      [apply replays_algs; vm_compute; reflexivity|]
  | |- replays _ (@bind _ string _ _ _) =>
      apply (replays_bind (fun s => known_text s = true))
  | |- replays _ (bind _ _) => apply (replays_bind (fun _ => True))
  | |- replays _ (for_each _ _) => apply replays_for_each
  | |- replays _ (for_break _ _) => apply replays_for_break
  | |- replays _ (while_ _ _ _) => apply replays_while
  | |- replays _ (ret _) => apply replays_ret; first [exact I | vm_compute; reflexivity]
  | |- replays (fun _ => True) (lift _) => apply replays_lift; intros; exact I
  | |- replays _ (play (if ?b then _ else _)) => destruct b
  | |- replays _ (play _) =>
      apply replays_play; first [assumption | vm_compute; reflexivity]
  | |- replays _ (if ?b then _ else _) => destruct b
  | |- replays _ (match ?x with _ => _ end) => destruct x
  | |- replays _ ((fun x => _) _) => cbv beta
  | |- _ => solve [auto with replays]
  end.

Ltac replays_auto := cbv zeta; repeat replays_step.

Lemma replays_solve_cross : replays (fun _ => True) solve_cross.
Proof. unfold solve_cross. replays_auto. Qed.

Lemma replays_solve_corners : replays (fun _ => True) solve_corners.
Proof. unfold solve_corners. replays_auto. Qed.

Lemma replays_solve_middle_edges : replays (fun _ => True) solve_middle_edges.
Proof. unfold solve_middle_edges. replays_auto. Qed.

Lemma replays_solve_eoll : replays (fun _ => True) solve_eoll.
Proof. unfold solve_eoll. replays_auto. Qed.

Lemma replays_play_ocll name : replays (fun _ => True) (play_ocll name).
Proof. unfold play_ocll. replays_auto. Qed.

#[local] Hint Resolve replays_play_ocll : replays.

Lemma replays_solve_ocll fuel : replays (fun _ => True) (solve_ocll fuel).
Proof. unfold solve_ocll, get_top_layer_corners. replays_auto. Qed.

Lemma replays_solve_cpll : replays (fun _ => True) solve_cpll.
Proof. unfold solve_cpll. replays_auto. Qed.

Lemma replays_front_edge_matches_corner :
  replays (fun _ => True) front_edge_matches_corner.
Proof. unfold front_edge_matches_corner. replays_auto. Qed.

#[local] Hint Resolve replays_front_edge_matches_corner : replays.

Lemma replays_count_solved_edges n k : replays (fun _ => True) (count_solved_edges n k).
Proof.
  revert k. induction n as [|n IH]; intros k; cbn [count_solved_edges]; replays_auto.
Qed.

#[local] Hint Resolve replays_count_solved_edges : replays.

Lemma replays_solve_epll fuel : replays (fun _ => True) (solve_epll fuel).
Proof. unfold solve_epll. replays_auto. Qed.

#[local] Hint Resolve replays_solve_cross replays_solve_corners replays_solve_middle_edges
  replays_solve_eoll replays_solve_ocll replays_solve_cpll replays_solve_epll : replays.

Lemma replays_solve_stages fuel : replays (fun _ => True) (solve_stages fuel).
Proof. unfold solve_stages. replays_auto. Qed.

(** ** The cases of the last layer *)

Lemma in_quads {A} (l : list A) (a b c d : A) :
  In a l -> In b l -> In c l -> In d l -> In [a; b; c; d] (quads l).
Proof.
  intros Ha Hb Hc Hd. unfold quads.
  apply in_flat_map. exists a. split; [assumption|].
  apply in_flat_map. exists b. split; [assumption|].
  apply in_flat_map. exists c. split; [assumption|].
  apply in_map_iff. exists d. now split.
Qed.

Lemma low4_low4b a b c d : low4 a b c d -> low4b a b c d = true.
Proof.
  intros (A & B & C & D & N1 & N2 & N3 & N4 & N5 & N6). unfold low4b.
  apply Nat.ltb_lt in A, B, C, D.
  apply Nat.eqb_neq in N1, N2, N3, N4, N5, N6.
  now rewrite A, B, C, D, N1, N2, N3, N4, N5, N6.
Qed.

Lemma u_edge_view x y p o : In (x, y, p, o) u_edge_table -> In (x, y) u_edge_views.
Proof.
  intros H. unfold u_edge_views.
  apply (in_map (fun r => (fst (fst (fst r)), snd (fst (fst r))))) in H. exact H.
Qed.

Lemma u_corner_view x y z p t :
  In (x, y, z, p, t) u_corner_table -> In (x, y, z) u_corner_views.
Proof.
  intros H. unfold u_corner_views.
  apply (in_map (fun r => fst (fst r))) in H. exact H.
Qed.

Ltac split_four H H0 H1 H2 H3 :=
  lazymatch type of H with
  | [?a0; ?a1; ?a2; ?a3] = [?b0; ?b1; ?b2; ?b3] =>
      assert (H0 : a0 = b0) by congruence;
      assert (H1 : a1 = b1) by congruence;
      assert (H2 : a2 = b2) by congruence;
      assert (H3 : a3 = b3) by congruence;
      clear H
  end.

(** A valid cube with two solved layers is one of the cases. *)
Lemma LL_shape (c : Cube) :
  Valid c -> f2l c = true ->
  exists sz e0 e1 e2 e3 k0 k1 k2 k3,
    c = ll_cube sz [e0; e1; e2; e3] [k0; k1; k2; k3]
    /\ In [e0; e1; e2; e3] edge_cases
    /\ In [k0; k1; k2; k3] corner_cases
    /\ parity_ok [e0; e1; e2; e3] [k0; k1; k2; k3] = true.
Proof.
  intros HV Hf.
  destruct (LL_facts c HV Hf)
    as (p0 & o0 & p1 & o1 & p2 & o2 & p3 & o3 & q0 & t0 & q1 & t1 & q2 & t2 & q3 & t3
        & Hde & Hdc & Hle & Hlc & Hflip & Htw & Hpar).
  pose proof (Valid_well_formed c HV) as Hwf. clear HV.
  name_stickers c Hwf. unfold f2l in Hf. pin_home Hf.
  cbv [faces edge_views corner_views map peek nth firstn] in Hde, Hdc.
  split_four Hde Hd0 Hd1 Hd2 Hd3. split_four Hdc He0 He1 He2 He3.
  lazymatch goal with
  | E0 : decode_edge ?e0 = Some (p0, _), E1 : decode_edge ?e1 = Some (p1, _),
    E2 : decode_edge ?e2 = Some (p2, _), E3 : decode_edge ?e3 = Some (p3, _),
    K0 : decode_corner ?k0 = Some (q0, _), K1 : decode_corner ?k1 = Some (q1, _),
    K2 : decode_corner ?k2 = Some (q2, _), K3 : decode_corner ?k3 = Some (q3, _) |- _ =>
      exists sz, e0, e1, e2, e3, k0, k1, k2, k3
  end.
  split; [reflexivity|].
  pose proof Hle as (B0 & B1 & B2 & B3 & _).
  pose proof Hlc as (C0 & C1 & C2 & C3 & _).
  split; [|split].
  - apply filter_In. split.
    + apply in_quads; eapply u_edge_view; eapply edge_slot_cases; eauto.
    + unfold edges_ok. cbn [map]. rewrite Hd0, Hd1, Hd2, Hd3.
      rewrite (low4_low4b _ _ _ _ Hle), Hflip. reflexivity.
  - apply filter_In. split.
    + apply in_quads; eapply u_corner_view; eapply corner_slot_cases; eauto.
    + unfold corners_ok. cbn [map]. rewrite He0, He1, He2, He3.
      rewrite (low4_low4b _ _ _ _ Hlc), Htw. reflexivity.
  - unfold parity_ok. cbn [map]. rewrite Hd0, Hd1, Hd2, Hd3, He0, He1, He2, He3.
    rewrite Hpar. apply eqb_reflx.
Qed.

Lemma stage_ok_runs (stage : M HistoryCube unit) (post : Cube -> bool) (c : Cube) :
  well_formed c -> replays (fun _ => True) stage ->
  stage_ok stage post c = true ->
  exists ms c', runs stage c ms c' /\ post c' = true.
Proof.
  intros Hwf Hr H. unfold stage_ok in H.
  destruct (Hr (mkHistoryCube c []) Hwf) as (ms & H1 & H2 & _).
  destruct (stage (mkHistoryCube c [])) as [[[]|e|] [c' hist]] eqn:E; try discriminate H.
  cbn [fst snd base _history app] in *. subst hist.
  apply andb_prop in H as [Ht Hp].
  exists ms, c'. split; [|exact Hp]. split; [exact E|]. split; assumption.
Qed.

Lemma ll_cube_well_formed sz e0 e1 e2 e3 k0 k1 k2 k3 :
  well_formed (ll_cube sz [e0; e1; e2; e3] [k0; k1; k2; k3]).
Proof.
  destruct e0, e1, e2, e3, k0 as [[? ?] ?], k1 as [[? ?] ?], k2 as [[? ?] ?], k3 as [[? ?] ?].
  unfold ll_cube. solve_wf.
Qed.

Lemma guarded (b x : bool) : (if b then x else true) = true -> b = true -> x = true.
Proof. now intros H ->. Qed.

(** *** Edge orientation *)

Lemma eoll_cases sz k0 k1 k2 k3 :
  forallb (fun e => stage_ok solve_eoll eo_done (ll_cube sz e [k0; k1; k2; k3])) edge_cases
  = true.
Proof.
  destruct k0 as [[? ?] ?], k1 as [[? ?] ?], k2 as [[? ?] ?], k3 as [[? ?] ?].
  vm_compute. reflexivity.
Qed.

Lemma solve_eoll_runs (c : Cube) :
  Valid c -> f2l c = true ->
  exists ms c', runs solve_eoll c ms c' /\ eo_done c' = true.
Proof.
  intros HV Hf.
  destruct (LL_shape c HV Hf) as (sz & e0 & e1 & e2 & e3 & k0 & k1 & k2 & k3
                                  & -> & He & Hk & Hp).
  pose proof (eoll_cases sz k0 k1 k2 k3) as Hall. rewrite forallb_forall in Hall.
  apply stage_ok_runs;
    [apply ll_cube_well_formed | apply replays_solve_eoll | exact (Hall _ He)].
Qed.

(** *** Corner orientation *)

Lemma top_edges_white sz e0 e1 e2 e3 k0 k1 k2 k3 :
  colours_eqb (top_edges (faces (ll_cube sz [e0; e1; e2; e3] [k0; k1; k2; k3]))) whites = true ->
  exists s0 s1 s2 s3,
    e0 = white_edge s0 /\ e1 = white_edge s1 /\ e2 = white_edge s2 /\ e3 = white_edge s3.
Proof.
  destruct e0 as [u0 s0], e1 as [u1 s1], e2 as [u2 s2], e3 as [u3 s3],
    k0 as [[? ?] ?], k1 as [[? ?] ?], k2 as [[? ?] ?], k3 as [[? ?] ?].
  intros H. apply colours_eqb_eq in H. vm_compute in H.
  injection H as -> -> -> ->. exists s0, s1, s2, s3. repeat split.
Qed.

Lemma top_corners_white sz e0 e1 e2 e3 k0 k1 k2 k3 :
  colours_eqb (top_corners (faces (ll_cube sz [e0; e1; e2; e3] [k0; k1; k2; k3]))) whites
  = colours_eqb (map (fun v => fst (fst v)) [k0; k1; k2; k3]) whites.
Proof.
  destruct e0 as [u0 s0], e1 as [u1 s1], e2 as [u2 s2], e3 as [u3 s3],
    k0 as [[? ?] ?], k1 as [[? ?] ?], k2 as [[? ?] ?], k3 as [[? ?] ?].
  reflexivity.
Qed.

Lemma ocll_cases sz n s0 s1 s2 s3 :
  forallb (fun k => stage_ok (solve_ocll (4 + n)) oll_done
                      (ll_cube sz [white_edge s0; white_edge s1; white_edge s2; white_edge s3] k))
    corner_cases
  = true.
Proof. vm_compute. reflexivity. Qed.

Lemma solve_ocll_runs (c : Cube) (n : nat) :
  Valid c -> eo_done c = true ->
  exists ms c', runs (solve_ocll (4 + n)) c ms c' /\ oll_done c' = true.
Proof.
  intros HV Heo. unfold eo_done in Heo. apply andb_prop in Heo as [Hf Ht].
  destruct (LL_shape c HV Hf) as (sz & e0 & e1 & e2 & e3 & k0 & k1 & k2 & k3
                                  & -> & He & Hk & Hp).
  destruct (top_edges_white _ _ _ _ _ _ _ _ _ Ht) as (s0 & s1 & s2 & s3 & -> & -> & -> & ->).
  pose proof (ocll_cases sz n s0 s1 s2 s3) as Hall. rewrite forallb_forall in Hall.
  apply stage_ok_runs;
    [apply ll_cube_well_formed | apply replays_solve_ocll | exact (Hall _ Hk)].
Qed.

(** *** Corner permutation *)

Lemma cpll_cases sz s0 s1 s2 s3 :
  forallb (fun k =>
             if colours_eqb (map (fun v => fst (fst v)) k) whites
             then stage_ok solve_cpll cp_done
                    (ll_cube sz [white_edge s0; white_edge s1; white_edge s2; white_edge s3] k)
             else true)
    corner_cases
  = true.
Proof. vm_compute. reflexivity. Qed.

Lemma solve_cpll_runs (c : Cube) :
  Valid c -> oll_done c = true ->
  exists ms c', runs solve_cpll c ms c' /\ cp_done c' = true.
Proof.
  intros HV Ho. unfold oll_done, eo_done in Ho.
  apply andb_prop in Ho as [Ho Htc]. apply andb_prop in Ho as [Hf Ht].
  destruct (LL_shape c HV Hf) as (sz & e0 & e1 & e2 & e3 & k0 & k1 & k2 & k3
                                  & -> & He & Hk & Hp).
  rewrite top_corners_white in Htc.
  destruct (top_edges_white _ _ _ _ _ _ _ _ _ Ht) as (s0 & s1 & s2 & s3 & -> & -> & -> & ->).
  pose proof (cpll_cases sz s0 s1 s2 s3) as Hall. rewrite forallb_forall in Hall.
  apply stage_ok_runs; [apply ll_cube_well_formed | apply replays_solve_cpll |].
  exact (guarded _ _ (Hall _ Hk) Htc).
Qed.

(** *** Edge permutation *)

Lemma epll_cases sz n :
  forallb (fun k =>
             if colours_eqb (map (fun v => fst (fst v)) k) whites then
               forallb (fun e =>
                          if colours_eqb (map fst e) whites && parity_ok e k then
                            if cp_done (ll_cube sz e k)
                            then stage_ok (solve_epll (4 + n)) solved (ll_cube sz e k)
                            else true
                          else true)
                 edge_cases
             else true)
    corner_cases
  = true.
Proof. vm_compute. reflexivity. Qed.

Lemma solved_is_solved (c : Cube) : solved c = true -> is_solved c = (Ok true, c).
Proof.
  unfold solved, is_solved. destruct (grids_uniform (faces_values (faces c))) as [[]|e|];
    (reflexivity || discriminate).
Qed.

Lemma solve_epll_runs (c : Cube) (n : nat) :
  Valid c -> cp_done c = true ->
  exists ms c', runs (solve_epll (4 + n)) c ms c' /\ is_solved c' = (Ok true, c').
Proof.
  intros HV Hc. pose proof Hc as Hc'. unfold cp_done, oll_done, eo_done in Hc.
  apply andb_prop in Hc as [Ho _].
  apply andb_prop in Ho as [Ho Htc]. apply andb_prop in Ho as [Hf Ht].
  destruct (LL_shape c HV Hf) as (sz & e0 & e1 & e2 & e3 & k0 & k1 & k2 & k3
                                  & -> & He & Hk & Hp).
  rewrite top_corners_white in Htc.
  assert (Hte : colours_eqb (map fst [e0; e1; e2; e3]) whites = true).
  { destruct (top_edges_white _ _ _ _ _ _ _ _ _ Ht) as (s0 & s1 & s2 & s3 & -> & -> & -> & ->).
    reflexivity. }
  pose proof (epll_cases sz n) as Hall. rewrite forallb_forall in Hall.
  pose proof (guarded _ _ (Hall _ Hk) Htc) as Hin. rewrite forallb_forall in Hin.
  pose proof (Hin _ He) as H. cbv beta in H. rewrite Hte, Hp in H. cbn [andb] in H.
  rewrite Hc' in H.
  destruct (stage_ok_runs _ _ _ (ll_cube_well_formed _ _ _ _ _ _ _ _ _)
              (replays_solve_epll (4 + n)) H) as (ms & c' & R & Hs).
  exists ms, c'. split; [exact R | now apply solved_is_solved].
Qed.

(** ** The optimizer, step by step *)

Section CleanerSteps.

Local Open Scope list_scope.

Lemma norm_index_in {A} (l : list A) (i : Z) :
  0 <= i < Z.of_nat (List.length l) -> norm_index l i = Some (Z.to_nat i).
Proof.
  intros H. unfold norm_index.
  destruct (Z.leb_spec 0 i), (Z.ltb_spec i (Z.of_nat (List.length l))); try lia. reflexivity.
Qed.

Lemma norm_index_out {A} (l : list A) (i : Z) :
  Z.of_nat (List.length l) <= i -> norm_index l i = None.
Proof.
  intros H. unfold norm_index.
  destruct (Z.leb_spec 0 i), (Z.ltb_spec i (Z.of_nat (List.length l))),
    (Z.ltb_spec i 0); try lia; reflexivity.
Qed.

Lemma nth_error_here {A} (done : list A) x r :
  nth_error (done ++ x :: r) (List.length done) = Some x.
Proof. induction done; cbn; auto. Qed.

Lemma del_nth_here {A} (done : list A) x r :
  del_nth (done ++ x :: r) (List.length done) = (done ++ r)%list.
Proof. induction done as [|a done IH]; cbn; [reflexivity | now rewrite IH]. Qed.

Lemma set_nth_here {A} (done : list A) x v r :
  set_nth (done ++ x :: r) (List.length done) v = (done ++ v :: r)%list.
Proof. induction done as [|a done IH]; cbn; [reflexivity | now rewrite IH]. Qed.

Lemma item_here (done : list string) x r :
  item (Z.of_nat (List.length done)) (done ++ x :: r) = (Ok x, (done ++ x :: r)%list).
Proof.
  unfold item, getitem. rewrite norm_index_in by (rewrite length_app; cbn; lia).
  now rewrite Nat2Z.id, nth_error_here.
Qed.

Lemma item_next (done : list string) x y r :
  item (Z.of_nat (List.length done) + 1) (done ++ x :: y :: r)
  = (Ok y, (done ++ x :: y :: r)%list).
Proof.
  pose proof (item_here (done ++ [x]) y r) as H.
  rewrite length_app, <- app_assoc in H. cbn [List.length app] in H.
  replace (Z.of_nat (List.length done + 1)) with (Z.of_nat (List.length done) + 1) in H by lia.
  exact H.
Qed.

Lemma item_next_end (done : list string) x :
  item (Z.of_nat (List.length done) + 1) (done ++ [x]) = (Raise IndexError, (done ++ [x])%list).
Proof.
  unfold item, getitem. rewrite norm_index_out by (rewrite length_app; cbn; lia). reflexivity.
Qed.

Lemma del_here (done : list string) x r :
  del (Z.of_nat (List.length done)) (done ++ x :: r) = (Ok tt, (done ++ r)%list).
Proof.
  unfold del, delitem. rewrite norm_index_in by (rewrite length_app; cbn; lia).
  now rewrite Nat2Z.id, del_nth_here.
Qed.

Lemma del_next (done : list string) x y r :
  del (Z.of_nat (List.length done) + 1) (done ++ x :: y :: r) = (Ok tt, (done ++ x :: r)%list).
Proof.
  pose proof (del_here (done ++ [x]) y r) as H.
  rewrite length_app, <- !app_assoc in H. cbn [List.length app] in H.
  replace (Z.of_nat (List.length done + 1)) with (Z.of_nat (List.length done) + 1) in H by lia.
  exact H.
Qed.

Lemma assign_here (done : list string) x v r :
  assign (Z.of_nat (List.length done)) v (done ++ x :: r) = (Ok tt, (done ++ v :: r)%list).
Proof.
  unfold assign, setitem. rewrite norm_index_in by (rewrite length_app; cbn; lia).
  now rewrite Nat2Z.id, set_nth_here.
Qed.

Ltac block_step :=
  first [ rewrite item_here | rewrite item_next | rewrite del_next | rewrite del_here
        | rewrite assign_here ];
  cbv beta iota.

(** The [try] block on two neighbours. *)
Lemma try_block_pair (done : list string) (cur nxt : string) (rest : list string)
      (cur0 nxt0 : string) :
  str_getitem cur 0 = Ok cur0 -> str_getitem nxt 0 = Ok nxt0 ->
  try_block (Z.of_nat (List.length done)) (done ++ cur :: nxt :: rest)
  = if String.eqb cur0 nxt0
    then (Ok (Z.of_nat (List.length done) - 1), (done ++ merged cur nxt cur0 nxt0 ++ rest)%list)
    else (Ok (Z.of_nat (List.length done)), (done ++ cur :: nxt :: rest)%list).
Proof.
  intros Hc Hn. unfold try_block, bind, first_letter, lift, ret.
  block_step. rewrite Hc. cbv beta iota. block_step. rewrite Hn. cbv beta iota.
  destruct (String.eqb cur0 nxt0); [|reflexivity].
  unfold merged.
  destruct (is_prime cur), (is_double cur), (is_prime nxt), (is_double nxt);
    cbn [negb andb app]; repeat block_step; rewrite ?Hn; cbv beta iota;
    repeat block_step; reflexivity.
Qed.

(** The [try] block on the last token: [split_scramble[seq + 1]] fails. *)
Lemma try_block_last (done : list string) (cur cur0 : string) :
  str_getitem cur 0 = Ok cur0 ->
  try_block (Z.of_nat (List.length done)) (done ++ [cur])
  = (Raise IndexError, (done ++ [cur])%list).
Proof.
  intros Hc. unfold try_block, bind, first_letter, lift, ret.
  block_step. rewrite Hc. cbv beta iota. now rewrite item_next_end.
Qed.

(** ** Same effect *)

Lemma same_effect_refl xs : same_effect xs xs.
Proof. intros c _. reflexivity. Qed.

Lemma same_effect_cons m xs ys :
  known_move m -> same_effect xs ys -> same_effect (m :: xs) (m :: ys).
Proof.
  intros Hm H c Hwf. rewrite !do_moves_cons.
  destruct (do_move_spec m c Hm Hwf) as (c' & -> & Hwf' & _). now apply H.
Qed.

Lemma same_effect_app xs xs' ys ys' :
  Forall known_move xs' -> same_effect xs xs' -> same_effect ys ys' ->
  same_effect (xs ++ ys) (xs' ++ ys').
Proof.
  intros Hk H1 H2 c Hwf. rewrite !do_moves_app, (H1 c Hwf).
  destruct (do_moves_spec xs' c Hk Hwf) as (c' & -> & Hwf' & _). now apply H2.
Qed.

Lemma solver_token_known t : In t solver_tokens -> known_move (parsed_token t).
Proof.
  cbn. intros H.
  repeat (destruct H as [<- | H]); try contradiction; vm_compute; tauto.
Qed.

Lemma face_token_solver t : In t face_tokens -> In t solver_tokens.
Proof. intros H. unfold solver_tokens. apply in_or_app. now left. Qed.

Lemma solver_token_ok t : In t solver_tokens -> token_ok t.
Proof.
  cbn. intros H.
  repeat (destruct H as [<- | H]); try contradiction; split; (discriminate || reflexivity).
Qed.

Ltac effect :=
  let c := fresh "c" in
  let Hwf := fresh "Hwf" in
  intros c Hwf; name_stickers c Hwf; vm_compute; reflexivity.

(** Two neighbours among the solver's tokens start with different letters,
    or are two [y], or are replaced by at most one face token that does the
    same. *)
Lemma pair_cases (a b : string) :
  In a solver_tokens -> In b solver_tokens ->
  exists a0 b0,
    str_getitem a 0 = Ok a0 /\ str_getitem b 0 = Ok b0
    /\ (String.eqb a0 b0 = false
        \/ (a = "y" /\ b = "y")
        \/ (String.eqb a0 b0 = true
            /\ (List.length (merged a b a0 b0) <= 1)%nat
            /\ Forall (fun t => In t face_tokens) (merged a b a0 b0)
            /\ same_effect (map parsed_token (merged a b a0 b0))
                           (map parsed_token [a; b]))).
Proof.
  intros Ha Hb. cbn in Ha, Hb.
  repeat (destruct Ha as [<- | Ha]); try contradiction;
    repeat (destruct Hb as [<- | Hb]); try contradiction;
    (eexists; eexists; split; [reflexivity|]; split; [reflexivity|];
     first [ left; reflexivity
           | right; left; split; reflexivity
           | right; right; split; [reflexivity|];
             split; [vm_compute; lia|];
             split; [vm_compute; repeat constructor; in_list | effect] ]).
Qed.

Lemma y_sep_tail a rest : y_sep (a :: rest) = true -> y_sep rest = true.
Proof. cbn [y_sep]. intros H. now apply andb_prop in H as [_ H]. Qed.

Lemma y_sep_face m rest :
  Forall (fun t => In t face_tokens) m -> (List.length m <= 1)%nat ->
  y_sep rest = true -> y_sep (m ++ rest) = true.
Proof.
  intros Hm Hlen Hr. destruct m as [|t [|t' m]]; [exact Hr | | cbn in Hlen; lia].
  cbn [app y_sep]. rewrite Hr, andb_true_r. destruct rest as [|b rest]; [reflexivity|].
  apply Forall_inv in Hm. cbn in Hm.
  repeat (destruct Hm as [<- | Hm]); try contradiction; reflexivity.
Qed.

(** The loop, from any position on: it ends, and what it leaves does the
    same as what it found. *)
Lemma clean_loop_sound (fuel : nat) :
  forall (todo done : list string),
    (List.length todo < fuel)%nat ->
    Forall (fun t => In t solver_tokens) todo ->
    y_sep todo = true ->
    exists out,
      clean_loop fuel (Z.of_nat (List.length done)) (done ++ todo)
      = (Ok tt, (done ++ out)%list)
      /\ Forall (fun t => In t solver_tokens) out
      /\ same_effect (map parsed_token out) (map parsed_token todo).
Proof.
  induction fuel as [|fuel IH]; intros todo done Hlen Htok Hy; [lia|].
  cbn [clean_loop].
  destruct todo as [|a [|b rest]].
  - exists []. rewrite app_nil_r, Z.ltb_irrefl.
    split; [reflexivity|]. split; [constructor | apply same_effect_refl].
  - assert ((Z.of_nat (List.length done) <? Z.of_nat (List.length (done ++ [a]))) = true) as ->.
    { apply Z.ltb_lt. rewrite length_app. cbn. lia. }
    pose proof (solver_token_ok a (Forall_inv Htok)) as [Hne _].
    destruct a as [|ch a]; [congruence|].
    rewrite (try_block_last done (String ch a) (String ch "")) by reflexivity.
    exists [String ch a]. split; [reflexivity|]. split; [exact Htok | apply same_effect_refl].
  - assert ((Z.of_nat (List.length done) <? Z.of_nat (List.length (done ++ a :: b :: rest)))
            = true) as ->.
    { apply Z.ltb_lt. rewrite length_app. cbn. lia. }
    pose proof (Forall_inv Htok) as Ha.
    pose proof (Forall_inv (Forall_inv_tail Htok)) as Hb.
    pose proof (Forall_inv_tail (Forall_inv_tail Htok)) as Hrest.
    destruct (pair_cases a b Ha Hb) as (a0 & b0 & Ea & Eb & Hcase).
    rewrite (try_block_pair done a b rest a0 b0 Ea Eb).
    destruct Hcase as [Hne | [[-> ->] | (Heq & Hm1 & Hmf & Hme)]].
    + rewrite Hne.
      destruct (IH (b :: rest) (done ++ [a])%list) as (out & Hrun & Hout & Heff).
      * cbn in Hlen |- *. lia.
      * now apply Forall_inv_tail in Htok.
      * now apply y_sep_tail in Hy.
      * rewrite length_app, <- app_assoc in Hrun. cbn [List.length app] in Hrun.
        replace (Z.of_nat (List.length done + 1)) with (Z.of_nat (List.length done) + 1)
          in Hrun by lia.
        exists (a :: out). rewrite Hrun, <- app_assoc. split; [reflexivity|].
        split; [now constructor|].
        cbn [map]. apply same_effect_cons; [now apply solver_token_known | exact Heff].
    + cbn [y_sep] in Hy. discriminate Hy.
    + rewrite Heq.
      replace (Z.of_nat (List.length done) - 1 + 1) with (Z.of_nat (List.length done)) by lia.
      destruct (IH (merged a b a0 b0 ++ rest)%list done) as (out & Hrun & Hout & Heff).
      * rewrite length_app. cbn in Hlen. lia.
      * apply List.Forall_app. split; [|exact Hrest].
        eapply List.Forall_impl; [|exact Hmf]. intros t. apply face_token_solver.
      * apply y_sep_face; auto. now do 2 apply y_sep_tail in Hy.
      * exists out. rewrite Hrun. split; [reflexivity|]. split; [exact Hout|].
        intros c Hwf. rewrite (Heff c Hwf), map_app.
        change (map parsed_token (a :: b :: rest))
          with (map parsed_token [a; b] ++ map parsed_token rest)%list.
        apply same_effect_app; [| exact Hme | apply same_effect_refl | exact Hwf].
        cbn [map]. constructor; [now apply solver_token_known|].
        constructor; [now apply solver_token_known | constructor].
Qed.

End CleanerSteps.

(** ** The text of the solution *)

Lemma plain_token (m : Move) :
  plain_move m = true ->
  In (move_to_token m) solver_tokens /\ parsed_token (move_to_token m) = m
  /\ String.eqb (move_to_token m) "y" = y_move m.
Proof.
  destruct m as [f i d]. unfold plain_move. cbn [face invert double]. intros H.
  apply orb_prop in H as [H | H].
  - apply andb_prop in H as [Hf Hfl]. apply existsb_exists in Hf as (g & Hin & Heq).
    apply String.eqb_eq in Heq. subst g. cbn [In FACE_LETTERS] in Hin.
    repeat (destruct Hin as [<- | Hin]); try contradiction;
      destruct i, d; try discriminate Hfl;
      (split; [in_list | split; reflexivity]).
  - unfold Move_eqb in H. cbn [face invert double] in H.
    apply andb_prop in H as [H Hd]. apply andb_prop in H as [Hf Hi].
    apply String.eqb_eq in Hf. apply Bool.eqb_prop in Hi, Hd. subst.
    split; [in_list | split; reflexivity].
Qed.

Lemma tidy_tokens (ms : list Move) :
  tidy ms = true ->
  Forall (fun t => In t solver_tokens) (map move_to_token ms)
  /\ y_sep (map move_to_token ms) = true
  /\ map parsed_token (map move_to_token ms) = ms.
Proof.
  unfold tidy. intros H. apply andb_prop in H as [H _]. apply andb_prop in H as [Hp Hy].
  induction ms as [|m ms IH]; [repeat split; constructor|].
  cbn [forallb] in Hp. apply andb_prop in Hp as [Hm Hp].
  cbn [y_apart] in Hy. apply andb_prop in Hy as [Hy1 Hy].
  destruct (IH Hp Hy) as (I1 & I2 & I3).
  destruct (plain_token m Hm) as (T1 & T2 & T3).
  cbn [map]. split; [now constructor|]. split; [|now rewrite T2, I3].
  cbn [y_sep]. rewrite I2, andb_true_r.
  destruct ms as [|m' ms]; [reflexivity|]. cbn [map].
  cbn [forallb] in Hp. apply andb_prop in Hp as [Hm' _].
  destruct (plain_token m' Hm') as (_ & _ & T3').
  now rewrite T3, T3'.
Qed.

(** What [generate_solution] returns does to a cube what the recorded moves do. *)
Lemma solution_text_sound (ms : list Move) :
  tidy ms = true ->
  exists sol, solution_text ms = Ok sol /\ same_effect sol ms.
Proof.
  intros Ht. destruct (tidy_tokens ms Ht) as (Htok & Hy & Hback).
  set (toks := map move_to_token ms) in *.
  assert (Hok : Forall token_ok toks).
  { eapply List.Forall_impl; [|exact Htok]. intros t. apply solver_token_ok. }
  destruct (clean_loop_sound (clean_fuel toks) toks [] ltac:(unfold clean_fuel; lia) Htok Hy)
    as (out & Hrun & Hout & Heff).
  change (clean_loop (clean_fuel toks) 0 toks = (Ok tt, out)) in Hrun.
  assert (Hok' : Forall token_ok out).
  { eapply List.Forall_impl; [|exact Hout]. intros t. apply solver_token_ok. }
  exists (map parsed_token out). split.
  - unfold solution_text, clean_moves, moves_to_scramble. fold toks.
    rewrite (split_join toks Hok). unfold clean_tokens. rewrite Hrun. cbn [rbind].
    unfold scramble_to_moves. rewrite (split_join out Hok').
    now apply tokens_to_moves_total.
  - intros c Hwf. rewrite (Heff c Hwf), Hback. reflexivity.
Qed.

(** ** The seven stages in a row *)

Lemma prefix_solve_cross : blind prefix_history solve_cross.
Proof. apply blind_solve_cross; [exact prefix_super | exact prefix_append]. Qed.
Lemma prefix_solve_corners : blind prefix_history solve_corners.
Proof. apply blind_solve_corners; [exact prefix_super | exact prefix_append]. Qed.
Lemma prefix_solve_middle_edges : blind prefix_history solve_middle_edges.
Proof. apply blind_solve_middle_edges; [exact prefix_super | exact prefix_append]. Qed.
Lemma prefix_solve_eoll : blind prefix_history solve_eoll.
Proof. apply blind_solve_eoll; [exact prefix_super | exact prefix_append]. Qed.
Lemma prefix_solve_ocll fuel : blind prefix_history (solve_ocll fuel).
Proof. apply blind_solve_ocll; [exact prefix_super | exact prefix_append]. Qed.
Lemma prefix_solve_cpll : blind prefix_history solve_cpll.
Proof. apply blind_solve_cpll; [exact prefix_super | exact prefix_append]. Qed.
Lemma prefix_solve_epll fuel : blind prefix_history (solve_epll fuel).
Proof. apply blind_solve_epll; [exact prefix_super | exact prefix_append]. Qed.

Lemma runs_next (c c' : Cube) ms m es cs :
  Valid c -> runs m c ms c' -> home_after "" es cs c' = true -> Valid c'.
Proof.
  intros HV R H.
  apply Valid_y_standard; [apply (runs_Valid_y _ _ _ _ (Valid_y_of_Valid c HV) R)|].
  now apply (home_centres es cs).
Qed.

Lemma eo_done_f2l c : eo_done c = true -> f2l c = true.
Proof. unfold eo_done. intros H. now apply andb_prop in H as [H _]. Qed.

Lemma oll_done_f2l c : oll_done c = true -> f2l c = true.
Proof. unfold oll_done. intros H. apply andb_prop in H as [H _]. now apply eo_done_f2l. Qed.

Lemma cp_done_f2l c : cp_done c = true -> f2l c = true.
Proof. unfold cp_done. intros H. apply andb_prop in H as [H _]. now apply oll_done_f2l. Qed.

(** Stage after stage, from any valid cube. *)
Lemma stage_chain (c : Cube) (n : nat) :
  Valid c ->
  exists ms1 c1 ms2 c2 ms3 c3 ms4 c4 ms5 c5 ms6 c6 ms7 c7,
    runs solve_cross c ms1 c1 /\ home_after "" [4; 5; 6; 7]%nat [] c1 = true
    /\ runs solve_corners c1 ms2 c2
    /\ home_after "" [4; 5; 6; 7]%nat [4; 5; 6; 7]%nat c2 = true
    /\ runs solve_middle_edges c2 ms3 c3 /\ f2l c3 = true
    /\ runs solve_eoll c3 ms4 c4 /\ eo_done c4 = true
    /\ runs (solve_ocll (4 + n)) c4 ms5 c5 /\ oll_done c5 = true
    /\ runs solve_cpll c5 ms6 c6 /\ cp_done c6 = true
    /\ runs (solve_epll (4 + n)) c6 ms7 c7 /\ is_solved c7 = (Ok true, c7).
Proof.
  intros HV.
  destruct (solve_cross_runs c HV) as (ms1 & c1 & R1 & H1).
  pose proof (runs_next _ _ _ _ _ _ HV R1 H1) as HV1.
  destruct (solve_corners_runs c1 HV1 H1) as (ms2 & c2 & R2 & H2).
  pose proof (runs_next _ _ _ _ _ _ HV1 R2 H2) as HV2.
  destruct (solve_middle_edges_runs c2 HV2 H2) as (ms3 & c3 & R3 & H3).
  pose proof (runs_next _ _ _ _ _ _ HV2 R3 H3) as HV3.
  destruct (solve_eoll_runs c3 HV3 H3) as (ms4 & c4 & R4 & H4).
  pose proof (runs_next _ _ _ _ _ _ HV3 R4 (eo_done_f2l _ H4)) as HV4.
  destruct (solve_ocll_runs c4 n HV4 H4) as (ms5 & c5 & R5 & H5).
  pose proof (runs_next _ _ _ _ _ _ HV4 R5 (oll_done_f2l _ H5)) as HV5.
  destruct (solve_cpll_runs c5 HV5 H5) as (ms6 & c6 & R6 & H6).
  pose proof (runs_next _ _ _ _ _ _ HV5 R6 (cp_done_f2l _ H6)) as HV6.
  destruct (solve_epll_runs c6 n HV6 H6) as (ms7 & c7 & R7 & H7).
  exists ms1, c1, ms2, c2, ms3, c3, ms4, c4, ms5, c5, ms6, c6, ms7, c7.
  repeat (split; [assumption|]). assumption.
Qed.

(** ** The scramble generator *)

Lemma choice_face (g : Rng) :
  exists m, choice ["U"; "R"; "L"; "B"; "D"; "F"] g
            = (Ok m, mkRng (draws g) (S (drawn g)))
            /\ In m FACE_LETTERS.
Proof.
  unfold choice, bind, next_draw, lift. cbn [List.length].
  assert (H : 0 <= draws g (drawn g) mod 6 < 6) by (apply Z.mod_pos_bound; lia).
  change (Z.of_nat 6) with 6.
  destruct (draws g (drawn g) mod 6) as [|p|p] eqn:E; [| |lia].
  - eexists. split; [reflexivity | in_list].
  - destruct p as [[[|[]|]|[|[]|]|]|[[|[]|]|[|[]|]|]|]; try lia;
      (eexists; split; [reflexivity | in_list]).
Qed.

Lemma gen_token_face (g : Rng) :
  exists tok, gen_token ["U"; "R"; "L"; "B"; "D"; "F"] g
              = (Ok tok, mkRng (draws g) (S (S (drawn g))))
              /\ well_formed_token tok.
Proof.
  unfold gen_token, randint, next_draw, ret. unfold bind at 1. unfold bind at 1.
  cbn [draws drawn].
  destruct (choice_face (mkRng (draws g) (S (drawn g)))) as (m & Hm & Hin).
  cbn [draws drawn] in Hm.
  destruct (0 + draws g (drawn g) mod (3 - 0 + 1) =? 0);
    [|destruct (0 + draws g (drawn g) mod (3 - 0 + 1) =? 1)];
    unfold bind; rewrite Hm; eexists; (split; [reflexivity|]); exists m; auto.
Qed.

Lemma gen_loop_tokens (n : nat) :
  forall (acc : list string) (g : Rng),
  exists toks,
    gen_loop n ["U"; "R"; "L"; "B"; "D"; "F"] acc g
    = (Ok (acc ++ toks)%list, mkRng (draws g) (drawn g + 2 * n))
    /\ List.length toks = n
    /\ Forall well_formed_token toks.
Proof.
  induction n as [|n IH]; intros acc g.
  - exists []. rewrite app_nil_r, Nat.add_0_r. destruct g. repeat split. constructor.
  - cbn [gen_loop]. unfold bind at 1.
    destruct (gen_token_face g) as (tok & -> & Hwf).
    destruct (IH (acc ++ [tok])%list (mkRng (draws g) (S (S (drawn g)))))
      as (toks & Hrun & Hlen & Hall).
    exists (tok :: toks). rewrite Hrun. cbn [draws drawn List.length].
    rewrite <- app_assoc.
    replace (drawn g + 2 * S n)%nat with (S (S (drawn g)) + 2 * n)%nat by lia.
    split; [reflexivity|].
    split; [now rewrite Hlen | now constructor].
Qed.

Lemma well_formed_token_ok t : well_formed_token t -> token_ok t.
Proof.
  intros (f & Hin & Hform). cbn [In FACE_LETTERS] in Hin.
  repeat (destruct Hin as [<- | Hin]); try contradiction;
    destruct Hform as [-> | [-> | ->]]; split; (discriminate || reflexivity).
Qed.

#[local] Hint Resolve prefix_solve_cross prefix_solve_corners prefix_solve_middle_edges
  prefix_solve_eoll prefix_solve_ocll prefix_solve_cpll prefix_solve_epll : blind.

(* ===================================================================== *)
(** * Further properties of the move engine  (cube.py) *)
(* ===================================================================== *)

(** X1: whatever face turns are made from the solved cube, the stickers keep
    showing a physical cube held white up, green in front: the twelve edge
    slots show twelve different edges and the eight corner slots eight
    different corners, the number of flipped edges is even, the corner
    twists add up to a multiple of three, and edges and corners are permuted
    with the same parity. *)
Theorem reachable_cubes_are_valid (c : Cube) : reachable c -> Valid c.
Proof. apply reachable_Valid. Qed.

Lemma reachable_cubes_are_valid_witness :
  Valid (snd (Engine.do_moves (MoveList [mkMove "R" false false; mkMove "U" true false;
                                         mkMove "F" false true]) (new_Cube 3))).
Proof.
  apply reachable_cubes_are_valid.
  exists [mkMove "R" false false; mkMove "U" true false; mkMove "F" false true].
  split; [|vm_compute; reflexivity].
  repeat (apply List.Forall_cons; [unfold face_move; cbn; tauto|]). apply List.Forall_nil.
Defined.

(** X2: four [y] moves in a row, whatever their flags, leave a size-3 cube
    exactly as it was. *)
Theorem four_reorientations_restore (c : Cube) (i1 d1 i2 d2 i3 d3 i4 d4 : bool) :
  well_formed c ->
  Engine.do_moves (MoveList [mkMove "y" i1 d1; mkMove "y" i2 d2;
                             mkMove "y" i3 d3; mkMove "y" i4 d4]) c = (Ok tt, c).
Proof.
  intros Hwf. name_stickers c Hwf. vm_compute. reflexivity.
Qed.

Lemma four_reorientations_restore_witness :
  Engine.do_moves (MoveList [mkMove "y" false false; mkMove "y" true false;
                             mkMove "y" false true; mkMove "y" true true]) (new_Cube 3)
  = (Ok tt, new_Cube 3).
Proof. apply four_reorientations_restore. unfold well_formed. vm_compute. repeat constructor. Defined.

(** X3: turning a face and then the whole cube is turning the whole cube and
    then the face under its new name (F becomes L, L becomes B, B becomes R,
    R becomes F; U and D keep theirs). *)
Theorem face_turn_then_reorientation (key : string) (c : Cube) :
  In key FACE_LETTERS -> well_formed c ->
  Engine.do_moves (MoveList [mkMove key false false; mkMove "y" false false]) c
  = Engine.do_moves (MoveList [mkMove "y" false false; mkMove (turned key) false false]) c.
Proof.
  intros Hkey Hwf. name_stickers c Hwf. cbn [In FACE_LETTERS] in Hkey.
  repeat (destruct Hkey as [<- | Hkey]); try contradiction; vm_compute; reflexivity.
Qed.

Lemma face_turn_then_reorientation_witness :
  Engine.do_moves (MoveList [mkMove "F" false false; mkMove "y" false false]) (new_Cube 3)
  = Engine.do_moves (MoveList [mkMove "y" false false; mkMove (turned "F") false false])
      (new_Cube 3).
Proof.
  apply face_turn_then_reorientation; [cbn; tauto|].
  unfold well_formed. vm_compute. repeat constructor.
Defined.

(** X4: the same face move made four times, whatever its flags, leaves a
    size-3 cube exactly as it was. *)
Theorem four_equal_turns_restore (m : Move) (c : Cube) :
  face_move m -> well_formed c ->
  Engine.do_moves (MoveList [m; m; m; m]) c = (Ok tt, c).
Proof.
  intros Hm Hwf. destruct m as [f i d]. unfold face_move in Hm. cbn [face] in Hm.
  name_stickers c Hwf. cbn [In FACE_LETTERS] in Hm.
  repeat (destruct Hm as [<- | Hm]); try contradiction;
    destruct i, d; vm_compute; reflexivity.
Qed.

Lemma four_equal_turns_restore_witness :
  Engine.do_moves (MoveList [mkMove "R" true false; mkMove "R" true false;
                             mkMove "R" true false; mkMove "R" true false]) (new_Cube 3)
  = (Ok tt, new_Cube 3).
Proof.
  apply four_equal_turns_restore; [unfold face_move; cbn; tauto|].
  unfold well_formed. vm_compute. repeat constructor.
Defined.

Lemma any_differs_uniform (col : Colour) (j : nat) (g : Grid) (r0 : Row) :
  getitem g 0 = Ok r0 -> getitem r0 0 = Ok col ->
  any_differs (repeat col j) g = Ok false.
Proof.
  intros Hg Hr. induction j as [|j IH]; [reflexivity|].
  cbn [repeat any_differs]. rewrite Hg. cbn [rbind]. rewrite Hr. cbn [rbind].
  destruct col; exact IH.
Qed.

Lemma rows_uniform_uniform (col : Colour) (k j : nat) (g : Grid) (r0 : Row) :
  getitem g 0 = Ok r0 -> getitem r0 0 = Ok col ->
  rows_uniform (repeat (repeat col k) j) g = Ok true.
Proof.
  intros Hg Hr. induction j as [|j IH]; [reflexivity|].
  cbn [repeat rows_uniform]. rewrite (any_differs_uniform col k g r0 Hg Hr). exact IH.
Qed.

Lemma generated_face_uniform (col : Colour) (size : Z) :
  rows_uniform (_generate_face col size) (_generate_face col size) = Ok true.
Proof.
  unfold _generate_face. destruct (Z.to_nat size) as [|k]; [reflexivity|].
  apply (rows_uniform_uniform col (S k) (S k) _ (repeat col (S k))); reflexivity.
Qed.

(** X5: a new cube of any size, zero and negative sizes included (they give
    empty faces), counts as solved, and asking does not change it. *)
Theorem new_cube_is_solved (size : Z) :
  is_solved (new_Cube size) = (Ok true, new_Cube size).
Proof.
  unfold is_solved, new_Cube, faces_values.
  cbn [faces face_U face_F face_L face_B face_R face_D grids_uniform].
  now rewrite !generated_face_uniform.
Qed.

(* ===================================================================== *)
(** * Further properties of the history  (history_cube.py) *)
(* ===================================================================== *)

Lemma history_cube_lookups_are_observations_witness :
  (forall piece, In piece (dict_keys EDGE_TO_UF) ->
                 snd (History.get_edge piece (new_HistoryCube 3 None)) = new_HistoryCube 3 None)
  /\ (forall piece, In piece (dict_keys CORNER_TO_UFR) ->
                    snd (History.get_corner piece (new_HistoryCube 3 None))
                    = new_HistoryCube 3 None)
  /\ (forall name, snd (get_sticker name (new_HistoryCube 3 None)) = new_HistoryCube 3 None).
Proof.
  apply (history_cube_lookups_are_observations (new_HistoryCube 3 None)).
  unfold well_formed. vm_compute. repeat constructor.
Defined.

(** X7: when [do_moves] fails on a [HistoryCube] (a move of an unknown face),
    nothing is recorded, although the moves before the failing one have been
    made: the cube and its history no longer agree. *)
Theorem failed_moves_leave_no_trace (ms : list Move) (h : HistoryCube) (e : exn) :
  fst (Engine.do_moves (MoveList ms) (base h)) = Raise e ->
  History.do_moves (MoveList ms) true h
  = (Raise e, mkHistoryCube (snd (Engine.do_moves (MoveList ms) (base h))) (_history h)).
Proof.
  intros H. rewrite history_do_moves_run.
  destruct (Engine.do_moves (MoveList ms) (base h)) as [[[]|e'|] c']; cbn [fst snd] in *;
    try discriminate H. now injection H as ->.
Qed.

Lemma failed_moves_leave_no_trace_witness :
  History.do_moves (MoveList [mkMove "R" false false; mkMove "X" false false]) true
    (new_HistoryCube 3 None)
  = (Raise KeyError,
     mkHistoryCube (snd (Engine.do_moves (MoveList [mkMove "R" false false;
                                                    mkMove "X" false false])
                           (base (new_HistoryCube 3 None))))
                   (_history (new_HistoryCube 3 None))).
Proof. apply failed_moves_leave_no_trace. vm_compute. reflexivity. Defined.

(** X8: every stage of the solver, and all of them in a row, keeps the
    history of a size-3 cube in step with the cube, whatever state it starts
    from and however it ends: the moves added to the history, replayed on the
    starting cube, give the final cube. *)
Theorem solver_history_replays (fuel : nat) :
  replays (fun _ => True) solve_cross
  /\ replays (fun _ => True) solve_corners
  /\ replays (fun _ => True) solve_middle_edges
  /\ replays (fun _ => True) solve_eoll
  /\ replays (fun _ => True) (solve_ocll fuel)
  /\ replays (fun _ => True) solve_cpll
  /\ replays (fun _ => True) (solve_epll fuel)
  /\ replays (fun _ => True) (solve_stages fuel).
Proof.
  repeat split;
    auto using replays_solve_cross, replays_solve_corners, replays_solve_middle_edges,
      replays_solve_eoll, replays_solve_ocll, replays_solve_cpll, replays_solve_epll,
      replays_solve_stages.
Qed.

Lemma solver_history_replays_witness :
  exists ms,
    _history (snd (solve_stages 4
                     (mkHistoryCube
                        (snd (Engine.do_moves (MoveList [mkMove "R" false false;
                                                         mkMove "U" true false;
                                                         mkMove "F" false true])
                                (new_Cube 3))) [])))
    = ([] ++ ms)%list
    /\ Engine.do_moves (MoveList ms)
         (snd (Engine.do_moves (MoveList [mkMove "R" false false; mkMove "U" true false;
                                          mkMove "F" false true]) (new_Cube 3)))
       = (Ok tt,
          base (snd (solve_stages 4
                       (mkHistoryCube
                          (snd (Engine.do_moves (MoveList [mkMove "R" false false;
                                                           mkMove "U" true false;
                                                           mkMove "F" false true])
                                  (new_Cube 3))) []))))
    /\ well_formed
         (base (snd (solve_stages 4
                       (mkHistoryCube
                          (snd (Engine.do_moves (MoveList [mkMove "R" false false;
                                                           mkMove "U" true false;
                                                           mkMove "F" false true])
                                  (new_Cube 3))) []))))
    /\ forall a : unit,
        fst (solve_stages 4
               (mkHistoryCube
                  (snd (Engine.do_moves (MoveList [mkMove "R" false false;
                                                   mkMove "U" true false;
                                                   mkMove "F" false true])
                          (new_Cube 3))) [])) = Ok a -> True.
Proof.
  apply (proj2 (proj2 (proj2 (proj2 (proj2 (proj2 (proj2 (solver_history_replays 4)))))))
           (mkHistoryCube
              (snd (Engine.do_moves (MoveList [mkMove "R" false false; mkMove "U" true false;
                                               mkMove "F" false true]) (new_Cube 3))) [])).
  vm_compute. repeat constructor.
Defined.

(* ===================================================================== *)
(** * Further properties of the notation and the optimizer *)
(* ===================================================================== *)

(** X9: writing moves as text and parsing the text gives the moves back, as
    long as each is a face turn with at most one flag set, or a bare [y]. *)
Theorem moves_roundtrip (ms : list Move) :
  forallb plain_move ms = true ->
  scramble_to_moves (moves_to_scramble ms) = Ok ms.
Proof.
  intros H.
  assert (Htok : Forall (fun t => In t solver_tokens) (map move_to_token ms)
                 /\ map parsed_token (map move_to_token ms) = ms).
  { induction ms as [|m ms IH]; [split; constructor|].
    cbn [forallb] in H. apply andb_prop in H as [Hm H].
    destruct (IH H) as (I1 & I2). destruct (plain_token m Hm) as (T1 & T2 & _).
    cbn [map]. split; [now constructor | now rewrite T2, I2]. }
  destruct Htok as (Htok & Hback).
  assert (Hok : Forall token_ok (map move_to_token ms)).
  { eapply List.Forall_impl; [|exact Htok]. intros t. apply solver_token_ok. }
  unfold scramble_to_moves, moves_to_scramble. rewrite (split_join _ Hok).
  now rewrite (tokens_to_moves_total _ Hok), Hback.
Qed.

Lemma moves_roundtrip_witness :
  scramble_to_moves (moves_to_scramble [mkMove "R" true false; mkMove "y" false false;
                                        mkMove "U" false true])
  = Ok [mkMove "R" true false; mkMove "y" false false; mkMove "U" false true].
Proof. apply moves_roundtrip. reflexivity. Defined.

(** X10: on a text of face-turn tokens and [y] tokens with no two [y] next
    to each other, [clean_moves] ends normally, its result is again made of
    such tokens, and on every size-3 cube the result does what the text
    does. *)
Theorem clean_moves_keeps_effect (s : string) (c : Cube) :
  Forall (fun t => In t solver_tokens) (split s) ->
  y_sep (split s) = true ->
  well_formed c ->
  exists s', clean_moves s = Ok s'
             /\ Forall (fun t => In t solver_tokens) (split s')
             /\ Engine.do_moves (Text s') c = Engine.do_moves (Text s) c.
Proof.
  intros Htok Hy Hwf.
  destruct (clean_loop_sound (clean_fuel (split s)) (split s) []
              ltac:(unfold clean_fuel; lia) Htok Hy) as (out & Hrun & Hout & Heff).
  change (clean_loop (clean_fuel (split s)) 0 (split s) = (Ok tt, out)) in Hrun.
  assert (Hok : Forall token_ok out).
  { eapply List.Forall_impl; [|exact Hout]. intros t. apply solver_token_ok. }
  exists (join " " out). unfold clean_moves, clean_tokens. rewrite Hrun. cbn [rbind].
  split; [reflexivity|]. rewrite (split_join out Hok). split; [exact Hout|].
  rewrite !do_moves_text, (split_join out Hok). now apply Heff.
Qed.

Lemma clean_moves_keeps_effect_witness :
  exists s', clean_moves "R R y U U' F2 F y D'" = Ok s'
             /\ Forall (fun t => In t solver_tokens) (split s')
             /\ Engine.do_moves (Text s') (new_Cube 3)
                = Engine.do_moves (Text "R R y U U' F2 F y D'") (new_Cube 3).
Proof.
  apply clean_moves_keeps_effect.
  - vm_compute. repeat (apply List.Forall_cons; [tauto|]). apply List.Forall_nil.
  - reflexivity.
  - unfold well_formed. vm_compute. repeat constructor.
Defined.

(** X11: two [y] in a row are combined like face turns, into the token
    [y2]; but [do_moves] makes one quarter turn of the cube for any [y]
    token, so on every reachable cube the cleaned text does something else
    than the text. *)
Theorem cleaning_two_rotations_changes_effect (c : Cube) :
  reachable c ->
  clean_moves "y y" = Ok "y2"
  /\ Engine.do_moves (Text "y2") c <> Engine.do_moves (Text "y y") c.
Proof.
  intros Hr. split; [reflexivity|].
  destruct (reachable_Valid c Hr) as (Hwf & Hcen & _).
  name_stickers c Hwf. vm_compute in Hcen.
  injection Hcen as -> -> -> -> -> ->.
  vm_compute. intros E. discriminate E.
Qed.

Lemma cleaning_two_rotations_changes_effect_witness :
  clean_moves "y y" = Ok "y2"
  /\ Engine.do_moves (Text "y2") (new_Cube 3) <> Engine.do_moves (Text "y y") (new_Cube 3).
Proof.
  apply cleaning_two_rotations_changes_effect.
  exists []. split; [apply List.Forall_nil | reflexivity].
Defined.

(** X12: after a cancellation the optimizer goes on with the token that
    follows, never with the one before: in [f' g' g f] the inner pair is
    removed and the outer pair, now neighbours, stays. *)
Theorem cleaner_does_not_look_back (f g : string) :
  In f FACE_LETTERS -> In g FACE_LETTERS -> f <> g ->
  clean_tokens [f ++ "'"; g ++ "'"; g; f] = Ok [f ++ "'"; f].
Proof.
  intros Hf Hg Hne. cbn [In FACE_LETTERS] in Hf, Hg.
  repeat (destruct Hf as [<- | Hf]); try contradiction;
    repeat (destruct Hg as [<- | Hg]); try contradiction;
    try congruence; vm_compute; reflexivity.
Qed.

Lemma cleaner_does_not_look_back_witness :
  clean_tokens ["R" ++ "'"; "U" ++ "'"; "U"; "R"] = Ok ["R" ++ "'"; "R"].
Proof. apply cleaner_does_not_look_back; [cbn; tauto | cbn; tauto | discriminate]. Defined.

(* ===================================================================== *)
(** * The scramble generator  (generator.py) *)
(* ===================================================================== *)

(** One run of [gen_scramble]: 40 tokens of the grammar joined by spaces,
    80 numbers read. *)
Lemma gen_scramble_run (g : Rng) :
  exists toks,
    gen_scramble g = (Ok (join " " toks), mkRng (draws g) (drawn g + 80))
    /\ List.length toks = 40%nat
    /\ Forall well_formed_token toks
    /\ split (join " " toks) = toks.
Proof.
  destruct (gen_loop_tokens 40 [] g) as (toks & Hrun & Hlen & Hall).
  exists toks. unfold gen_scramble. unfold bind. rewrite Hrun. cbn [app ret].
  split; [reflexivity|]. split; [exact Hlen|]. split; [exact Hall|].
  apply split_join. eapply List.Forall_impl; [|exact Hall]. apply well_formed_token_ok.
Qed.

(** X13: whatever numbers the random source gives, [gen_scramble] returns a
    text of exactly 40 tokens, each a face letter alone or followed by ['] or
    [2], having read 80 numbers; played on the solved cube the text is
    accepted and gives a reachable cube. *)
Theorem gen_scramble_well_formed (g : Rng) :
  exists s c,
    gen_scramble g = (Ok s, mkRng (draws g) (drawn g + 80))
    /\ List.length (split s) = 40%nat
    /\ well_formed_text s
    /\ Engine.do_moves (Text s) (new_Cube 3) = (Ok tt, c)
    /\ reachable c.
Proof.
  destruct (gen_scramble_run g) as (toks & Hrun & Hlen & Hall & Hsplit).
  assert (Hok : Forall token_ok toks).
  { eapply List.Forall_impl; [|exact Hall]. apply well_formed_token_ok. }
  destruct (tokens_roundtrip toks Hall) as (ms & Hms & Hmap).
  rewrite (tokens_to_moves_total _ Hok) in Hms. injection Hms as Hms. symmetry in Hms.
  assert (Hface : Forall face_move ms).
  { subst ms. clear - Hall. induction Hall as [|t toks Ht _ IH]; [constructor|].
    cbn [map]. constructor; [|exact IH].
    destruct Ht as (f & Hin & Hform). cbn [In FACE_LETTERS] in Hin.
    repeat (destruct Hin as [<- | Hin]); try contradiction;
      destruct Hform as [-> | [-> | ->]]; unfold face_move; cbn; tauto. }
  assert (Hk : Forall known_move ms).
  { eapply List.Forall_impl; [|exact Hface]. intros m H. right. exact H. }
  destruct (do_moves_spec ms (new_Cube 3) Hk new_Cube_well_formed) as (c & Hc & _).
  exists (join " " toks), c.
  split; [exact Hrun|]. unfold well_formed_text. rewrite Hsplit.
  split; [exact Hlen|]. split; [exact Hall|].
  rewrite do_moves_text, Hsplit, <- Hms. split; [exact Hc|].
  exists ms. now split.
Qed.

(** X14: [gen_n_scrambles n] returns [n] such texts ([n] not above zero:
    none), for every random source. *)
Theorem gen_n_scrambles_well_formed (n : Z) (g : Rng) :
  exists l, fst (gen_n_scrambles n g) = Ok l
            /\ List.length l = Z.to_nat n
            /\ Forall well_formed_text l.
Proof.
  unfold gen_n_scrambles.
  assert (H : forall k acc g, Forall well_formed_text acc ->
            exists l, fst (gen_n_loop k acc g) = Ok l
                      /\ List.length l = (List.length acc + k)%nat
                      /\ Forall well_formed_text l).
  { induction k as [|k IH]; intros acc g0 Hacc.
    - exists acc. cbn. rewrite Nat.add_0_r. auto.
    - cbn [gen_n_loop]. unfold bind at 1.
      destruct (gen_scramble_run g0) as (toks & -> & _ & Hs & Hsplit).
      destruct (IH (acc ++ [join " " toks])%list (mkRng (draws g0) (drawn g0 + 80)))
        as (l & Hl & Hlen & Hall).
      { apply List.Forall_app. split; [exact Hacc|]. constructor; [|constructor].
        unfold well_formed_text. rewrite Hsplit. exact Hs. }
      exists l. split; [exact Hl|]. split; [|exact Hall].
      rewrite Hlen, length_app. cbn. lia. }
  destruct (H (Z.to_nat n) [] g (List.Forall_nil _)) as (l & Hl & Hlen & Hall).
  exists l. auto.
Qed.


(* ===================================================================== *)
(** * Further properties of the piece locator *)
(* ===================================================================== *)

(** X6: on a size-3 [HistoryCube], [get_edge] returns the two facelets of
    the slot it is asked for, each under the letter of its face, and
    [get_corner] the three facelets of its slot; cube and history are as
    before.  For the corners DFR, DFL and DBL the facelets do not come under
    their own letters: the setup moves twist the corner on its way to UFR
    (for DFR the letter D gives the facelet on F and F the one on D). *)
Theorem lookups_read_their_slot (h : HistoryCube) :
  well_formed (base h) ->
  let '(mkFaces u f l b r d) := faces (base h) in
  map (fun k => History.get_edge k h) (dict_keys EDGE_TO_UF)
  = map (fun info => (Ok info, h))
      [ [("U", peek u 2 1); ("F", peek f 0 1)]; [("U", peek u 1 0); ("L", peek l 0 1)];
        [("U", peek u 1 2); ("R", peek r 0 1)]; [("U", peek u 0 1); ("B", peek b 0 1)];
        [("L", peek l 1 0); ("B", peek b 1 2)]; [("L", peek l 2 1); ("D", peek d 1 0)];
        [("L", peek l 1 2); ("F", peek f 1 0)]; [("R", peek r 1 2); ("B", peek b 1 0)];
        [("R", peek r 2 1); ("D", peek d 1 2)]; [("R", peek r 1 0); ("F", peek f 1 2)];
        [("D", peek d 2 1); ("B", peek b 2 1)]; [("D", peek d 0 1); ("F", peek f 2 1)] ]
  /\ map (fun k => History.get_corner k h) (dict_keys CORNER_TO_UFR)
     = map (fun info => (Ok info, h))
         [ [("U", peek u 2 2); ("F", peek f 0 2); ("R", peek r 0 0)];
           [("D", peek f 2 2); ("F", peek d 0 2); ("R", peek r 2 0)];
           [("D", peek d 2 2); ("B", peek b 2 0); ("R", peek r 2 2)];
           [("U", peek u 0 2); ("R", peek r 0 2); ("B", peek b 0 0)];
           [("U", peek u 2 0); ("L", peek l 0 2); ("F", peek f 0 0)];
           [("U", peek u 0 0); ("B", peek b 0 2); ("L", peek l 0 0)];
           [("D", peek f 2 0); ("F", peek l 2 2); ("L", peek d 0 0)];
           [("D", peek d 2 0); ("B", peek l 2 0); ("L", peek b 2 2)] ].
Proof.
  intros Hwf. name_history_stickers h Hwf. cbn [faces base].
  split; vm_compute; reflexivity.
Qed.

Lemma lookups_read_their_slot_witness :
  let '(mkFaces u f l b r d) := faces (base (new_HistoryCube 3 None)) in
  map (fun k => History.get_edge k (new_HistoryCube 3 None)) (dict_keys EDGE_TO_UF)
  = map (fun info => (Ok info, new_HistoryCube 3 None))
      [ [("U", peek u 2 1); ("F", peek f 0 1)]; [("U", peek u 1 0); ("L", peek l 0 1)];
        [("U", peek u 1 2); ("R", peek r 0 1)]; [("U", peek u 0 1); ("B", peek b 0 1)];
        [("L", peek l 1 0); ("B", peek b 1 2)]; [("L", peek l 2 1); ("D", peek d 1 0)];
        [("L", peek l 1 2); ("F", peek f 1 0)]; [("R", peek r 1 2); ("B", peek b 1 0)];
        [("R", peek r 2 1); ("D", peek d 1 2)]; [("R", peek r 1 0); ("F", peek f 1 2)];
        [("D", peek d 2 1); ("B", peek b 2 1)]; [("D", peek d 0 1); ("F", peek f 2 1)] ]
  /\ map (fun k => History.get_corner k (new_HistoryCube 3 None)) (dict_keys CORNER_TO_UFR)
     = map (fun info => (Ok info, new_HistoryCube 3 None))
         [ [("U", peek u 2 2); ("F", peek f 0 2); ("R", peek r 0 0)];
           [("D", peek f 2 2); ("F", peek d 0 2); ("R", peek r 2 0)];
           [("D", peek d 2 2); ("B", peek b 2 0); ("R", peek r 2 2)];
           [("U", peek u 0 2); ("R", peek r 0 2); ("B", peek b 0 0)];
           [("U", peek u 2 0); ("L", peek l 0 2); ("F", peek f 0 0)];
           [("U", peek u 0 0); ("B", peek b 0 2); ("L", peek l 0 0)];
           [("D", peek f 2 0); ("F", peek l 2 2); ("L", peek d 0 0)];
           [("D", peek d 2 0); ("B", peek l 2 0); ("L", peek b 2 2)] ].
Proof.
  apply (lookups_read_their_slot (new_HistoryCube 3 None)).
  unfold well_formed. vm_compute. repeat constructor.
Defined.

Lemma get_sticker_loop_missing {S} `{PieceLookup S} (name : string) (perms : list (list string))
      (s : S) :
  forallb (fun perm => negb (dict_mem EDGE_TO_UF (join "" perm))
                       && negb (dict_mem CORNER_TO_UFR (join "" perm))) perms = true ->
  get_sticker_loop name perms s = (Raise ValueError, s).
Proof.
  induction perms as [|perm rest IH]; intros Hall; [reflexivity|].
  cbn [forallb] in Hall. apply andb_prop in Hall as [Hp Hall].
  apply andb_prop in Hp as [He Hc]. apply negb_true_iff in He, Hc.
  cbn [get_sticker_loop]. rewrite He, Hc. now apply IH.
Qed.

(** X15: asked for a sticker none of whose letter orders names an edge or a
    corner, [get_sticker] raises [ValueError] and leaves the object as it
    was, on a plain [Cube] and on a [HistoryCube] alike. *)
Theorem unknown_sticker_name (name : string) (c : Cube) (h : HistoryCube) :
  forallb (fun perm => negb (dict_mem EDGE_TO_UF (join "" perm))
                       && negb (dict_mem CORNER_TO_UFR (join "" perm)))
    (permutations (chars name)) = true ->
  get_sticker name c = (Raise ValueError, c)
  /\ get_sticker name h = (Raise ValueError, h).
Proof.
  intros Hall. unfold get_sticker. split; now apply get_sticker_loop_missing.
Qed.

Lemma unknown_sticker_name_witness :
  get_sticker "UD" (new_Cube 3) = (Raise ValueError, new_Cube 3)
  /\ get_sticker "UD" (new_HistoryCube 3 None) = (Raise ValueError, new_HistoryCube 3 None).
Proof. apply unknown_sticker_name. vm_compute. reflexivity. Defined.

(* ===================================================================== *)
(** * The solver, stage by stage  (solver.py) *)
(* ===================================================================== *)

Ltac chain :=
  repeat (first [ eassumption
                | eapply runs_seq; [blind_auto | eassumption |] ]).

Ltac stages c n Hr :=
  destruct (stage_chain c n (reachable_Valid c Hr))
    as (ms1 & c1 & ms2 & c2 & ms3 & c3 & ms4 & c4 & ms5 & c5 & ms6 & c6 & ms7 & c7
        & R1 & H1 & R2 & H2 & R3 & H3 & R4 & H4 & R5 & H5 & R6 & H6 & R7 & H7).

(** X16: on every cube reachable from the solved one, [solve_cross] ends
    normally; afterwards the four edges of the bottom layer and the six
    centres look as on the solved cube; and the moves it has recorded,
    replayed on the cube it started from, give the cube it ends with. *)
Theorem solve_cross_builds_the_cross (c : Cube) :
  reachable c ->
  exists ms c', runs solve_cross c ms c' /\ home_after "" [4; 5; 6; 7]%nat [] c' = true.
Proof. intros Hr. stages c 0%nat Hr. exists ms1, c1. now split. Qed.

(** X17: on every cube reachable from the solved one, [solve_cross] followed
    by [solve_corners] ends normally, and afterwards the whole bottom layer
    (four edges, four corners) and the six centres look as on the solved
    cube. *)
Theorem solve_corners_completes_the_first_layer (c : Cube) :
  reachable c ->
  exists ms c', runs (solve_cross ;;; solve_corners) c ms c'
                /\ home_after "" [4; 5; 6; 7]%nat [4; 5; 6; 7]%nat c' = true.
Proof.
  intros Hr. stages c 0%nat Hr.
  exists (ms1 ++ ms2)%list, c2. split; [chain | exact H2].
Qed.

(** X18: on every cube reachable from the solved one, the first three
    stages in a row end normally, with the cube held as at the start, and
    the two lower layers look as on the solved cube. *)
Theorem solve_middle_edges_completes_two_layers (c : Cube) :
  reachable c ->
  exists ms c', runs (solve_cross ;;; solve_corners ;;; solve_middle_edges) c ms c'
                /\ f2l c' = true.
Proof.
  intros Hr. stages c 0%nat Hr.
  exists (ms1 ++ ms2 ++ ms3)%list, c3. split; [chain | exact H3].
Qed.

(** X19: on every cube reachable from the solved one, the first three
    stages followed by [solve_eoll] end normally, [solve_eoll] within its
    four attempts, and afterwards the two lower layers are done and the four
    edges of the top layer show white on top. *)
Theorem solve_eoll_orients_the_edges (c : Cube) :
  reachable c ->
  exists ms c',
    runs (solve_cross ;;; solve_corners ;;; solve_middle_edges ;;; solve_eoll) c ms c'
    /\ eo_done c' = true.
Proof.
  intros Hr. stages c 0%nat Hr.
  exists (ms1 ++ ms2 ++ ms3 ++ ms4)%list, c4. split; [chain | exact H4].
Qed.

(** X20: on every cube reachable from the solved one, the first four stages
    followed by [solve_ocll] end normally, the [while] loop of [solve_ocll]
    making at most four tests, and afterwards the two lower layers are done
    and the whole top face is white. *)
Theorem solve_ocll_orients_the_corners (c : Cube) (fuel : nat) :
  reachable c -> (4 <= fuel)%nat ->
  exists ms c',
    runs (solve_cross ;;; solve_corners ;;; solve_middle_edges ;;; solve_eoll ;;;
          solve_ocll fuel) c ms c'
    /\ oll_done c' = true.
Proof.
  intros Hr Hfuel. replace fuel with (4 + (fuel - 4))%nat by lia.
  stages c (fuel - 4)%nat Hr.
  exists (ms1 ++ ms2 ++ ms3 ++ ms4 ++ ms5)%list, c5. split; [chain | exact H5].
Qed.

(** X21: on every cube reachable from the solved one, the first five stages
    followed by [solve_cpll] end normally, and afterwards the two lower
    layers are done, the top face is white and some turn of the top face
    brings the four top corners home. *)
Theorem solve_cpll_places_the_corners (c : Cube) (fuel : nat) :
  reachable c -> (4 <= fuel)%nat ->
  exists ms c',
    runs (solve_cross ;;; solve_corners ;;; solve_middle_edges ;;; solve_eoll ;;;
          solve_ocll fuel ;;; solve_cpll) c ms c'
    /\ cp_done c' = true.
Proof.
  intros Hr Hfuel. replace fuel with (4 + (fuel - 4))%nat by lia.
  stages c (fuel - 4)%nat Hr.
  exists (ms1 ++ ms2 ++ ms3 ++ ms4 ++ ms5 ++ ms6)%list, c6. split; [chain | exact H6].
Qed.

Lemma stages_solve (c : Cube) (fuel : nat) :
  reachable c -> (4 <= fuel)%nat ->
  exists ms c', runs (solve_stages fuel) c ms c' /\ is_solved c' = (Ok true, c').
Proof.
  intros Hr Hfuel. replace fuel with (4 + (fuel - 4))%nat by lia.
  stages c (fuel - 4)%nat Hr.
  exists (ms1 ++ ms2 ++ ms3 ++ ms4 ++ ms5 ++ ms6 ++ ms7)%list, c7.
  split; [unfold solve_stages; chain | exact H7].
Qed.

(** X22: the seven stages in a row end normally on every cube reachable
    from the solved one, each [while] loop making at most four tests; the
    cube they leave is solved, and the moves they have recorded, replayed on
    the starting cube, give that solved cube. *)
Theorem solve_stages_solve_the_cube (c : Cube) (fuel : nat) :
  reachable c -> (4 <= fuel)%nat ->
  exists ms c', runs (solve_stages fuel) c ms c' /\ is_solved c' = (Ok true, c').
Proof. apply stages_solve. Qed.

Lemma solve_run (fuel : nat) (c : Cube) (ms : list Move) (c' : Cube) :
  solve_stages fuel (mkHistoryCube c []) = (Ok tt, mkHistoryCube c' ms) ->
  solve fuel c = solution_text ms.
Proof.
  destruct c as [sz fs]. unfold solve, new_HistoryCube, new_Cube. cbn [size faces].
  unfold bind. intros ->. reflexivity.
Qed.

(** X23: for every reachable cube, [generate_solution] returns a list of
    moves (it raises nothing and its loops end), and these moves, made on
    the caller's cube, solve it. *)
Theorem generate_solution_solves (c : Cube) (fuel : nat) (cube : CubeObj)
        (store : gmap loc Faces) :
  reachable c -> (4 <= fuel)%nat ->
  store !! obj_faces cube = Some (faces c) ->
  exists sol c',
    fst (generate_solution fuel cube store) = Ok sol
    /\ Engine.do_moves (MoveList sol) c = (Ok tt, c')
    /\ is_solved c' = (Ok true, c').
Proof.
  intros Hr Hfuel Hst.
  destruct (generate_solution_run fuel cube store (faces c) Hst) as (fs' & ->). cbn [fst].
  rewrite (solve_ignores_size fuel (obj_size cube) (size c) (faces c)).
  replace (mkCube (size c) (faces c)) with c by (now destruct c).
  destruct (stages_solve c fuel Hr Hfuel) as (ms & c' & (Hrun & Hrep & Ht) & Hs).
  destruct (solution_text_sound ms Ht) as (sol & Hsol & Heff).
  exists sol, c'. split; [|split; [|exact Hs]].
  - now rewrite (solve_run fuel c ms c' Hrun).
  - rewrite (Heff c); [exact Hrep|].
    now apply Valid_well_formed, reachable_Valid.
Qed.

(** Witnesses: the cube after R U' F2. *)
Ltac reach :=
  exists [mkMove "R" false false; mkMove "U" true false; mkMove "F" false true];
  split; [|vm_compute; reflexivity];
  repeat (apply List.Forall_cons; [unfold face_move; cbn; tauto|]); apply List.Forall_nil.

Lemma solve_cross_builds_the_cross_witness :
  exists ms c',
    runs solve_cross
      (snd (Engine.do_moves (MoveList [mkMove "R" false false; mkMove "U" true false;
                                       mkMove "F" false true]) (new_Cube 3))) ms c'
    /\ home_after "" [4; 5; 6; 7]%nat [] c' = true.
Proof. apply solve_cross_builds_the_cross. reach. Defined.

Lemma solve_corners_completes_the_first_layer_witness :
  exists ms c',
    runs (solve_cross ;;; solve_corners)
      (snd (Engine.do_moves (MoveList [mkMove "R" false false; mkMove "U" true false;
                                       mkMove "F" false true]) (new_Cube 3))) ms c'
    /\ home_after "" [4; 5; 6; 7]%nat [4; 5; 6; 7]%nat c' = true.
Proof. apply solve_corners_completes_the_first_layer. reach. Defined.

Lemma solve_middle_edges_completes_two_layers_witness :
  exists ms c',
    runs (solve_cross ;;; solve_corners ;;; solve_middle_edges)
      (snd (Engine.do_moves (MoveList [mkMove "R" false false; mkMove "U" true false;
                                       mkMove "F" false true]) (new_Cube 3))) ms c'
    /\ f2l c' = true.
Proof. apply solve_middle_edges_completes_two_layers. reach. Defined.

Lemma solve_eoll_orients_the_edges_witness :
  exists ms c',
    runs (solve_cross ;;; solve_corners ;;; solve_middle_edges ;;; solve_eoll)
      (snd (Engine.do_moves (MoveList [mkMove "R" false false; mkMove "U" true false;
                                       mkMove "F" false true]) (new_Cube 3))) ms c'
    /\ eo_done c' = true.
Proof. apply solve_eoll_orients_the_edges. reach. Defined.

Lemma solve_ocll_orients_the_corners_witness :
  exists ms c',
    runs (solve_cross ;;; solve_corners ;;; solve_middle_edges ;;; solve_eoll ;;;
          solve_ocll 4)
      (snd (Engine.do_moves (MoveList [mkMove "R" false false; mkMove "U" true false;
                                       mkMove "F" false true]) (new_Cube 3))) ms c'
    /\ oll_done c' = true.
Proof. apply solve_ocll_orients_the_corners; [reach | lia]. Defined.

Lemma solve_cpll_places_the_corners_witness :
  exists ms c',
    runs (solve_cross ;;; solve_corners ;;; solve_middle_edges ;;; solve_eoll ;;;
          solve_ocll 4 ;;; solve_cpll)
      (snd (Engine.do_moves (MoveList [mkMove "R" false false; mkMove "U" true false;
                                       mkMove "F" false true]) (new_Cube 3))) ms c'
    /\ cp_done c' = true.
Proof. apply solve_cpll_places_the_corners; [reach | lia]. Defined.

Lemma solve_stages_solve_the_cube_witness :
  exists ms c',
    runs (solve_stages 4)
      (snd (Engine.do_moves (MoveList [mkMove "R" false false; mkMove "U" true false;
                                       mkMove "F" false true]) (new_Cube 3))) ms c'
    /\ is_solved c' = (Ok true, c').
Proof. apply solve_stages_solve_the_cube; [reach | lia]. Defined.

Lemma generate_solution_solves_witness :
  exists sol c',
    fst (generate_solution 4 (mkCubeObj 3 1%positive)
           {[ 1%positive :=
                faces (snd (Engine.do_moves
                              (MoveList [mkMove "R" false false; mkMove "U" true false;
                                         mkMove "F" false true]) (new_Cube 3))) ]})
    = Ok sol
    /\ Engine.do_moves (MoveList sol)
         (snd (Engine.do_moves (MoveList [mkMove "R" false false; mkMove "U" true false;
                                          mkMove "F" false true]) (new_Cube 3)))
       = (Ok tt, c')
    /\ is_solved c' = (Ok true, c').
Proof. apply generate_solution_solves; [reach | lia | reflexivity]. Defined.
